(** * AMBA bus drivers of cocotb: AXI4-Lite master, AXI4 slave, AXI4-Lite slave

    A shallow embedding of [cocotb/drivers/amba.py].  The three driver
    classes become three modules.  Coroutines are modelled at clock-cycle
    granularity: the simulator is an external collaborator, so the
    signals a driver does not drive itself are given as a finite trace
    with one sample per clock cycle, and a coroutine that is still
    waiting when the trace ends is [Suspended].

    The master's coroutines are written in a small monad over the
    trace, the time and the master object.  The tasks that the slaves
    fork run for ever; each is a state machine whose states are the
    [yield] statements it can be suspended at, with one transition per
    clock cycle.  Signal values are resolved integers ([int(sig)], no
    X or Z bits), memory cells are bytes, and the exceptions that the
    modelled lines raise on such values are kept.  Debug logging is
    left out. *)

From Stdlib Require Import ZArith Strings.String Strings.Ascii Strings.Byte Lia.
From stdpp Require Import base tactics option list.

Open Scope Z_scope.

(** ** Python values shared by the three drivers *)

(** The exceptions the module can raise.  [AXIProtocolError] is the
    module's own class (its message is formatted from the address and
    the response code); the others are Python built-ins. *)
Inductive exn : Type :=
| AXIProtocolError (address resp : Z)
| ValueError
| TypeError
| IndexError
| NameError
| StructError
| OverflowError.

(** How the run of a coroutine (or of a plain method) over a finite
    trace ends. *)
Inductive outcome (A : Type) : Type :=
| Returned (a : A)
| Raised (e : exn)
| Suspended.
Arguments Returned {A} a.
Arguments Raised {A} e.
Arguments Suspended {A}.

(** Truth value of a sampled signal: [BinaryValue] is true when a bit is
    set, i.e. when its integer value is not zero. *)
Definition truthy (v : Z) : bool := negb (v =? 0).

(** A task forked by a slave is either suspended at one of its [yield]
    statements or has been ended by an exception. *)
Inductive task (pc : Type) : Type :=
| Waiting (at_ : pc)
| Crashed (e : exn).
Arguments Waiting {pc} at_.
Arguments Crashed {pc} e.

(** Addresses and slice bounds are non-negative integers; [Z.to_nat]
    gives their position in the memory image. *)
Definition slice {A} (l : list A) (st en : Z) : list A :=
  take (Z.to_nat en - Z.to_nat st)%nat (drop (Z.to_nat st) l).

(** [l[st:en] = data] on an [array.array]: the slice is replaced, and
    the array changes its length when [data] has another length. *)
Definition slice_assign {A} (l : list A) (st en : Z) (data : list A) : list A :=
  take (Z.to_nat st) l ++ data ++ drop (Nat.max (Z.to_nat st) (Z.to_nat en)) l.

(** [l[i] = x], with the [IndexError] of an index past the end. *)
Definition setitem {A} (l : list A) (i : Z) (x : A) : option (list A) :=
  if (0 <=? i) && (i <? Z.of_nat (length l))
  then Some (<[Z.to_nat i := x]> l) else None.

(** [s[i]] on a Python string: the one-character string at [i], or
    nothing ([IndexError]) past the end. *)
Definition str_getitem (s : string) (i : nat) : option string :=
  match String.get i s with
  | Some c => Some (String c EmptyString)
  | None => None
  end.

(** [bool(s)] on a Python string: true for every non-empty string. *)
Definition bool_str (s : string) : bool :=
  match s with
  | EmptyString => false
  | String _ _ => true
  end.

(** [bool(x)] on an attribute that holds [None] or an integer. *)
Definition bool_opt (x : option Z) : bool :=
  match x with
  | None => false
  | Some v => negb (v =? 0)
  end.

Definition byte_of_Z (v : Z) : byte :=
  match Byte.of_N (Z.to_N (v mod 256)) with
  | Some b => b
  | None => x00
  end.
Definition Z_of_byte (b : byte) : Z := Z.of_N (Byte.to_N b).

Fixpoint le_bytes (n : nat) (v : Z) : list byte :=
  match n with
  | O => []
  | S n' => byte_of_Z v :: le_bytes n' (v / 256)
  end.

Fixpoint le_int (bs : list byte) : Z :=
  match bs with
  | [] => 0
  | b :: bs' => Z_of_byte b + 256 * le_int bs'
  end.

(** The names the module binds at its top level: the imports of lines
    29-36 and the four class statements.  A global name that is neither
    in this list nor a Python built-in raises [NameError] where it is
    used.  [struct], which [AXI4LiteSlave] calls at lines 488 and 535,
    is not imported. *)
Definition module_globals : list string :=
  ["cocotb"; "RisingEdge"; "ReadOnly"; "Lock"; "BusDriver"; "ReturnValue";
   "BinaryValue"; "binascii"; "array";
   "AXIProtocolError"; "AXI4LiteMaster"; "AXI4Slave"; "AXI4LiteSlave"]%string.

Definition bound (name : string) : bool :=
  existsb (String.eqb name) module_globals.

(** [struct.pack] and [struct.unpack] of the Python standard library
    for the four formats the module builds: [<I], [>I], [<Q], [>Q],
    given by the byte order and the size in bytes.  Both raise
    [struct.error] ([None]) on a value or a buffer of the wrong size. *)
Definition struct_pack (big : bool) (size : nat) (v : Z) : option (list byte) :=
  if (0 <=? v) && (v <? 2 ^ (8 * Z.of_nat size))
  then Some (if big then rev (le_bytes size v) else le_bytes size v)
  else None.

Definition struct_unpack (big : bool) (size : nat) (buf : list byte) : option Z :=
  if Nat.eqb (length buf) size
  then Some (le_int (if big then rev buf else buf))
  else None.

(** ** AXI4-Lite master *)
Module AXI4LiteMaster.

Inductive signal : Type :=
| AWVALID | AWADDR | AWREADY
| WVALID | WREADY | WDATA | WSTRB
| BVALID | BREADY | BRESP
| ARVALID | ARADDR | ARREADY
| RVALID | RREADY | RRESP | RDATA.

#[global] Instance signal_eq_dec : EqDecision signal.
Proof. solve_decision. Defined.

(** The signals the master assigns somewhere in its code; the remaining
    ones are only sampled and come from the peer. *)
Definition driven_by_master (s : signal) : bool :=
  match s with
  | AWVALID | AWADDR | WVALID | WDATA | WSTRB | BREADY
  | ARVALID | ARADDR | RREADY => true
  | _ => false
  end.

(** One settled sample of the bus per clock cycle. *)
Abbreviation sample := (signal -> Z).
Abbreviation trace := (list sample).

Inductive lock : Type := write_address_busy | read_address_busy | write_data_busy.

#[global] Instance lock_eq_dec : EqDecision lock.
Proof. solve_decision. Defined.

(** The master object together with the simulation time of the running
    coroutine.  [out] holds the values the master last assigned,
    [drives] logs every assignment with its cycle (newest first),
    [bits] is the width of each bus signal, [locked] the state of the
    three channel locks. *)
Record world : Type := World {
  bits : signal -> nat;
  out : signal -> Z;
  now : nat;
  drives : list (nat * signal * Z);
  locked : lock -> bool
}.

Definition set_now (t : nat) (w : world) : world :=
  World (bits w) (out w) t (drives w) (locked w).
Definition set_locked (l : lock) (b : bool) (w : world) : world :=
  World (bits w) (out w) (now w) (drives w)
        (fun l' => if decide (l' = l) then b else locked w l').

Definition co (A : Type) : Type := trace -> world -> outcome A * world.

Definition ret {A} (a : A) : co A := fun _ w => (Returned a, w).
Definition raise {A} (e : exn) : co A := fun _ w => (Raised e, w).
Definition bind {A B} (c : co A) (k : A -> co B) : co B := fun tr w =>
  match c tr w with
  | (Returned a, w') => k a tr w'
  | (Raised e, w') => (Raised e, w')
  | (Suspended, w') => (Suspended, w')
  end.

Declare Scope co_scope.
Delimit Scope co_scope with co.
Notation "x <- c ; k" := (bind c (fun x => k))
  (at level 20, c at level 100, k at level 200) : co_scope.
Notation "c ;; k" := (bind c (fun _ => k))
  (at level 100, k at level 200, right associativity) : co_scope.
Open Scope co_scope.

(** [yield RisingEdge(self.clock)] *)
Definition RisingEdge : co unit := fun _ w => (Returned tt, set_now (S (now w)) w).

(** [yield ReadOnly()]: the settled values of the current cycle are
    available; past the end of the trace the coroutine stays suspended. *)
Definition ReadOnly : co unit := fun tr w =>
  match tr !! now w with
  | Some _ => (Returned tt, w)
  | None => (Suspended, w)
  end.

(** [self.bus.<sig>.value]: a signal of the peer is read from the
    sample of the current cycle, a signal that the master drives reads
    back what the master last assigned. *)
Definition value (sig : signal) : co Z := fun tr w =>
  if driven_by_master sig then (Returned (out w sig), w)
  else match tr !! now w with
       | Some s => (Returned (s sig), w)
       | None => (Suspended, w)
       end.

(** [self.bus.<sig> <= v] *)
Definition drive (sig : signal) (v : Z) : co unit := fun _ w =>
  (Returned tt,
   World (bits w) (fun s => if decide (s = sig) then v else out w s) (now w)
         ((now w, sig, v) :: drives w) (locked w)).

(** [yield lock.acquire()] and [lock.release()].  One coroutine runs at
    a time in this model, so a lock found taken is never released. *)
Definition acquire (l : lock) : co unit := fun _ w =>
  if locked w l then (Suspended, w) else (Returned tt, set_locked l true w).
Definition release (l : lock) : co unit := fun _ w =>
  (Returned tt, set_locked l false w).

(** [for cycle in range(delay): yield RisingEdge(self.clock)] *)
Fixpoint edges (n : nat) : co unit :=
  match n with
  | O => ret tt
  | S n' => RisingEdge ;; edges n'
  end.

(** [while True:] with a body that answers [Some a] on [break] and
    [None] when it falls through to the next iteration. *)
Fixpoint loop {A} (fuel : nat) (body : co (option A)) : co A :=
  match fuel with
  | O => fun _ w => (Suspended, w)
  | S fuel' => r <- body ;
               match r with
               | Some a => ret a
               | None => loop fuel' body
               end
  end.

(** Every loop of the master passes a clock edge per iteration and
    samples in the read-only window first, so one more iteration than
    there are cycles left always reaches the end of the trace. *)
Definition while_True {A} (body : co (option A)) : co A := fun tr w =>
  loop (S (length tr - now w)) body tr w.

Definition _send_write_address (address : Z) (delay : Z) : co unit :=
  acquire write_address_busy ;;
  edges (Z.to_nat delay) ;;
  drive AWADDR address ;;
  drive AWVALID 1 ;;
  while_True (ReadOnly ;;
              r <- value AWREADY ;
              if truthy r then ret (Some tt)
              else RisingEdge ;; ret None) ;;
  RisingEdge ;;
  drive AWVALID 0 ;;
  release write_address_busy.

Definition _send_write_data (data : Z) (delay : Z) (byte_enable : Z) : co unit :=
  acquire write_data_busy ;;
  edges (Z.to_nat delay) ;;
  drive WDATA data ;;
  drive WVALID 1 ;;
  drive WSTRB byte_enable ;;
  while_True (ReadOnly ;;
              r <- value WREADY ;
              if truthy r then ret (Some tt)
              else RisingEdge ;; ret None) ;;
  RisingEdge ;;
  drive WVALID 0 ;;
  release write_data_busy.

(** [cocotb.fork]: the child runs over the same cycles as its parent.
    Children of one [write] assign disjoint signals and take different
    locks, so the child is run to its end from the parent's time, and
    the parent keeps its own time.  The handle is the child's outcome
    and the time at which it ended. *)
Definition fork {A} (c : co A) : co (outcome A * nat) := fun tr w =>
  let '(o, w') := c tr w in
  (Returned (o, now w'), set_now (now w) w').

(** [yield handle.join()] *)
Definition join {A} (h : outcome A * nat) : co A := fun _ w =>
  match h with
  | (Returned a, t) => (Returned a, set_now (Nat.max (now w) t) w)
  | (Raised e, t) => (Raised e, set_now (Nat.max (now w) t) w)
  | (Suspended, _) => (Suspended, w)
  end.

(** Lines 137-149 of [write]: the two forked channel phases. *)
Definition write_request (address value_ byte_enable address_latency
                          data_latency : Z) (sync : bool) : co unit :=
  (if sync then RisingEdge else ret tt) ;;
  c_addr <- fork (_send_write_address address address_latency) ;
  c_data <- fork (_send_write_data value_ data_latency byte_enable) ;
  join c_addr ;;
  join c_data.

(** Lines 152-157 of [write]: wait for the response. *)
Definition write_response : co Z :=
  while_True (ReadOnly ;;
              bvalid <- value BVALID ;
              bready <- value BREADY ;
              if truthy bvalid && truthy bready
              then result <- value BRESP ; ret (Some result)
              else RisingEdge ;; ret None).

Definition write (address value_ byte_enable address_latency data_latency : Z)
                 (sync : bool) : co Z :=
  write_request address value_ byte_enable address_latency data_latency sync ;;
  result <- write_response ;
  RisingEdge ;;
  if truthy result then raise (AXIProtocolError address result)
  else ret result.

(** Lines 183-196 of [read]: the address phase. *)
Definition read_request (address : Z) (sync : bool) : co unit :=
  (if sync then RisingEdge else ret tt) ;;
  drive ARADDR address ;;
  drive ARVALID 1 ;;
  while_True (ReadOnly ;;
              r <- value ARREADY ;
              if truthy r then ret (Some tt)
              else RisingEdge ;; ret None) ;;
  RisingEdge ;;
  drive ARVALID 0.

(** Lines 198-204 of [read]: wait for the data. *)
Definition read_response : co (Z * Z) :=
  while_True (ReadOnly ;;
              rvalid <- value RVALID ;
              rready <- value RREADY ;
              if truthy rvalid && truthy rready
              then data <- value RDATA ;
                   result <- value RRESP ;
                   ret (Some (data, result))
              else RisingEdge ;; ret None).

Definition read (address : Z) (sync : bool) : co Z :=
  read_request address sync ;;
  dr <- read_response ;
  let '(data, result) := dr in
  if truthy result then raise (AXIProtocolError address result)
  else ret data.

(** [__init__]: the defaults given with [setimmediatevalue] and the
    three free locks.  Signals not given a default read as 0 here. *)
Definition __init__ (widths : signal -> nat) : world :=
  World widths
        (fun s => match s with BREADY | RREADY => 1 | _ => 0 end)
        O
        [(O, RREADY, 1); (O, BREADY, 1); (O, ARVALID, 0); (O, WVALID, 0);
         (O, AWVALID, 0)]
        (fun _ => false).

(** [__len__], the method: Python integers are unbounded. *)
Definition __len__ (self : world) : Z := 2 ^ Z.of_nat (bits self ARADDR).

(** [sys.maxsize] of CPython on a 64-bit platform, the largest length
    an object can report. *)
Definition maxsize : Z := 2 ^ 63 - 1.

(** [len(self)], the length operation: the built-in calls [__len__]
    and raises [OverflowError] when the result does not fit an index. *)
Definition len (self : world) : outcome Z :=
  let n := __len__ self in
  if n <=? maxsize then Returned n else Raised OverflowError.

(** *** Notions used in the statements about the master *)

(** A logged assignment to a signal other than BREADY and RREADY. *)
Definition quiet (d : nat * signal * Z) : Prop :=
  d.1.2 <> BREADY /\ d.1.2 <> RREADY.

(** From [w] to [w'] the widths, BREADY and RREADY are as they were
    and every assignment logged in between is [quiet]. *)
Definition keeps_ready (w w' : world) : Prop :=
  bits w' = bits w /\
  out w' BREADY = out w BREADY /\
  out w' RREADY = out w RREADY /\
  exists l, drives w' = l ++ drives w /\ Forall quiet l.

(** A coroutine that leaves BREADY and RREADY alone on every run. *)
Definition frame {A} (c : co A) : Prop :=
  forall tr w, keeps_ready w (c tr w).2.

(** The first cycle from [t] on whose sample passes [f], with what [f]
    gave there. *)
Fixpoint find_first {A} (f : sample -> option A) (l : list sample) (t : nat)
  : option (A * nat) :=
  match l with
  | [] => None
  | smp :: l' =>
      match f smp with
      | Some a => Some (a, t)
      | None => find_first f l' (S t)
      end
  end.

(** A loop body that samples in the read-only window, leaves the loop
    with [a] when [f] gives [Some a], and passes a clock edge
    otherwise. *)
Definition polls {A} (body : co (option A)) (f : world -> sample -> option A)
  : Prop :=
  (forall w t, f (set_now t w) = f w) /\
  forall tr w,
    body tr w =
    match tr !! now w with
    | None => (Suspended, w)
    | Some smp =>
        match f w smp with
        | Some a => (Returned (Some a), w)
        | None => (Returned None, set_now (S (now w)) w)
        end
    end.

(** [k] is the first cycle from [t] on at which [p] holds. *)
Definition first_at (p : sample -> bool) (tr : trace) (t k : nat) : Prop :=
  (t <= k)%nat /\
  (exists smp, tr !! k = Some smp /\ p smp = true) /\
  forall j smp, (t <= j < k)%nat -> tr !! j = Some smp -> p smp = false.

(** A coroutine that never ends with an exception. *)
Definition calm {A} (c : co A) : Prop :=
  forall tr w e, (c tr w).1 <> Raised e.

(** The master objects a test can hold: a fresh one, or one on which
    [write] or [read] has run. *)
Inductive reachable : world -> Prop :=
| reach_init widths : reachable (__init__ widths)
| reach_write w a v be al dl sync tr :
    reachable w -> reachable (write a v be al dl sync tr w).2
| reach_read w a sync tr :
    reachable w -> reachable (read a sync tr w).2.

(** What [write] and [read] do with the sampled response. *)
Definition write_result (address code : Z) : outcome Z :=
  if code =? 0 then Returned code else Raised (AXIProtocolError address code).
Definition read_result (address data code : Z) : outcome Z :=
  if code =? 0 then Returned data else Raised (AXIProtocolError address code).

(** Sample traces: a peer that drives nothing, and a sample with
    some signals set. *)
Definition idle : sample := fun _ => 0.
Definition samp (l : list (signal * Z)) : sample := fun sig =>
  match list_find (fun p => bool_decide (p.1 = sig)) l with
  | Some (_, (_, v)) => v
  | None => 0
  end.

(** The peer takes address and data in cycle 1 and answers in cycle 3. *)
Definition trace_bresp (code : Z) : trace :=
  [idle; samp [(AWREADY, 1); (WREADY, 1)]; idle;
   samp [(BVALID, 1); (BRESP, code)]; idle].
Definition trace_rresp (data code : Z) : trace :=
  [idle; samp [(ARREADY, 1)]; idle;
   samp [(RVALID, 1); (RDATA, data); (RRESP, code)]; idle].

(** What the master samples when a response handshake is there. *)
Definition bresp_sampled (w : world) (smp : sample) : option Z :=
  if truthy (smp BVALID) && truthy (out w BREADY) then Some (smp BRESP)
  else None.
Definition rdata_sampled (w : world) (smp : sample) : option (Z * Z) :=
  if truthy (smp RVALID) && truthy (out w RREADY)
  then Some (smp RDATA, smp RRESP) else None.

(** *** Notions used in the statements about the channel phases *)

(** What the loop of a channel phase looks for: the peer's ready. *)
Definition ready_test (rdy : signal) (w : world) (smp : sample) : option unit :=
  if truthy (smp rdy) then Some tt else None.

(** The master after [self.bus.<sig> <= v]. *)
Definition assigned (sig : signal) (v : Z) (w : world) : world :=
  World (bits w) (fun s => if decide (s = sig) then v else out w s) (now w)
        ((now w, sig, v) :: drives w) (locked w).

(** The master at the end of a channel phase that took its lock at
    [w], asserted [valid] with its payload at time [t] and saw the
    ready in cycle [k]. *)
Definition phase_end (l : lock) (payload : list (signal * Z)) (valid : signal)
    (t k : nat) (w : world) : world :=
  set_locked l false
    (assigned valid 0
       (set_now (S k)
          (foldl (fun w p => assigned p.1 p.2 w)
                 (set_now t (set_locked l true w))
                 payload))).

End AXI4LiteMaster.

(** ** AXI4 slave with bursts *)
Module AXI4Slave.

(** The signals the slave samples, one record per clock cycle. *)
Record sample : Type := Sample {
  ARVALID : Z; ARADDR : Z; ARLEN : Z; ARSIZE : Z; ARBURST : Z; ARPROT : Z;
  RREADY : Z;
  AWVALID : Z; AWADDR : Z; AWLEN : Z; AWSIZE : Z; AWBURST : Z; AWPROT : Z;
  WVALID : Z; WDATA : Z
}.

Inductive driven : Type := ARREADY | RVALID | RDATA | RLAST | AWREADY | WREADY.

(** What a task does to the outside in one cycle: signal assignments
    and accesses to the memory image, by byte range [[st, en)]. *)
Inductive event : Type :=
| Drive (sig : driven) (v : Z)
| DriveWord (sig : driven) (buff : list byte)
| Load (st en : Z)
| Store (st en : Z).

(** The local variables of a task inside a burst. *)
Record burst : Type := Burst {
  addr : Z;
  burst_length : Z;
  bytes_in_beat : Z;
  burst_count : Z
}.

(** Suspension points of [_write_data]: the [yield clock_re] of line 280
    (also the start of the task), and those of lines 305 and 318, from
    which the task resumes at the head of the beat loop. *)
Inductive write_pc : Type :=
| W_address
| W_beat (b : burst).

(** Suspension points of [_read_data]: line 329 (and the start), line
    354 before the first beat, and line 367 inside the beat loop. *)
Inductive read_pc : Type :=
| R_address
| R_first (b : burst)
| R_beat (b : burst).

Record slave : Type := Slave {
  big_endian : bool;
  _memory : list byte;
  write_task : task write_pc;
  read_task : task read_pc;
  cycle : nat;
  log : list (nat * event)
}.

Definition set_memory (m : list byte) (s : slave) : slave :=
  Slave (big_endian s) m (write_task s) (read_task s) (cycle s) (log s).
Definition set_write_task (t : task write_pc) (s : slave) : slave :=
  Slave (big_endian s) (_memory s) t (read_task s) (cycle s) (log s).
Definition set_read_task (t : task read_pc) (s : slave) : slave :=
  Slave (big_endian s) (_memory s) (write_task s) t (cycle s) (log s).
Definition emit (e : event) (s : slave) : slave :=
  Slave (big_endian s) (_memory s) (write_task s) (read_task s) (cycle s)
        ((cycle s, e) :: log s).
Definition tick (s : slave) : slave :=
  Slave (big_endian s) (_memory s) (write_task s) (read_task s)
        (S (cycle s)) (log s).

Definition _size_to_bytes_in_beat (AxSIZE : Z) : option Z :=
  if AxSIZE <? 7 then Some (2 ^ AxSIZE) else None.

(** Lines 283-292 and 332-341: the latched request and the geometry of
    its burst.  [bytes_in_beat*8] is a [TypeError] when the size gave
    [None]. *)
Definition latch (axaddr axlen axsize : Z) : exn + burst :=
  let burst_length := axlen + 1 in
  match _size_to_bytes_in_beat axsize with
  | Some bytes_in_beat =>
      inr (Burst axaddr burst_length bytes_in_beat burst_length)
  | None => inl TypeError
  end.

Definition beat_start (b : burst) : Z :=
  addr b + (burst_length b - burst_count b) * bytes_in_beat b.
Definition beat_end (b : burst) : Z :=
  addr b + (burst_length b - burst_count b + 1) * bytes_in_beat b.
Definition count_down (b : burst) : burst :=
  Burst (addr b) (burst_length b) (bytes_in_beat b) (burst_count b - 1).

Section Tasks.

(** [BinaryValue.get_buff] belongs to [cocotb.binary]: the bytes of a
    sampled value, in the order its [big_endian] flag asks for. *)
Variable get_buff : bool -> Z -> list byte.

(** Lines 274-305 of [_write_data], up to the next clock edge. *)
Definition write_address (x : sample) (s : slave) : slave :=
  let s := emit (Drive WREADY 0) s in
  if truthy (AWVALID x) then
    let s := emit (Drive WREADY 1) s in
    match latch (AWADDR x) (AWLEN x) (AWSIZE x) with
    | inr b => set_write_task (Waiting (W_beat b)) s
    | inl e => set_write_task (Crashed e) s
    end
  else set_write_task (Waiting W_address) s.

(** Lines 307-318: one pass of the beat loop; after the last beat the
    task is back at line 274 within the same cycle. *)
Definition write_beat (b : burst) (x : sample) (s : slave) : slave :=
  if truthy (WVALID x) then
    let word := get_buff (big_endian s) (WDATA x) in
    let _st := beat_start b in
    let _end := beat_end b in
    let s := emit (Store _st _end)
                  (set_memory (slice_assign (_memory s) _st _end word) s) in
    let b := count_down b in
    if burst_count b =? 0 then write_address x s
    else set_write_task (Waiting (W_beat b)) s
  else set_write_task (Waiting (W_beat b)) s.

(** [_write_data] from one clock edge to the next. *)
Definition _write_data (x : sample) (s : slave) : slave :=
  match write_task s with
  | Waiting W_address => write_address x s
  | Waiting (W_beat b) => write_beat b x s
  | Crashed _ => s
  end.

(** Lines 325-354 of [_read_data], up to the next clock edge. *)
Definition read_address (x : sample) (s : slave) : slave :=
  if truthy (ARVALID x) then
    match latch (ARADDR x) (ARLEN x) (ARSIZE x) with
    | inr b => set_read_task (Waiting (R_first b)) s
    | inl e => set_read_task (Crashed e) s
    end
  else set_read_task (Waiting R_address) s.

(** Lines 357-367: one beat, up to the clock edge of line 367. *)
Definition read_beat (b : burst) (x : sample) (s : slave) : slave :=
  let s := emit (Drive RVALID 1) s in
  let s :=
    if truthy (RREADY x) then
      let _st := beat_start b in
      let _end := beat_end b in
      let s := emit (Load _st _end) s in
      let s := emit (DriveWord RDATA (slice (_memory s) _st _end)) s in
      if burst_count b =? 1 then emit (Drive RLAST 1) s else s
    else s in
  set_read_task (Waiting (R_beat b)) s.

(** Lines 368-371 after the edge, then whatever comes next in the same
    cycle: another beat, or the wait for the next address. *)
Definition read_next (b : burst) (x : sample) (s : slave) : slave :=
  let b := count_down b in
  let s := emit (Drive RLAST 0) s in
  if burst_count b =? 0 then read_address x s
  else read_beat b x s.

(** [_read_data] from one clock edge to the next. *)
Definition _read_data (x : sample) (s : slave) : slave :=
  match read_task s with
  | Waiting R_address => read_address x s
  | Waiting (R_first b) => read_beat b x s
  | Waiting (R_beat b) => read_next b x s
  | Crashed _ => s
  end.

(** One clock cycle of the slave.  The write task stores right after
    the edge and the read task loads in the read-only window, so the
    store comes first.  An exception that leaves a task is caught
    nowhere in the module and the simulation ends with it: [Crashed]
    records the task that raised, and the cycles of the other task
    after that are no behaviour of the program (see [alive]). *)
Definition step (s : slave) (x : sample) : slave :=
  tick (_read_data x (_write_data x s)).

Definition run (s : slave) (xs : list sample) : slave := foldl step s xs.

(** The read task alone, and the write task alone. *)
Definition run_read (s : slave) (xs : list sample) : slave :=
  foldl (fun s x => tick (_read_data x s)) s xs.
Definition run_write (s : slave) (xs : list sample) : slave :=
  foldl (fun s x => tick (_write_data x s)) s xs.

End Tasks.

(** [__init__]: the defaults, the memory, and the two forked tasks,
    each waiting for its first address. *)
Definition __init__ (memory : list byte) (big_endian : bool) : slave :=
  Slave big_endian memory (Waiting W_address) (Waiting R_address) O
        [(O, Drive AWREADY 1); (O, Drive RLAST 0); (O, Drive RVALID 0);
         (O, Drive ARREADY 1)].

(** The byte ranges a run has touched, oldest first. *)
Definition ranges (kind : event -> option (Z * Z)) (s : slave) : list (Z * Z) :=
  omap (fun ce => kind ce.2) (rev (log s)).
Definition is_load (e : event) : option (Z * Z) :=
  match e with Load st en => Some (st, en) | _ => None end.
Definition is_store (e : event) : option (Z * Z) :=
  match e with Store st en => Some (st, en) | _ => None end.

(** The cycles in which a run assigned 1 to RLAST, oldest first. *)
Definition rlast_cycles (s : slave) : list nat :=
  omap (fun ce => match ce.2 with
                  | Drive RLAST 1 => Some ce.1
                  | _ => None
                  end) (rev (log s)).

(** *** Sample runs used in the statements about the slave *)
(** Sample cycles: nothing valid, a read address, a ready master, a
    write address, a valid data word. *)
Definition idle : sample := Sample 0 0 0 0 0 0 0 0 0 0 0 0 0 0 0.
Definition read_address_cycle (a len size : Z) : sample :=
  Sample 1 a len size 1 0 0 0 0 0 0 0 0 0 0.
Definition ready_cycle : sample := Sample 0 0 0 0 0 0 1 0 0 0 0 0 0 0 0.
Definition write_address_cycle (a len size : Z) : sample :=
  Sample 0 0 0 0 0 0 0 1 a len size 1 0 0 0.
Definition data_cycle (v : Z) : sample := Sample 0 0 0 0 0 0 0 0 0 0 0 0 0 1 v.

(** The ranges of the eight beats of four bytes from 0x1000. *)
Definition eight_beats : list (Z * Z) :=
  [(4096, 4100); (4100, 4104); (4104, 4108); (4108, 4112);
   (4112, 4116); (4116, 4120); (4120, 4124); (4124, 4128)].

(** The master is ready in every cycle of the burst. *)
Definition read_burst_ready : list sample :=
  read_address_cycle 4096 7 2 :: repeat ready_cycle 8 ++ [idle].
(** The master is not ready in the last cycle of the burst. *)
Definition read_burst_stalled : list sample :=
  read_address_cycle 4096 7 2 :: repeat ready_cycle 7 ++ [idle; ready_cycle; idle].
(** Data is valid in every other cycle only. *)
Definition write_burst_slow : list sample :=
  write_address_cycle 4096 7 2
  :: concat (repeat [idle; data_cycle 5] 8) ++ [idle].

(** The ranges of the beats a read burst serves: a cycle uses up a
    beat whether the master is ready or not. *)
Fixpoint served (b : burst) (xs : list sample) : list (Z * Z) :=
  match xs with
  | [] => []
  | x :: xs' =>
      (if truthy (RREADY x) then [(beat_start b, beat_end b)] else [])
      ++ served (count_down b) xs'
  end.

(** The ranges of the next [n] beats of a burst. *)
Fixpoint beat_ranges (b : burst) (n : nat) : list (Z * Z) :=
  match n with
  | O => []
  | S n' => (beat_start b, beat_end b) :: beat_ranges (count_down b) n'
  end.

(** The read task is about to serve the beat that [b] stands at. *)
Definition at_beat (s : slave) (b : burst) : Prop :=
  read_task s = Waiting (R_first b) \/
  exists b0, read_task s = Waiting (R_beat b0) /\ count_down b0 = b /\
             burst_count b <> 0.

(** The number of cycles with valid write data. *)
Fixpoint valid_cycles (xs : list sample) : nat :=
  match xs with
  | [] => O
  | x :: xs' => ((if truthy (WVALID x) then 1 else 0) + valid_cycles xs')%nat
  end.

(** *** Notions used in the statements about whole runs *)

(** What a run shows of one kind of event, oldest first. *)
Definition seen {A} (f : nat * event -> option A) (s : slave) : list A :=
  omap f (rev (log s)).

(** The buffers a run has assigned to RDATA (line 364), oldest first. *)
Definition rdata_words (s : slave) : list (list byte) :=
  seen (fun ce => match ce.2 with
                  | DriveWord RDATA buff => Some buff
                  | _ => None
                  end) s.

(** The events of the lines of [_write_data], and of [_read_data]. *)
Definition of_write_task (e : event) : bool :=
  match e with
  | Drive WREADY _ | Store _ _ => true
  | _ => false
  end.
Definition of_read_task (e : event) : bool :=
  match e with
  | Drive RVALID _ | Drive RLAST _ | DriveWord RDATA _ | Load _ _ => true
  | _ => false
  end.

(** A view of the log that shows nothing of one task. *)
Definition write_blind {A} (f : nat * event -> option A) : Prop :=
  forall c e, of_write_task e = true -> f (c, e) = None.
Definition read_blind {A} (f : nat * event -> option A) : Prop :=
  forall c e, of_read_task e = true -> f (c, e) = None.

(** The buffers of the cycles with valid write data (line 314). *)
Fixpoint valid_words (get_buff : bool -> Z -> list byte) (be : bool)
    (xs : list sample) : list (list byte) :=
  match xs with
  | [] => []
  | x :: xs' =>
      (if truthy (WVALID x) then [get_buff be (WDATA x)] else [])
      ++ valid_words get_buff be xs'
  end.

(** Two slaves that the read task cannot tell apart, up to what [f]
    shows of the log; and the same for the write task. *)
Definition same_reads {A} (f : nat * event -> option A) (s s' : slave) : Prop :=
  read_task s = read_task s' /\ cycle s = cycle s' /\ seen f s = seen f s'.
Definition same_writes {A} (f : nat * event -> option A) (s s' : slave) : Prop :=
  write_task s = write_task s' /\ _memory s = _memory s' /\
  big_endian s = big_endian s' /\ cycle s = cycle s' /\ seen f s = seen f s'.

(** The read task is where no sample of [xs] can move it: ended by an
    exception, or waiting while no address is valid. *)
Definition read_quiet (s : slave) (xs : list sample) : Prop :=
  (exists e, read_task s = Crashed e) \/
  (read_task s = Waiting R_address /\
   Forall (fun x => truthy (ARVALID x) = false) xs).
Definition write_quiet (s : slave) (xs : list sample) : Prop :=
  (exists e, write_task s = Crashed e) \/
  (write_task s = Waiting W_address /\
   Forall (fun x => truthy (AWVALID x) = false) xs).

(** The task has not been ended by an exception. *)
Definition running {pc} (t : task pc) : Prop :=
  match t with
  | Waiting _ => True
  | Crashed _ => False
  end.

(** No task of the slave has raised: the simulation is still going.
    Statements about what the two tasks do side by side are about
    runs that stay [alive]. *)
Definition alive (s : slave) : Prop :=
  running (write_task s) /\ running (read_task s).

(** A request of a size the slave can serve: from 7 on
    [_size_to_bytes_in_beat] gives [None] and the task raises. *)
Definition read_size_ok (x : sample) : Prop :=
  truthy (ARVALID x) = true -> ARSIZE x < 7.
Definition write_size_ok (x : sample) : Prop :=
  truthy (AWVALID x) = true -> AWSIZE x < 7.

#[global] Instance burst_driven_eq_dec : EqDecision driven.
Proof. solve_decision. Defined.

(** The values a run has assigned to one signal, oldest first. *)
Definition assigned_to (sig : driven) (s : slave) : list Z :=
  seen (fun ce => match ce.2 with
                  | Drive g v => if decide (g = sig) then Some v else None
                  | _ => None
                  end) s.

End AXI4Slave.

(** ** AXI4-Lite slave *)
Module AXI4LiteSlave.

(** The signals the slave samples at a clock edge.  [WSTRB] is kept as
    [str(self.bus.WSTRB.value)], the binary string of the strobe, most
    significant bit first. *)
Record sample : Type := Sample {
  AWVALID : Z; AWADDR : Z; AWPROT : Z;
  WVALID : Z; WDATA : Z; WSTRB : string;
  BREADY : Z;
  ARVALID : Z; ARADDR : Z; ARPROT : Z;
  RREADY : Z
}.

Inductive driven : Type :=
| AWREADY | WREADY | BVALID | BRESP | ARREADY | RVALID | RRESP | RDATA.

#[global] Instance driven_eq_dec : EqDecision driven.
Proof. solve_decision. Defined.

(** Suspension points of [_write_address]: lines 442, 450 and 456. *)
Inductive address_pc : Type := A_idle | A_latched | A_hold.

(** Suspension points of [_write_data]: lines 467, 477, 482 and 500,
    the last three with the captured [_wdata] and [_wstrb]. *)
Inductive data_pc : Type :=
| D_idle
| D_captured (_wdata : Z) (_wstrb : string)
| D_need_address (_wdata : Z) (_wstrb : string)
| D_response (_wdata : Z) (_wstrb : string).

(** Suspension points of [_read_data]: lines 524 and 543. *)
Inductive read_pc : Type := R_idle | R_response.

(** The slave object.  Every object that [__init__] returns has
    [_sync] set, so the field is left out and every [if self._sync:
    yield RisingEdge(self.clock)] is a suspension point.  [_araddr] is
    left out too: the attribute is set to [None] in [__init__] and
    never used, the read task keeps the address in a local variable. *)
Record slave : Type := Slave {
  big_endian : bool;
  memory : list byte;
  data_width : Z;
  bytes_per_beat : Z;
  bresp : Z;
  rresp : Z;
  _awaddr : option Z;
  _awprot : option Z;
  bus : driven -> Z;
  write_address_task : task address_pc;
  write_data_task : task data_pc;
  read_data_task : task read_pc
}.

Definition set_memory (m : list byte) (s : slave) : slave :=
  Slave (big_endian s) m (data_width s) (bytes_per_beat s) (bresp s) (rresp s)
        (_awaddr s) (_awprot s) (bus s)
        (write_address_task s) (write_data_task s) (read_data_task s).
Definition set_bresp (v : Z) (s : slave) : slave :=
  Slave (big_endian s) (memory s) (data_width s) (bytes_per_beat s) v (rresp s)
        (_awaddr s) (_awprot s) (bus s)
        (write_address_task s) (write_data_task s) (read_data_task s).
Definition set_rresp (v : Z) (s : slave) : slave :=
  Slave (big_endian s) (memory s) (data_width s) (bytes_per_beat s) (bresp s) v
        (_awaddr s) (_awprot s) (bus s)
        (write_address_task s) (write_data_task s) (read_data_task s).
Definition set_aw (a p : option Z) (s : slave) : slave :=
  Slave (big_endian s) (memory s) (data_width s) (bytes_per_beat s) (bresp s)
        (rresp s) a p (bus s)
        (write_address_task s) (write_data_task s) (read_data_task s).
Definition drive (sig : driven) (v : Z) (s : slave) : slave :=
  Slave (big_endian s) (memory s) (data_width s) (bytes_per_beat s) (bresp s)
        (rresp s) (_awaddr s) (_awprot s)
        (fun g => if decide (g = sig) then v else bus s g)
        (write_address_task s) (write_data_task s) (read_data_task s).
Definition set_write_address_task (t : task address_pc) (s : slave) : slave :=
  Slave (big_endian s) (memory s) (data_width s) (bytes_per_beat s) (bresp s)
        (rresp s) (_awaddr s) (_awprot s) (bus s)
        t (write_data_task s) (read_data_task s).
Definition set_write_data_task (t : task data_pc) (s : slave) : slave :=
  Slave (big_endian s) (memory s) (data_width s) (bytes_per_beat s) (bresp s)
        (rresp s) (_awaddr s) (_awprot s) (bus s)
        (write_address_task s) t (read_data_task s).
Definition set_read_data_task (t : task read_pc) (s : slave) : slave :=
  Slave (big_endian s) (memory s) (data_width s) (bytes_per_beat s) (bresp s)
        (rresp s) (_awaddr s) (_awprot s) (bus s)
        (write_address_task s) (write_data_task s) t.

(** [__init__].  The width check comes before the tasks are forked.
    Without [sync] the first forked task never reaches a [yield], so
    the constructor does not return. *)
Definition __init__ (width : Z) (memory : list byte) (big_endian sync : bool)
  : outcome slave :=
  let data_width := width in
  let bytes_per_beat := data_width / 8 in
  if negb ((data_width =? 32) || (data_width =? 64)) then Raised ValueError
  else if negb sync then Suspended
  else Returned
    (Slave big_endian memory data_width bytes_per_beat 0 0 None None
           (fun g => match g with
                     | AWREADY | WREADY | ARREADY => 1
                     | _ => 0
                     end)
           (Waiting A_idle) (Waiting D_idle) (Waiting R_idle)).

(** [bresp in range(0,4)] *)
Definition in_range_0_4 (v : Z) : bool := (0 <=? v) && (v <? 4).

(** The two setters give the exception, if any, and the object as the
    call leaves it. *)
Definition setWrResponse (bresp : Z) (self : slave) : option exn * slave :=
  if negb (in_range_0_4 bresp) then (Some ValueError, self)
  else (None, set_bresp bresp self).

Definition setRdResponse (rresp : Z) (self : slave) : option exn * slave :=
  if negb (in_range_0_4 rresp) then (Some ValueError, self)
  else (None, set_rresp rresp self).

(** [_write_address] from one clock edge to the next. *)
Definition _write_address (x : sample) (s : slave) : slave :=
  match write_address_task s with
  | Waiting A_idle =>
      if truthy (AWVALID x) then
        let s := drive AWREADY 0 s in
        let s := set_aw (Some (AWADDR x)) (Some (AWPROT x)) s in
        set_write_address_task (Waiting A_latched) s
      else
        set_write_address_task (Waiting A_idle) (drive AWREADY 1 s)
  | Waiting A_latched | Waiting A_hold =>
      (* while self._awaddr: *)
      if bool_opt (_awaddr s) then set_write_address_task (Waiting A_hold) s
      else set_write_address_task (Waiting A_idle) (drive AWREADY 1 s)
  | Crashed _ => s
  end.

(** Size in bytes of the format ['I' if self.bytes_per_beat == 4 else 'Q']. *)
Definition pack_size (s : slave) : nat :=
  if bytes_per_beat s =? 4 then 4%nat else 8%nat.

(** Lines 491-493: the loop over the packed bytes.  An exception leaves
    the bytes stored before it in place. *)
Fixpoint write_bytes (_wstrb : string) (awaddr : Z) (idx : nat)
         (_data : list byte) (mem : list byte) : option exn * list byte :=
  match _data with
  | [] => (None, mem)
  | value_ :: rest =>
      match str_getitem _wstrb idx with
      | None => (Some IndexError, mem)
      | Some c =>
          if bool_str c then
            match setitem mem (awaddr + Z.of_nat idx) value_ with
            | Some mem' => write_bytes _wstrb awaddr (S idx) rest mem'
            | None => (Some IndexError, mem)
            end
          else write_bytes _wstrb awaddr (S idx) rest mem
      end
  end.

(** Lines 488-497 as they run once the name [struct] has been found:
    the write into memory and the response. *)
Definition pack_and_respond (awaddr _wdata : Z) (_wstrb : string) (s : slave)
  : slave :=
  match struct_pack (big_endian s) (pack_size s) _wdata with
  | None => set_write_data_task (Crashed StructError) s
  | Some _data =>
      match write_bytes _wstrb awaddr 0 _data (memory s) with
      | (Some e, mem) => set_write_data_task (Crashed e) (set_memory mem s)
      | (None, mem) =>
          let s := set_memory mem s in
          let s := drive BRESP (bresp s) s in
          let s := drive BVALID 1 s in
          set_write_data_task (Waiting (D_response _wdata _wstrb)) s
      end
  end.

(** Lines 484-497.  The lookup of the global [struct] at line 488 comes
    before anything is written. *)
Definition complete_write (awaddr _wdata : Z) (_wstrb : string) (s : slave)
  : slave :=
  if bound "struct" then pack_and_respond awaddr _wdata _wstrb s
  else set_write_data_task (Crashed NameError) s.

(** [_write_data] from one clock edge to the next.  The debug log of
    lines 504-511 is not modelled. *)
Definition _write_data (x : sample) (s : slave) : slave :=
  match write_data_task s with
  | Waiting D_idle =>
      if truthy (WVALID x) then
        let s := drive WREADY 0 s in
        set_write_data_task (Waiting (D_captured (WDATA x) (WSTRB x))) s
      else
        set_write_data_task (Waiting D_idle) (drive WREADY 1 s)
  | Waiting (D_captured _wdata _wstrb)
  | Waiting (D_need_address _wdata _wstrb) =>
      (* while (self._awaddr == None): *)
      match _awaddr s with
      | None => set_write_data_task (Waiting (D_need_address _wdata _wstrb)) s
      | Some awaddr => complete_write awaddr _wdata _wstrb s
      end
  | Waiting (D_response _wdata _wstrb) =>
      if truthy (BREADY x) then
        let s := drive BVALID 0 s in
        let s := set_aw None None s in
        set_write_data_task (Waiting D_idle) (drive WREADY 1 s)
      else
        set_write_data_task (Waiting (D_response _wdata _wstrb)) s
  | Crashed _ => s
  end.

(** Lines 535-539 as they run once the name [struct] has been found. *)
Definition unpack_and_respond (_araddr : Z) (s : slave) : slave :=
  match struct_unpack (big_endian s) (pack_size s)
          (slice (memory s) _araddr (_araddr + bytes_per_beat s)) with
  | None => set_read_data_task (Crashed StructError) s
  | Some _data =>
      let s := drive RDATA _data s in
      let s := drive RRESP (rresp s) s in
      let s := drive RVALID 1 s in
      set_read_data_task (Waiting R_response) s
  end.

(** [_read_data] from one clock edge to the next.  The debug log of
    lines 547-553 is not modelled.  An assignment [sig <= v] reaches
    the signal when the task next yields.  Line 535 raises before any
    [yield], so the assignment of line 527 is lost with the task and
    ARREADY stays as it was. *)
Definition _read_data (x : sample) (s : slave) : slave :=
  match read_data_task s with
  | Waiting R_idle =>
      if truthy (ARVALID x) then
        let _araddr := ARADDR x in
        if bound "struct" then unpack_and_respond _araddr (drive ARREADY 0 s)
        else set_read_data_task (Crashed NameError) s
      else
        set_read_data_task (Waiting R_idle) (drive ARREADY 1 s)
  | Waiting R_response =>
      if truthy (RREADY x) then
        set_read_data_task (Waiting R_idle) (drive ARREADY 1 s)
      else
        set_read_data_task (Waiting R_response) s
  | Crashed _ => s
  end.

(** One clock edge: the three tasks resume in the order in which
    [__init__] forked them.  They share the latch [_awaddr] and the
    memory, which are passed from one to the next. *)
Definition step (s : slave) (x : sample) : slave :=
  _read_data x (_write_data x (_write_address x s)).

Definition run (s : slave) (xs : list sample) : slave := foldl step s xs.

(** The states a run goes through, one after each clock edge. *)
Fixpoint states (s : slave) (xs : list sample) : list slave :=
  match xs with
  | [] => []
  | x :: xs' => step s x :: states (step s x) xs'
  end.

(** *** Sample runs and notions used in the statements about the slave *)
(** Sample edges: a master that is ready for responses and asks
    nothing, a write address, a data word with its strobe, a read
    address. *)
Definition idle : sample := Sample 0 0 0 0 0 "0000" 1 0 0 0 1.
Definition address_edge (a : Z) : sample := Sample 1 a 0 0 0 "0000" 1 0 0 0 1.
Definition data_edge (v : Z) (strb : string) : sample :=
  Sample 0 0 0 1 v strb 1 0 0 0 1.
Definition read_edge (a : Z) : sample := Sample 0 0 0 0 0 "0000" 1 1 a 0 1.

(** Eight bytes of memory, the word W = 0x44332211 at address 0 and at
    address 4 the word 0x88776655. *)
Definition image : list byte := [x11; x22; x33; x44; x55; x66; x77; x88].

(** What is seen of a slave in the checks below. *)
Definition view (s : slave) :=
  (_awaddr s, bus s AWREADY, bus s BVALID, write_data_task s).

(** The response channel never shows a response. *)
Definition silent (s : slave) : Prop :=
  bus s BVALID = 0 /\
  match write_data_task s with
  | Waiting (D_response _ _) => False
  | _ => True
  end.

(** The master's view of the slave's outputs when the two are wired
    to each other. *)
Definition wire (s : slave) : AXI4LiteMaster.sample := fun sig =>
  match sig with
  | AXI4LiteMaster.AWREADY => bus s AWREADY
  | AXI4LiteMaster.WREADY => bus s WREADY
  | AXI4LiteMaster.BVALID => bus s BVALID
  | AXI4LiteMaster.BRESP => bus s BRESP
  | AXI4LiteMaster.ARREADY => bus s ARREADY
  | AXI4LiteMaster.RVALID => bus s RVALID
  | AXI4LiteMaster.RRESP => bus s RRESP
  | AXI4LiteMaster.RDATA => bus s RDATA
  | _ => 0
  end.

(** The response codes of the protocol. *)
Definition valid_code (code : Z) : Prop :=
  code = 0 \/ code = 1 \/ code = 2 \/ code = 3.

(** *** Notions used in the statements about the channels *)

(** The read response channel shows no response. *)
Definition read_silent (s : slave) : Prop :=
  bus s RVALID = 0 /\
  match read_data_task s with
  | Waiting R_response => False
  | _ => True
  end.



End AXI4LiteSlave.

(** * Properties *)

(** ** The master *)
Module MasterFacts.
Import AXI4LiteMaster.
Open Scope co_scope.

Lemma keeps_ready_refl w : keeps_ready w w.
Proof. repeat split; exists []; split; [reflexivity | constructor]. Qed.

Lemma keeps_ready_trans w1 w2 w3 :
  keeps_ready w1 w2 -> keeps_ready w2 w3 -> keeps_ready w1 w3.
Proof.
  intros (Hb1 & Hr1 & Hq1 & l1 & Hl1 & Hf1) (Hb2 & Hr2 & Hq2 & l2 & Hl2 & Hf2).
  repeat split; try congruence.
  exists (l2 ++ l1). split.
  - rewrite Hl2, Hl1. by rewrite app_assoc.
  - by apply Forall_app.
Qed.

Lemma keeps_ready_now w t : keeps_ready w (set_now t w).
Proof. repeat split; exists []; split; [reflexivity | constructor]. Qed.

Lemma keeps_ready_locked w l b : keeps_ready w (set_locked l b w).
Proof. repeat split; exists []; split; [reflexivity | constructor]. Qed.

Lemma frame_ret {A} (a : A) : frame (ret a).
Proof. intros tr w. apply keeps_ready_refl. Qed.

Lemma frame_raise {A} e : frame (@raise A e).
Proof. intros tr w. apply keeps_ready_refl. Qed.

Lemma frame_bind {A B} (c : co A) (k : A -> co B) :
  frame c -> (forall a, frame (k a)) -> frame (bind c k).
Proof.
  intros Hc Hk tr w. unfold bind.
  specialize (Hc tr w). destruct (c tr w) as [[a|e|] w']; simpl in *; auto.
  eapply keeps_ready_trans; [exact Hc | apply Hk].
Qed.

Lemma frame_RisingEdge : frame RisingEdge.
Proof. intros tr w. apply keeps_ready_now. Qed.

Lemma frame_ReadOnly : frame ReadOnly.
Proof. intros tr w. unfold ReadOnly. destruct (tr !! now w); apply keeps_ready_refl. Qed.

Lemma frame_value sig : frame (value sig).
Proof.
  intros tr w. unfold value.
  destruct (driven_by_master sig); [apply keeps_ready_refl|].
  destruct (tr !! now w); apply keeps_ready_refl.
Qed.

Lemma frame_drive sig v : sig <> BREADY -> sig <> RREADY -> frame (drive sig v).
Proof.
  intros H1 H2 tr w. unfold drive; simpl. repeat split; simpl.
  - destruct (decide (BREADY = sig)); congruence.
  - destruct (decide (RREADY = sig)); congruence.
  - exists [(now w, sig, v)]. split; [reflexivity|].
    constructor; [split; assumption | constructor].
Qed.

Lemma frame_acquire l : frame (acquire l).
Proof.
  intros tr w. unfold acquire.
  destruct (locked w l); [apply keeps_ready_refl | apply keeps_ready_locked].
Qed.

Lemma frame_release l : frame (release l).
Proof. intros tr w. apply keeps_ready_locked. Qed.

Lemma frame_edges n : frame (edges n).
Proof.
  induction n; simpl; [apply frame_ret|].
  apply frame_bind; [apply frame_RisingEdge | auto].
Qed.

Lemma frame_loop {A} fuel (body : co (option A)) : frame body -> frame (loop fuel body).
Proof.
  intros Hb. induction fuel; simpl.
  - intros tr w. apply keeps_ready_refl.
  - apply frame_bind; [assumption|]. intros [a|]; [apply frame_ret | assumption].
Qed.

Lemma frame_while_True {A} (body : co (option A)) : frame body -> frame (while_True body).
Proof. intros Hb tr w. unfold while_True. by apply frame_loop. Qed.

Lemma frame_fork {A} (c : co A) : frame c -> frame (fork c).
Proof.
  intros Hc tr w. unfold fork. specialize (Hc tr w).
  destruct (c tr w) as [o w']; simpl in *.
  eapply keeps_ready_trans; [exact Hc | apply keeps_ready_now].
Qed.

Lemma frame_join {A} (h : outcome A * nat) : frame (join h).
Proof.
  intros tr w. destruct h as [[a|e|] t]; simpl;
    first [apply keeps_ready_now | apply keeps_ready_refl].
Qed.

Lemma frame_if {A} (b : bool) (c1 c2 : co A) : frame c1 -> frame c2 -> frame (if b then c1 else c2).
Proof. by destruct b. Qed.

Create HintDb frame.
#[local] Hint Resolve frame_ret frame_raise frame_RisingEdge frame_ReadOnly
  frame_value frame_acquire frame_release frame_edges frame_join
  frame_fork frame_while_True frame_if : frame.

Ltac frame_step :=
  first [ apply frame_bind; [| intros ?]
        | apply frame_drive; discriminate
        | apply frame_if
        | apply frame_while_True
        | apply frame_fork
        | match goal with |- frame (let '(_, _) := ?p in _) => destruct p end
        | solve [auto with frame] ].

Lemma frame_send_write_address a d : frame (_send_write_address a d).
Proof. unfold _send_write_address. repeat frame_step. Qed.

Lemma frame_send_write_data a d b : frame (_send_write_data a d b).
Proof. unfold _send_write_data. repeat frame_step. Qed.

Lemma frame_write a v be al dl sync : frame (write a v be al dl sync).
Proof.
  unfold write, write_request, write_response.
  repeat frame_step; auto using frame_send_write_address, frame_send_write_data.
Qed.

Lemma frame_read a sync : frame (read a sync).
Proof. unfold read, read_request, read_response. repeat frame_step. Qed.

Lemma set_now_set_now t t' w : set_now t (set_now t' w) = set_now t w.
Proof. reflexivity. Qed.

Lemma set_now_now w : set_now (now w) w = w.
Proof. by destruct w. Qed.

Lemma loop_polls {A} (body : co (option A)) f :
  polls body f ->
  forall fuel tr w, (length tr - now w < fuel)%nat ->
    loop fuel body tr w =
    match find_first (f w) (drop (now w) tr) (now w) with
    | Some (a, k) => (Returned a, set_now k w)
    | None => (Suspended, set_now (Nat.max (now w) (length tr)) w)
    end.
Proof.
  intros [Hf Hb]. induction fuel as [|fuel IH]; intros tr w Hfuel; [lia|].
  simpl. unfold bind. pose proof (Hb tr w) as Hbw.
  destruct (tr !! now w) as [smp|] eqn:Hs.
  - rewrite (drop_S _ _ _ Hs). simpl.
    destruct (f w smp) as [a|] eqn:Hfs; rewrite Hbw.
    + unfold ret. by rewrite set_now_now.
    + apply lookup_lt_Some in Hs.
      rewrite IH by (simpl; lia). simpl. rewrite Hf.
      destruct (find_first _ _ _) as [[a k]|]; [reflexivity|].
      rewrite set_now_set_now. do 2 f_equal. simpl. lia.
  - rewrite Hbw. apply lookup_ge_None in Hs. rewrite drop_ge by lia. simpl.
    replace (Nat.max (now w) (length tr)) with (now w) by lia.
    by rewrite set_now_now.
Qed.

Lemma while_True_polls {A} (body : co (option A)) f tr w :
  polls body f ->
  while_True body tr w =
  match find_first (f w) (drop (now w) tr) (now w) with
  | Some (a, k) => (Returned a, set_now k w)
  | None => (Suspended, set_now (Nat.max (now w) (length tr)) w)
  end.
Proof. intros H. unfold while_True. apply (loop_polls _ _ H). lia. Qed.

Lemma find_first_Some {A} (f : sample -> option A) l t a k :
  find_first f l t = Some (a, k) ->
  (t <= k)%nat /\
  (exists smp, l !! (k - t)%nat = Some smp /\ f smp = Some a) /\
  forall j smp, (j < k - t)%nat -> l !! j = Some smp -> f smp = None.
Proof.
  revert t. induction l as [|smp l IH]; intros t; simpl; [discriminate|].
  destruct (f smp) as [a'|] eqn:Hf.
  - intros [= -> ->]. split; [lia|]. rewrite Nat.sub_diag. split.
    + exists smp. by split.
    + intros j ? Hj. lia.
  - intros H. apply IH in H as (Hle & (smp' & Hl & Hfs) & Hnone).
    split; [lia|]. replace (k - t)%nat with (S (k - S t)) by lia. split.
    + exists smp'. by split.
    + intros [|j] smpj Hj; simpl.
      * by intros [= <-].
      * apply Hnone. lia.
Qed.

Lemma find_first_at {A} (f : sample -> option A) l t n smp a :
  l !! n = Some smp -> f smp = Some a ->
  (forall j smpj, (j < n)%nat -> l !! j = Some smpj -> f smpj = None) ->
  find_first f l t = Some (a, (t + n)%nat).
Proof.
  revert t n. induction l as [|x l IH]; intros t n; [by rewrite lookup_nil|].
  destruct n as [|n]; simpl.
  - intros [= ->] -> _. by rewrite Nat.add_0_r.
  - intros Hl Hf Hnone.
    rewrite (Hnone O x); [| lia | reflexivity].
    rewrite (IH (S t) n Hl Hf).
    + f_equal. f_equal. lia.
    + intros j smpj Hj Hlj. apply (Hnone (S j)); [lia | exact Hlj].
Qed.

Lemma find_first_None {A} (f : sample -> option A) l t :
  (forall smp, smp ∈ l -> f smp = None) -> find_first f l t = None.
Proof.
  revert t. induction l as [|x l IH]; intros t H; simpl; [reflexivity|].
  rewrite H by constructor. apply IH. intros smp Hin. apply H. by constructor.
Qed.

Lemma polls_write_response :
  polls (ReadOnly ;;
         bvalid <- value BVALID ;
         bready <- value BREADY ;
         if truthy bvalid && truthy bready
         then result <- value BRESP ; ret (Some result)
         else RisingEdge ;; ret None) bresp_sampled.
Proof.
  split; [reflexivity|]. intros tr w.
  unfold bind, ReadOnly, value, bresp_sampled; simpl.
  destruct (tr !! now w) as [smp|] eqn:Hs; simpl; [|reflexivity].
  repeat (rewrite Hs; simpl).
  destruct (truthy (smp BVALID) && truthy (out w BREADY));
    simpl; rewrite ?Hs; reflexivity.
Qed.

Lemma polls_read_response :
  polls (ReadOnly ;;
         rvalid <- value RVALID ;
         rready <- value RREADY ;
         if truthy rvalid && truthy rready
         then data <- value RDATA ;
              result <- value RRESP ;
              ret (Some (data, result))
         else RisingEdge ;; ret None) rdata_sampled.
Proof.
  split; [reflexivity|]. intros tr w.
  unfold bind, ReadOnly, value, rdata_sampled; simpl.
  destruct (tr !! now w) as [smp|] eqn:Hs; simpl; [|reflexivity].
  repeat (rewrite Hs; simpl).
  destruct (truthy (smp RVALID) && truthy (out w RREADY));
    simpl; rewrite ?Hs; reflexivity.
Qed.

Lemma write_response_eq tr w :
  write_response tr w =
  match find_first (bresp_sampled w) (drop (now w) tr) (now w) with
  | Some (code, k) => (Returned code, set_now k w)
  | None => (Suspended, set_now (Nat.max (now w) (length tr)) w)
  end.
Proof. apply while_True_polls, polls_write_response. Qed.

Lemma read_response_eq tr w :
  read_response tr w =
  match find_first (rdata_sampled w) (drop (now w) tr) (now w) with
  | Some (dr, k) => (Returned dr, set_now k w)
  | None => (Suspended, set_now (Nat.max (now w) (length tr)) w)
  end.
Proof. apply while_True_polls, polls_read_response. Qed.

Lemma calm_ret {A} (a : A) : calm (ret a).
Proof. intros tr w e. discriminate. Qed.

Lemma calm_bind {A B} (c : co A) (k : A -> co B) :
  calm c ->
  (forall a tr w, (c tr w).1 = Returned a -> calm (k a)) ->
  calm (bind c k).
Proof.
  intros Hc Hk tr w e. unfold bind.
  pose proof (Hc tr w) as Hcw.
  pose proof (fun a => Hk a tr w) as Hkw.
  destruct (c tr w) as [[a|e'|] w']; simpl in *.
  - apply (Hkw a). reflexivity.
  - destruct (Hcw e'). reflexivity.
  - discriminate.
Qed.

Lemma calm_seq {A B} (c : co A) (k : A -> co B) :
  calm c -> (forall a, calm (k a)) -> calm (bind c k).
Proof. intros Hc Hk. apply calm_bind; auto. Qed.

Lemma calm_RisingEdge : calm RisingEdge.
Proof. intros tr w e. discriminate. Qed.

Lemma calm_ReadOnly : calm ReadOnly.
Proof. intros tr w e. unfold ReadOnly. destruct (tr !! now w); discriminate. Qed.

Lemma calm_value sig : calm (value sig).
Proof.
  intros tr w e. unfold value.
  destruct (driven_by_master sig); [discriminate|].
  destruct (tr !! now w); discriminate.
Qed.

Lemma calm_drive sig v : calm (drive sig v).
Proof. intros tr w e. discriminate. Qed.

Lemma calm_acquire l : calm (acquire l).
Proof. intros tr w e. unfold acquire. destruct (locked w l); discriminate. Qed.

Lemma calm_release l : calm (release l).
Proof. intros tr w e. discriminate. Qed.

Lemma calm_edges n : calm (edges n).
Proof.
  induction n; simpl; [apply calm_ret|].
  apply calm_seq; [apply calm_RisingEdge | auto].
Qed.

Lemma calm_loop {A} fuel (body : co (option A)) : calm body -> calm (loop fuel body).
Proof.
  intros Hb. induction fuel; simpl.
  - intros tr w e. discriminate.
  - apply calm_seq; [assumption|]. intros [a|]; [apply calm_ret | assumption].
Qed.

Lemma calm_while_True {A} (body : co (option A)) : calm body -> calm (while_True body).
Proof. intros Hb tr w. unfold while_True. by apply calm_loop. Qed.

Lemma calm_fork {A} (c : co A) : calm (fork c).
Proof. intros tr w e. unfold fork. destruct (c tr w). discriminate. Qed.

Lemma fork_handle {A} (c : co A) tr w h :
  calm c -> (fork c tr w).1 = Returned h -> forall e, h.1 <> Raised e.
Proof.
  intros Hc. unfold fork. pose proof (Hc tr w) as Hcw.
  destruct (c tr w) as [o w']. simpl. intros [= <-]. exact Hcw.
Qed.

Lemma calm_join {A} (h : outcome A * nat) :
  (forall e, h.1 <> Raised e) -> calm (join h).
Proof.
  intros Hh tr w e. destruct h as [[a|e'|] t]; simpl; try discriminate.
  destruct (Hh e'). reflexivity.
Qed.

Lemma calm_if {A} (b : bool) (c1 c2 : co A) : calm c1 -> calm c2 -> calm (if b then c1 else c2).
Proof. by destruct b. Qed.

Create HintDb calm.
#[local] Hint Resolve calm_ret calm_RisingEdge calm_ReadOnly calm_value
  calm_drive calm_acquire calm_release calm_edges calm_fork calm_if
  calm_while_True : calm.

Ltac calm_step :=
  first [ apply calm_seq; [| intros ?]
        | apply calm_if
        | apply calm_while_True
        | solve [auto with calm] ].

Lemma calm_send_write_address a d : calm (_send_write_address a d).
Proof. unfold _send_write_address. repeat calm_step. Qed.

Lemma calm_send_write_data a d b : calm (_send_write_data a d b).
Proof. unfold _send_write_data. repeat calm_step. Qed.

Lemma calm_write_request a v be al dl sync :
  calm (write_request a v be al dl sync).
Proof.
  unfold write_request.
  apply calm_seq; [destruct sync; auto with calm|]. intros _.
  apply calm_bind; [apply calm_fork|]. intros h1 tr1 w1 H1.
  apply calm_bind; [apply calm_fork|]. intros h2 tr2 w2 H2.
  apply calm_seq; [|intros _].
  - apply calm_join. eapply fork_handle; [|exact H1].
    apply calm_send_write_address.
  - apply calm_join. eapply fork_handle; [|exact H2].
    apply calm_send_write_data.
Qed.

Lemma calm_read_request a sync : calm (read_request a sync).
Proof. unfold read_request. repeat calm_step. Qed.

Lemma frame_write_request a v be al dl sync :
  frame (write_request a v be al dl sync).
Proof.
  unfold write_request.
  repeat frame_step; auto using frame_send_write_address, frame_send_write_data.
Qed.

Lemma frame_read_request a sync : frame (read_request a sync).
Proof. unfold read_request. repeat frame_step. Qed.

Lemma truthy_result_write address code :
  (if truthy code then Raised (AXIProtocolError address code) else Returned code)
  = write_result address code.
Proof. unfold truthy, write_result. by destruct (code =? 0). Qed.

(** [write] in terms of its two phases. *)
Lemma write_eq a v be al dl sync tr w :
  write a v be al dl sync tr w =
  match write_request a v be al dl sync tr w with
  | (Returned _, w1) =>
      match find_first (bresp_sampled w1) (drop (now w1) tr) (now w1) with
      | Some (code, k) => (write_result a code, set_now (S k) w1)
      | None => (Suspended, set_now (Nat.max (now w1) (length tr)) w1)
      end
  | (Raised e, w1) => (Raised e, w1)
  | (Suspended, w1) => (Suspended, w1)
  end.
Proof.
  unfold write at 1, bind.
  destruct (write_request a v be al dl sync tr w) as [[[]|e|] w1]; try reflexivity.
  rewrite write_response_eq.
  destruct (find_first _ _ _) as [[code k]|]; [|reflexivity].
  simpl. rewrite <- truthy_result_write.
  unfold RisingEdge, raise, ret. simpl. by destruct (truthy code).
Qed.

Lemma read_eq a sync tr w :
  read a sync tr w =
  match read_request a sync tr w with
  | (Returned _, w1) =>
      match find_first (rdata_sampled w1) (drop (now w1) tr) (now w1) with
      | Some ((data, code), k) => (read_result a data code, set_now k w1)
      | None => (Suspended, set_now (Nat.max (now w1) (length tr)) w1)
      end
  | (Raised e, w1) => (Raised e, w1)
  | (Suspended, w1) => (Suspended, w1)
  end.
Proof.
  unfold read at 1, bind.
  destruct (read_request a sync tr w) as [[[]|e|] w1]; try reflexivity.
  rewrite read_response_eq.
  destruct (find_first _ _ _) as [[[data code] k]|]; [|reflexivity].
  unfold read_result, truthy, raise, ret. by destruct (code =? 0).
Qed.

Lemma bresp_sampled_Some w smp code :
  bresp_sampled w smp = Some code ->
  truthy (smp BVALID) = true /\ truthy (out w BREADY) = true /\ code = smp BRESP.
Proof.
  unfold bresp_sampled.
  destruct (truthy (smp BVALID)), (truthy (out w BREADY)); simpl;
    intros [= <-]; auto.
Qed.

Lemma rdata_sampled_Some w smp data code :
  rdata_sampled w smp = Some (data, code) ->
  truthy (smp RVALID) = true /\ truthy (out w RREADY) = true /\
  data = smp RDATA /\ code = smp RRESP.
Proof.
  unfold rdata_sampled.
  destruct (truthy (smp RVALID)), (truthy (out w RREADY)); simpl;
    intros [= <- <-]; auto.
Qed.

Lemma write_result_cases address code :
  (code <> 0 -> write_result address code = Raised (AXIProtocolError address code)) /\
  (code = 0 -> write_result address code = Returned code).
Proof.
  unfold write_result. destruct (Z.eqb_spec code 0); split; intros; congruence.
Qed.

Lemma read_result_cases address data code :
  (code <> 0 -> read_result address data code = Raised (AXIProtocolError address code)) /\
  (code = 0 -> read_result address data code = Returned data).
Proof.
  unfold read_result. destruct (Z.eqb_spec code 0); split; intros; congruence.
Qed.

(** C2. A completed [write] raises [AXIProtocolError] exactly when the
    BRESP it sampled at the response handshake is not 0, and returns
    that response code otherwise; a completed [read] raises exactly
    when the sampled RRESP is not 0, and returns the RDATA sampled in
    the same cycle otherwise. *)
Theorem response_code_decides address value_ be al dl sync tr w :
  (forall o w', write address value_ be al dl sync tr w = (o, w') ->
     o <> Suspended ->
     exists k smp, tr !! k = Some smp /\ now w' = S k /\
       truthy (smp BVALID) = true /\ truthy (out w BREADY) = true /\
       (smp BRESP <> 0 ->
        o = Raised (AXIProtocolError address (smp BRESP))) /\
       (smp BRESP = 0 -> o = Returned (smp BRESP))) /\
  (forall o w', read address sync tr w = (o, w') ->
     o <> Suspended ->
     exists k smp, tr !! k = Some smp /\ now w' = k /\
       truthy (smp RVALID) = true /\ truthy (out w RREADY) = true /\
       (smp RRESP <> 0 ->
        o = Raised (AXIProtocolError address (smp RRESP))) /\
       (smp RRESP = 0 -> o = Returned (smp RDATA))).
Proof.
  split; intros o w' Hrun Hdone.
  - rewrite write_eq in Hrun.
    pose proof (calm_write_request address value_ be al dl sync tr w) as Hcalm.
    pose proof (frame_write_request address value_ be al dl sync tr w) as Hfr.
    destruct (write_request address value_ be al dl sync tr w)
      as [[[]|e|] w1]; simpl in *.
    + destruct (find_first _ _ _) as [[code k]|] eqn:Hff;
        [|injection Hrun as <- <-; congruence].
      injection Hrun as <- <-.
      apply find_first_Some in Hff as (Hle & (smp & Hl & Hs) & _).
      rewrite lookup_drop in Hl.
      replace (now w1 + (k - now w1))%nat with k in Hl by lia.
      apply bresp_sampled_Some in Hs as (Hv & Hr & ->).
      destruct Hfr as (_ & Hb & _). rewrite Hb in Hr.
      exists k, smp. repeat split; auto; apply write_result_cases.
    + destruct (Hcalm e). reflexivity.
    + injection Hrun as <- <-. congruence.
  - rewrite read_eq in Hrun.
    pose proof (calm_read_request address sync tr w) as Hcalm.
    pose proof (frame_read_request address sync tr w) as Hfr.
    destruct (read_request address sync tr w) as [[[]|e|] w1]; simpl in *.
    + destruct (find_first _ _ _) as [[[data code] k]|] eqn:Hff;
        [|injection Hrun as <- <-; congruence].
      injection Hrun as <- <-.
      apply find_first_Some in Hff as (Hle & (smp & Hl & Hs) & _).
      rewrite lookup_drop in Hl.
      replace (now w1 + (k - now w1))%nat with k in Hl by lia.
      apply rdata_sampled_Some in Hs as (Hv & Hr & -> & ->).
      destruct Hfr as (_ & _ & Hb & _). rewrite Hb in Hr.
      exists k, smp. repeat split; auto; apply read_result_cases.
    + destruct (Hcalm e). reflexivity.
    + injection Hrun as <- <-. congruence.
Qed.

Lemma response_code_decides_witness :
  let w := __init__ (fun _ => 32%nat) in
  (exists k smp, trace_bresp 2 !! k = Some smp /\
     now (write 16 7 15 0 0 true (trace_bresp 2) w).2 = S k /\
     truthy (smp BVALID) = true /\ truthy (out w BREADY) = true /\
     (smp BRESP <> 0 ->
      @Raised Z (AXIProtocolError 16 2)
      = Raised (AXIProtocolError 16 (smp BRESP))) /\
     (smp BRESP = 0 -> Raised (AXIProtocolError 16 2) = Returned (smp BRESP))) /\
  (exists k smp, trace_rresp 99 0 !! k = Some smp /\
     now (read 16 true (trace_rresp 99 0) w).2 = k /\
     truthy (smp RVALID) = true /\ truthy (out w RREADY) = true /\
     (smp RRESP <> 0 ->
      Returned 99 = Raised (AXIProtocolError 16 (smp RRESP))) /\
     (smp RRESP = 0 -> Returned 99 = Returned (smp RDATA))).
Proof.
  intros w. split.
  - apply (proj1 (response_code_decides 16 7 15 0 0 true (trace_bresp 2) w));
      [vm_compute; reflexivity | discriminate].
  - apply (proj2 (response_code_decides 16 7 15 0 0 true (trace_rresp 99 0) w));
      [vm_compute; reflexivity | discriminate].
Defined.

(** C8. The length of a master whose ARADDR signal has at most 62
    bits is 2 to the power of that width, and the addresses below it
    are those that fit the read address bus.  From 63 bits on
    [__len__] still computes the power, which no longer fits an
    index, and the length operation raises [OverflowError]. *)
Theorem len_is_address_space_below_63_bits (self : world) :
  ((bits self ARADDR <= 62)%nat ->
   len self = Returned (2 ^ Z.of_nat (bits self ARADDR)) /\
   forall a, 0 <= a ->
     (a < 2 ^ Z.of_nat (bits self ARADDR)
      <-> a mod 2 ^ Z.of_nat (bits self ARADDR) = a)) /\
  ((63 <= bits self ARADDR)%nat ->
   len self = Raised OverflowError /\
   __len__ self = 2 ^ Z.of_nat (bits self ARADDR)).
Proof.
  unfold len, __len__, maxsize. cbv zeta.
  set (n := bits self ARADDR). split; intros Hn.
  - assert (Hle : 2 ^ Z.of_nat n <= 2 ^ 62)
      by (apply Z.pow_le_mono_r; lia).
    assert (Hpos : 0 < 2 ^ Z.of_nat n) by (apply Z.pow_pos_nonneg; lia).
    destruct (Z.leb_spec (2 ^ Z.of_nat n) (2 ^ 63 - 1)) as [_|Hgt];
      [|change (2 ^ 63 - 1) with 9223372036854775807 in Hgt;
        change (2 ^ 62) with 4611686018427387904 in Hle; lia].
    split; [reflexivity|]. intros a Ha.
    rewrite Z.mod_small_iff by lia. lia.
  - assert (Hge : 2 ^ 63 <= 2 ^ Z.of_nat n)
      by (apply Z.pow_le_mono_r; lia).
    destruct (Z.leb_spec (2 ^ Z.of_nat n) (2 ^ 63 - 1)) as [Hle|_];
      [lia | by split].
Qed.

Lemma len_is_address_space_below_63_bits_witness :
  len (__init__ (fun _ => 32%nat)) = Returned 4294967296 /\
  (305419896 < 2 ^ Z.of_nat 32 <-> 305419896 mod 2 ^ Z.of_nat 32 = 305419896) /\
  len (__init__ (fun _ => 63%nat)) = Raised OverflowError.
Proof.
  destruct (len_is_address_space_below_63_bits (__init__ (fun _ => 32%nat)))
    as [Hsmall _].
  destruct (len_is_address_space_below_63_bits (__init__ (fun _ => 63%nat)))
    as [_ Hwide].
  destruct Hsmall as [Hlen Hfit]; [simpl; lia|].
  destruct Hwide as [Hraise _]; [simpl; lia|].
  split; [exact Hlen|]. split; [apply Hfit; lia | exact Hraise].
Defined.

(** C8, the claim as it was stated: the length of a master with a
    64-bit address bus is not 2^64, the operation raises. *)
Lemma len_overflows_at_64_bits :
  len (__init__ (fun _ => 64%nat)) = Raised OverflowError /\
  __len__ (__init__ (fun _ => 64%nat)) = 2 ^ 64.
Proof. split; vm_compute; reflexivity. Qed.

Lemma reachable_keeps w :
  reachable w ->
  out w BREADY = 1 /\ out w RREADY = 1 /\
  Forall (fun d => d.1.2 = BREADY \/ d.1.2 = RREADY -> d.2 = 1) (drives w).
Proof.
  assert (Hstep : forall w w',
    keeps_ready w w' ->
    out w BREADY = 1 /\ out w RREADY = 1 /\
    Forall (fun d => d.1.2 = BREADY \/ d.1.2 = RREADY -> d.2 = 1) (drives w) ->
    out w' BREADY = 1 /\ out w' RREADY = 1 /\
    Forall (fun d => d.1.2 = BREADY \/ d.1.2 = RREADY -> d.2 = 1) (drives w')).
  { intros w0 w' (_ & Hb & Hr & l & Hl & Hq) (H1 & H2 & H3).
    repeat split; [congruence | congruence |].
    rewrite Hl. apply Forall_app. split; [|exact H3].
    eapply Forall_impl; [exact Hq|]. intros d [Hd1 Hd2] [?|?]; contradiction. }
  induction 1 as [widths | w a v be al dl sync tr Hw IH | w a sync tr Hw IH].
  - repeat split. simpl. repeat constructor; simpl; intros [?|?]; congruence.
  - eapply Hstep; [apply frame_write | exact IH].
  - eapply Hstep; [apply frame_read | exact IH].
Qed.

Lemma first_at_find {A} (f : sample -> option A) p tr t k smp a :
  first_at p tr t k -> tr !! k = Some smp -> f smp = Some a ->
  (forall s, p s = false -> f s = None) ->
  find_first f (drop t tr) t = Some (a, k).
Proof.
  intros (Hle & _ & Hbefore) Hk Hf Hp.
  rewrite (find_first_at f (drop t tr) t (k - t) smp a).
  - do 2 f_equal. lia.
  - rewrite lookup_drop. by replace (t + (k - t))%nat with k by lia.
  - exact Hf.
  - intros j smpj Hj Hl. rewrite lookup_drop in Hl.
    apply Hp. eapply Hbefore; [|exact Hl]. lia.
Qed.

(** C9. BREADY and RREADY are 1 from construction on: no [write] and
    no [read] assigns them, so on every master object every logged
    assignment to them carries 1, and the response wait of [write]
    (of [read]) ends in the first cycle, after the request phase, in
    which the peer shows BVALID (RVALID), with the response sampled in
    that cycle. *)
Theorem ready_never_deasserted w :
  reachable w ->
  (out w BREADY = 1 /\ out w RREADY = 1) /\
  (forall t sig v, (t, sig, v) ∈ drives w ->
     sig = BREADY \/ sig = RREADY -> v = 1) /\
  (forall a v be al dl sync tr w1 k smp,
     write_request a v be al dl sync tr w = (Returned tt, w1) ->
     first_at (fun s => truthy (s BVALID)) tr (now w1) k ->
     tr !! k = Some smp ->
     write a v be al dl sync tr w
     = (write_result a (smp BRESP), set_now (S k) w1)) /\
  (forall a sync tr w1 k smp,
     read_request a sync tr w = (Returned tt, w1) ->
     first_at (fun s => truthy (s RVALID)) tr (now w1) k ->
     tr !! k = Some smp ->
     read a sync tr w
     = (read_result a (smp RDATA) (smp RRESP), set_now k w1)).
Proof.
  intros Hw. destruct (reachable_keeps w Hw) as (Hb & Hr & Hlog).
  split; [by split|]. split; [|split].
  - intros t sig v Hin Hsig. rewrite Forall_forall in Hlog.
    apply (Hlog _ Hin). exact Hsig.
  - intros a v be al dl sync tr w1 k smp Hreq Hfirst Hk.
    rewrite write_eq, Hreq.
    pose proof (frame_write_request a v be al dl sync tr w) as Hfr.
    rewrite Hreq in Hfr. destruct Hfr as (_ & Hb1 & _). simpl in Hb1.
    assert (Hsmp : truthy (smp BVALID) = true).
    { destruct Hfirst as (_ & (smp' & Hk' & Hp) & _). congruence. }
    rewrite (first_at_find (bresp_sampled w1) _ tr (now w1) k smp (smp BRESP)
               Hfirst Hk); [reflexivity | |].
    + unfold bresp_sampled. by rewrite Hsmp, Hb1, Hb.
    + intros s Hs. unfold bresp_sampled. by rewrite Hs.
  - intros a sync tr w1 k smp Hreq Hfirst Hk.
    rewrite read_eq, Hreq.
    pose proof (frame_read_request a sync tr w) as Hfr.
    rewrite Hreq in Hfr. destruct Hfr as (_ & _ & Hr1 & _). simpl in Hr1.
    assert (Hsmp : truthy (smp RVALID) = true).
    { destruct Hfirst as (_ & (smp' & Hk' & Hp) & _). congruence. }
    rewrite (first_at_find (rdata_sampled w1) _ tr (now w1) k smp
               (smp RDATA, smp RRESP) Hfirst Hk); [reflexivity | |].
    + unfold rdata_sampled. by rewrite Hsmp, Hr1, Hr.
    + intros s Hs. unfold rdata_sampled. by rewrite Hs.
Qed.

Lemma ready_never_deasserted_witness :
  let w := __init__ (fun _ => 32%nat) in
  out w BREADY = 1 /\
  write 16 7 15 0 0 true (trace_bresp 0) w
  = (Returned 0,
     set_now 4 (write_request 16 7 15 0 0 true (trace_bresp 0) w).2) /\
  read 16 true (trace_rresp 99 0) w
  = (Returned 99, set_now 3 (read_request 16 true (trace_rresp 99 0) w).2).
Proof.
  intros w.
  destruct (ready_never_deasserted w (reach_init _))
    as ((Hb & _) & _ & Hwrite & Hread).
  split; [exact Hb|]. split.
  - apply (Hwrite 16 7 15 0 0 true (trace_bresp 0) _ 3%nat
                  (samp [(BVALID, 1); (BRESP, 0)])).
    + vm_compute. reflexivity.
    + split; [vm_compute; lia|]. split.
      * eexists. split; reflexivity.
      * intros j smp Hj. vm_compute in Hj.
        assert (j = 2%nat) as -> by lia. intros [= <-]. reflexivity.
    + reflexivity.
  - apply (Hread 16 true (trace_rresp 99 0) _ 3%nat
                 (samp [(RVALID, 1); (RDATA, 99); (RRESP, 0)])).
    + vm_compute. reflexivity.
    + split; [vm_compute; lia|]. split.
      * eexists. split; reflexivity.
      * intros j smp Hj. vm_compute in Hj.
        assert (j = 2%nat) as -> by lia. intros [= <-]. reflexivity.
    + reflexivity.
Defined.

Lemma write_waits_for_bvalid a v be al dl sync tr w :
  (forall smp, smp ∈ tr -> truthy (smp BVALID) = false) ->
  (write a v be al dl sync tr w).1 = Suspended.
Proof.
  intros Hno. rewrite write_eq.
  pose proof (calm_write_request a v be al dl sync tr w) as Hcalm.
  destruct (write_request a v be al dl sync tr w) as [[[]|e|] w1]; simpl in *.
  - rewrite find_first_None; [reflexivity|].
    intros smp Hin. unfold bresp_sampled.
    rewrite Hno; [reflexivity|].
    apply list_elem_of_lookup in Hin as [i Hi]. rewrite lookup_drop in Hi.
    apply list_elem_of_lookup. eauto.
  - destruct (Hcalm e). reflexivity.
  - reflexivity.
Qed.

End MasterFacts.

(** ** The slave with bursts *)
Module BurstFacts.
Import AXI4Slave.

(** The read task never assigns the memory image. *)
Lemma read_address_memory x s : _memory (read_address x s) = _memory s.
Proof.
  unfold read_address. destruct (truthy (ARVALID x)); [|reflexivity].
  destruct (latch _ _ _); reflexivity.
Qed.

Lemma read_beat_memory b x s : _memory (read_beat b x s) = _memory s.
Proof.
  unfold read_beat. destruct (truthy (RREADY x)); [|reflexivity].
  destruct (burst_count b =? 1); reflexivity.
Qed.

Lemma read_data_memory x s : _memory (_read_data x s) = _memory s.
Proof.
  unfold _read_data. destruct (read_task s) as [[|b|b]|e]; try reflexivity.
  - apply read_address_memory.
  - apply read_beat_memory.
  - unfold read_next. destruct (burst_count (count_down b) =? 0).
    + rewrite read_address_memory. reflexivity.
    + rewrite read_beat_memory. reflexivity.
Qed.

Lemma run_read_memory xs : forall s, _memory (run_read s xs) = _memory s.
Proof.
  induction xs as [|x xs IH]; intros s; [reflexivity|].
  unfold run_read in *. simpl. rewrite IH. simpl. apply read_data_memory.
Qed.

Lemma write_address_memory x s : _memory (write_address x s) = _memory s.
Proof.
  unfold write_address. destruct (truthy (AWVALID x)); [|reflexivity].
  destruct (latch _ _ _); reflexivity.
Qed.

Lemma write_data_memory gb x s :
  _memory (_write_data gb x s) = _memory s \/
  exists b, write_task s = Waiting (W_beat b) /\ truthy (WVALID x) = true.
Proof.
  unfold _write_data. destruct (write_task s) as [[|b]|e]; auto.
  - left. apply write_address_memory.
  - unfold write_beat. destruct (truthy (WVALID x)); [|by left].
    right. by exists b.
Qed.

Lemma size_to_bytes_in_beat_spec AxSIZE :
  (AxSIZE < 7 -> _size_to_bytes_in_beat AxSIZE = Some (2 ^ AxSIZE)) /\
  (7 <= AxSIZE -> _size_to_bytes_in_beat AxSIZE = None).
Proof.
  unfold _size_to_bytes_in_beat.
  destruct (Z.ltb_spec AxSIZE 7); split; intros; try reflexivity; lia.
Qed.

(** What the two tasks keep of a request with a size from 0 to 6. *)
Lemma write_latches gb x s :
  write_task s = Waiting W_address -> truthy (AWVALID x) = true ->
  0 <= AWSIZE x < 7 ->
  write_task (_write_data gb x s)
  = Waiting (W_beat (Burst (AWADDR x) (AWLEN x + 1) (2 ^ AWSIZE x)
                           (AWLEN x + 1))).
Proof.
  intros Htask Hvalid Hsize.
  unfold _write_data. rewrite Htask. unfold write_address. rewrite Hvalid.
  unfold latch.
  rewrite (proj1 (size_to_bytes_in_beat_spec (AWSIZE x)) (proj2 Hsize)).
  reflexivity.
Qed.

Lemma read_latches x s :
  read_task s = Waiting R_address -> truthy (ARVALID x) = true ->
  0 <= ARSIZE x < 7 ->
  read_task (_read_data x s)
  = Waiting (R_first (Burst (ARADDR x) (ARLEN x + 1) (2 ^ ARSIZE x)
                            (ARLEN x + 1))).
Proof.
  intros Htask Hvalid Hsize.
  unfold _read_data. rewrite Htask. unfold read_address. rewrite Hvalid.
  unfold latch.
  rewrite (proj1 (size_to_bytes_in_beat_spec (ARSIZE x)) (proj2 Hsize)).
  reflexivity.
Qed.

(** C7. When a task latches a request, the beat count it keeps is
    AxLEN+1 and the beat width 2^AxSIZE for AxSIZE from 0 to 6.  For AxSIZE
    of 7 or more [_size_to_bytes_in_beat] gives [None], and the task
    ends with the [TypeError] of [bytes_in_beat*8] before it touches
    the memory: no width is substituted. *)
Theorem burst_geometry gb x s :
  (write_task s = Waiting W_address -> truthy (AWVALID x) = true ->
     (0 <= AWSIZE x < 7 ->
      write_task (_write_data gb x s)
      = Waiting (W_beat (Burst (AWADDR x) (AWLEN x + 1) (2 ^ AWSIZE x)
                               (AWLEN x + 1)))) /\
     (7 <= AWSIZE x ->
      _size_to_bytes_in_beat (AWSIZE x) = None /\
      write_task (_write_data gb x s) = Crashed TypeError /\
      _memory (_write_data gb x s) = _memory s)) /\
  (read_task s = Waiting R_address -> truthy (ARVALID x) = true ->
     (0 <= ARSIZE x < 7 ->
      read_task (_read_data x s)
      = Waiting (R_first (Burst (ARADDR x) (ARLEN x + 1) (2 ^ ARSIZE x)
                                (ARLEN x + 1)))) /\
     (7 <= ARSIZE x ->
      _size_to_bytes_in_beat (ARSIZE x) = None /\
      read_task (_read_data x s) = Crashed TypeError /\
      _memory (_read_data x s) = _memory s)).
Proof.
  split; intros Htask Hvalid; split; intros Hsize.
  - by apply write_latches.
  - unfold _write_data. rewrite Htask. unfold write_address, latch.
    rewrite Hvalid, (proj2 (size_to_bytes_in_beat_spec (AWSIZE x)) Hsize).
    auto.
  - by apply read_latches.
  - unfold _read_data. rewrite Htask. unfold read_address, latch.
    rewrite Hvalid, (proj2 (size_to_bytes_in_beat_spec (ARSIZE x)) Hsize).
    auto.
Qed.

Lemma burst_geometry_witness :
  let gb := fun (_ : bool) (_ : Z) => [x00; x00; x00; x00] in
  let s := __init__ [] false in
  write_task (_write_data gb (write_address_cycle 4096 7 2) s)
  = Waiting (W_beat (Burst 4096 8 4 8)) /\
  write_task (_write_data gb (write_address_cycle 4096 7 7) s)
  = Crashed TypeError /\
  read_task (_read_data (read_address_cycle 4096 7 2) s)
  = Waiting (R_first (Burst 4096 8 4 8)) /\
  read_task (_read_data (read_address_cycle 4096 7 7) s)
  = Crashed TypeError.
Proof.
  intros gb s.
  destruct (burst_geometry gb (write_address_cycle 4096 7 2) s) as [Hw _].
  destruct (burst_geometry gb (write_address_cycle 4096 7 7) s) as [Hw7 _].
  destruct (burst_geometry gb (read_address_cycle 4096 7 2) s) as [_ Hr].
  destruct (burst_geometry gb (read_address_cycle 4096 7 7) s) as [_ Hr7].
  split; [|split; [|split]].
  - apply Hw; [reflexivity | reflexivity | simpl; lia].
  - apply Hw7; [reflexivity | reflexivity | simpl; lia].
  - apply Hr; [reflexivity | reflexivity | simpl; lia].
  - apply Hr7; [reflexivity | reflexivity | simpl; lia].
Defined.

(** With 0 < bytes_in_beat the ranges of successive beats follow one
    another without gap or overlap. *)
Lemma beat_ranges_adjacent b :
  0 < bytes_in_beat b ->
  beat_start b < beat_end b /\ beat_start (count_down b) = beat_end b.
Proof. unfold beat_start, beat_end, count_down. simpl. nia. Qed.

Lemma ranges_emit kind e s :
  ranges kind (emit e s)
  = ranges kind s ++ match kind e with Some r => [r] | None => [] end.
Proof.
  unfold ranges, emit. simpl. rewrite omap_app. simpl.
  by destruct (kind e).
Qed.

Lemma rlast_emit e s :
  rlast_cycles (emit e s)
  = rlast_cycles s ++ match e with
                      | Drive RLAST 1 => [cycle s]
                      | _ => []
                      end.
Proof.
  unfold rlast_cycles, emit. simpl. rewrite omap_app. simpl.
  destruct e as [[] [|[]|]| | |]; reflexivity.
Qed.

Lemma ranges_set_read_task kind t s :
  ranges kind (set_read_task t s) = ranges kind s.
Proof. reflexivity. Qed.

Lemma rlast_set_read_task t s :
  rlast_cycles (set_read_task t s) = rlast_cycles s.
Proof. reflexivity. Qed.

Lemma ranges_tick kind s : ranges kind (tick s) = ranges kind s.
Proof. reflexivity. Qed.

Lemma rlast_tick s : rlast_cycles (tick s) = rlast_cycles s.
Proof. reflexivity. Qed.

Lemma cycle_emit e s : cycle (emit e s) = cycle s.
Proof. reflexivity. Qed.

Create Rewrite HintDb burst_log.
#[local] Hint Rewrite ranges_set_read_task rlast_set_read_task ranges_tick
  rlast_tick ranges_emit rlast_emit cycle_emit app_nil_r : burst_log.

Lemma read_beat_effect b x s :
  let s' := read_beat b x s in
  read_task s' = Waiting (R_beat b) /\ cycle s' = cycle s /\
  ranges is_load s'
  = ranges is_load s
    ++ (if truthy (RREADY x) then [(beat_start b, beat_end b)] else []) /\
  rlast_cycles s'
  = rlast_cycles s
    ++ (if truthy (RREADY x) && (burst_count b =? 1) then [cycle s] else []).
Proof.
  unfold read_beat.
  destruct (truthy (RREADY x)); [destruct (burst_count b =? 1)|];
    cbv zeta; repeat split; autorewrite with burst_log; simpl;
    autorewrite with burst_log; reflexivity.
Qed.

Lemma at_beat_step b x s :
  at_beat s b ->
  let s' := tick (_read_data x s) in
  read_task s' = Waiting (R_beat b) /\ cycle s' = S (cycle s) /\
  ranges is_load s'
  = ranges is_load s
    ++ (if truthy (RREADY x) then [(beat_start b, beat_end b)] else []) /\
  rlast_cycles s'
  = rlast_cycles s
    ++ (if truthy (RREADY x) && (burst_count b =? 1) then [cycle s] else []).
Proof.
  intros [Hs | (b0 & Hs & <- & Hne)]; unfold _read_data; rewrite Hs.
  - destruct (read_beat_effect b x s) as (H1 & H2 & H3 & H4).
    simpl. repeat split; simpl; auto; by rewrite H2.
  - unfold read_next. destruct (Z.eqb_spec (burst_count (count_down b0)) 0);
      [contradiction|].
    destruct (read_beat_effect (count_down b0) x (emit (Drive RLAST 0) s))
      as (H1 & H2 & H3 & H4).
    rewrite ranges_emit in H3. rewrite rlast_emit in H4.
    simpl in *. rewrite app_nil_r in H3, H4.
    repeat split; simpl; auto; by rewrite H2.
Qed.

(** A read burst takes as many cycles as it has beats.  The ranges it
    loads are those of the cycles in which the master was ready, and
    RLAST is assigned 1 only in the last cycle, and only when the
    master is ready then. *)
Lemma read_burst_serves xs : forall s b,
  at_beat s b ->
  burst_count b = Z.of_nat (length xs) -> xs <> [] ->
  let s' := run_read s xs in
  ranges is_load s' = ranges is_load s ++ served b xs /\
  rlast_cycles s'
  = rlast_cycles s
    ++ match last xs with
       | Some x => if truthy (RREADY x)
                   then [(cycle s + length xs - 1)%nat] else []
       | None => []
       end /\
  exists b', read_task s' = Waiting (R_beat b') /\ burst_count b' = 1.
Proof.
  induction xs as [|x xs IH]; intros s b Hat Hn Hne; [contradiction|].
  unfold run_read. simpl foldl.
  destruct (at_beat_step b x s Hat) as (Ht & Hc & Hl & Hr).
  set (s1 := tick (_read_data x s)) in *.
  destruct xs as [|x' xs].
  - simpl in *. rewrite Hl, Hr, app_nil_r.
    assert (Hb : (burst_count b =? 1) = true) by (apply Z.eqb_eq; lia).
    rewrite Hb, andb_true_r.
    replace (cycle s + 1 - 1)%nat with (cycle s) by lia.
    split; [reflexivity|]. split; [reflexivity|].
    exists b. split; [exact Ht | lia].
  - assert (Hat1 : at_beat s1 (count_down b)).
    { right. exists b. repeat split; [exact Ht|]. simpl in *. lia. }
    destruct (IH s1 (count_down b) Hat1) as (Hl' & Hr' & Hb');
      [simpl in *; lia | discriminate |].
    unfold run_read in Hl', Hr', Hb'.
    assert (Hb : (burst_count b =? 1) = false)
      by (apply Z.eqb_neq; simpl in *; lia).
    rewrite Hl', Hr', Hl, Hr, Hc, Hb, andb_false_r, app_nil_r.
    repeat split.
    + simpl served. by rewrite <- app_assoc.
    + f_equal. change (last (x :: x' :: xs)) with (last (x' :: xs)).
      destruct (last (x' :: xs)) as [y|]; [|reflexivity].
      destruct (truthy (RREADY y)); [|reflexivity].
      f_equal. simpl length. lia.
    + exact Hb'.
Qed.

Lemma served_ready b xs :
  Forall (fun x => truthy (RREADY x) = true) xs ->
  served b xs = beat_ranges b (length xs).
Proof.
  revert b. induction xs as [|x xs IH]; intros b Hall; [reflexivity|].
  inversion Hall as [|? ? Hx Hxs]; subst. simpl. rewrite Hx. simpl.
  f_equal. by apply IH.
Qed.

(** A cycle of a burst in which the master is not ready loses the
    beat: fewer ranges are loaded than the burst has beats. *)
Lemma served_length b xs :
  (length (served b xs) <= length xs)%nat /\
  (Exists (fun x => truthy (RREADY x) = false) xs ->
   length (served b xs) < length xs)%nat.
Proof.
  revert b. induction xs as [|x xs IH]; intros b.
  - split; [reflexivity|]. intros H. inversion H.
  - destruct (IH (count_down b)) as [Hle Hlt]. simpl.
    rewrite length_app.
    destruct (truthy (RREADY x)) eqn:Hx; simpl; split; try lia.
    + intros H. inversion H as [? ? Hx'|? ? Hex]; subst; [congruence|].
      specialize (Hlt Hex). lia.
Qed.

Lemma ranges_set_write_task kind t s :
  ranges kind (set_write_task t s) = ranges kind s.
Proof. reflexivity. Qed.

Lemma ranges_set_memory kind m s :
  ranges kind (set_memory m s) = ranges kind s.
Proof. reflexivity. Qed.

#[local] Hint Rewrite ranges_set_write_task ranges_set_memory : burst_log.

Lemma write_address_stores x s :
  ranges is_store (write_address x s) = ranges is_store s.
Proof.
  unfold write_address.
  destruct (truthy (AWVALID x)); [destruct (latch _ _ _)|];
    autorewrite with burst_log; simpl; autorewrite with burst_log;
    reflexivity.
Qed.

Lemma run_write_cons gb s x xs :
  run_write gb s (x :: xs) = run_write gb (tick (_write_data gb x s)) xs.
Proof. reflexivity. Qed.

Lemma write_idle_stores gb xs : forall s,
  valid_cycles xs = O ->
  ranges is_store (run_write gb s xs) = ranges is_store s.
Proof.
  induction xs as [|x xs IH]; intros s Hv; [reflexivity|].
  simpl in Hv. destruct (truthy (WVALID x)) eqn:Hx; [discriminate|].
  rewrite run_write_cons, IH by exact Hv.
  autorewrite with burst_log. unfold _write_data.
  destruct (write_task s) as [[|b]|e]; [apply write_address_stores | |reflexivity].
  unfold write_beat. rewrite Hx. reflexivity.
Qed.

(** The write task counts a beat only in a cycle with valid data: as
    long as the burst lasts, each such cycle stores the range of the
    next beat, whatever the cycles in between. *)
Lemma write_burst_stores gb xs : forall s b,
  write_task s = Waiting (W_beat b) ->
  Z.of_nat (valid_cycles xs) <= burst_count b ->
  ranges is_store (run_write gb s xs)
  = ranges is_store s ++ beat_ranges b (valid_cycles xs).
Proof.
  induction xs as [|x xs IH]; intros s b Hs Hn.
  - simpl. by rewrite app_nil_r.
  - rewrite run_write_cons. simpl valid_cycles in *.
    unfold _write_data. rewrite Hs. unfold write_beat.
    destruct (truthy (WVALID x)) eqn:Hx.
    + cbv zeta.
      destruct (Z.eqb_spec (burst_count (count_down b)) 0) as [Hz|Hz].
      * assert (Hv : valid_cycles xs = O) by (simpl in Hz; lia).
        rewrite (write_idle_stores gb xs _ Hv), Hv.
        autorewrite with burst_log. rewrite write_address_stores.
        autorewrite with burst_log. reflexivity.
      * rewrite (IH _ (count_down b)); [| reflexivity | simpl; lia].
        autorewrite with burst_log. simpl. by rewrite <- app_assoc.
    + rewrite (IH _ b); [reflexivity | reflexivity | lia].
Qed.

(** Beat [k] of a burst is [bytes_in_beat] wide and starts [k] beats
    after the first one. *)
Lemma beat_ranges_lookup n : forall b k,
  (k < n)%nat ->
  beat_ranges b n !! k
  = Some (beat_start b + Z.of_nat k * bytes_in_beat b,
          beat_start b + (Z.of_nat k + 1) * bytes_in_beat b).
Proof.
  induction n as [|n IH]; intros b k Hk; [lia|].
  destruct k as [|k]; simpl.
  - unfold beat_start, beat_end. do 2 f_equal; lia.
  - rewrite IH by lia. unfold beat_start, count_down. simpl.
    do 2 f_equal; lia.
Qed.

Lemma length_beat_ranges n : forall b, length (beat_ranges b n) = n.
Proof. induction n as [|n IH]; intros b; simpl; [reflexivity | by rewrite IH]. Qed.

(** A write burst stores its AWLEN+1 beats in order, however the
    cycles with valid data are spread. *)
Lemma write_burst_complete gb x xs s :
  write_task s = Waiting W_address -> truthy (AWVALID x) = true ->
  0 <= AWSIZE x < 7 ->
  Z.of_nat (valid_cycles xs) = AWLEN x + 1 ->
  ranges is_store (run_write gb s (x :: xs))
  = ranges is_store s
    ++ beat_ranges (Burst (AWADDR x) (AWLEN x + 1) (2 ^ AWSIZE x) (AWLEN x + 1))
                   (valid_cycles xs).
Proof.
  intros Hs Hv Hsize Hn. rewrite run_write_cons.
  pose proof (write_latches gb x s Hs Hv Hsize) as Hlatch.
  rewrite (write_burst_stores gb xs (tick (_write_data gb x s)) _ Hlatch)
    by (simpl; lia).
  f_equal. autorewrite with burst_log.
  unfold _write_data. rewrite Hs. apply write_address_stores.
Qed.

Lemma run_read_cons s x xs :
  run_read s (x :: xs) = run_read (tick (_read_data x s)) xs.
Proof. reflexivity. Qed.

(** A read burst whose master is ready in each of its ARLEN+1 cycles
    loads its beats in order and assigns 1 to RLAST in the last of
    these cycles only. *)
Lemma read_burst_complete x xs s :
  read_task s = Waiting R_address -> truthy (ARVALID x) = true ->
  0 <= ARSIZE x < 7 -> 0 <= ARLEN x ->
  Z.of_nat (length xs) = ARLEN x + 1 ->
  Forall (fun y => truthy (RREADY y) = true) xs ->
  ranges is_load (run_read s (x :: xs))
  = ranges is_load s
    ++ beat_ranges (Burst (ARADDR x) (ARLEN x + 1) (2 ^ ARSIZE x) (ARLEN x + 1))
                   (length xs) /\
  rlast_cycles (run_read s (x :: xs))
  = rlast_cycles s ++ [(cycle s + length xs)%nat].
Proof.
  intros Hs Hv Hsize Hlen Hn Hready. rewrite run_read_cons.
  pose proof (read_latches x s Hs Hv Hsize) as Hlatch.
  set (b := Burst _ _ _ _) in *.
  assert (Hne : xs <> []).
  { destruct xs; [simpl in Hn; lia | discriminate]. }
  destruct (read_burst_serves xs (tick (_read_data x s)) b)
    as (Hl & Hrl & _); [by left | subst b; simpl; lia | exact Hne |].
  rewrite Hl, Hrl, served_ready by exact Hready.
  autorewrite with burst_log.
  assert (Hlog : forall kind, ranges kind (_read_data x s) = ranges kind s).
  { intros kind. unfold _read_data. rewrite Hs. unfold read_address.
    rewrite Hv. by destruct (latch _ _ _). }
  assert (Hrl0 : rlast_cycles (_read_data x s) = rlast_cycles s).
  { unfold _read_data. rewrite Hs. unfold read_address.
    rewrite Hv. by destruct (latch _ _ _). }
  assert (Hc : cycle (_read_data x s) = cycle s).
  { unfold _read_data. rewrite Hs. unfold read_address.
    rewrite Hv. by destruct (latch _ _ _). }
  rewrite Hlog, Hrl0. split; [reflexivity|]. f_equal.
  destruct (last xs) as [y|] eqn:Hlast.
  - assert (Hy : truthy (RREADY y) = true).
    { rewrite Forall_forall in Hready. apply Hready.
      apply last_Some in Hlast as [l' ->]. apply elem_of_app. right.
      by apply list_elem_of_singleton. }
    rewrite Hy. simpl. rewrite Hc. f_equal. lia.
  - apply last_None in Hlast. contradiction.
Qed.

(** A read burst whose master is always ready: the eight ranges in
    order, and RLAST assigned 1 in the cycle of the last beat only. *)
Lemma read_burst_when_ready mem be :
  let s := run_read (__init__ mem be) read_burst_ready in
  ranges is_load s = eight_beats /\ rlast_cycles s = [8%nat] /\
  read_task s = Waiting R_address.
Proof. vm_compute. auto. Qed.

(** The write task counts a beat only when data is valid. *)
Lemma write_burst_when_slow gb mem be :
  let s := run_write gb (__init__ mem be) write_burst_slow in
  ranges is_store s = eight_beats /\ write_task s = Waiting W_address.
Proof. vm_compute. auto. Qed.

(** C3. The read task counts a beat in every cycle, ready or not.
    When the master is not ready in the cycle of the last beat of the
    eight-beat burst from 0x1000, the range of that beat is never
    loaded, RLAST is never assigned 1, and the burst is over. *)
Theorem read_burst_when_stalled mem be :
  let s := run_read (__init__ mem be) read_burst_stalled in
  ranges is_load s = take 7 eight_beats /\ rlast_cycles s = [] /\
  read_task s = Waiting R_address.
Proof. vm_compute. auto. Qed.

End BurstFacts.

(** ** The AXI4-Lite slave *)
Module LiteFacts.
Import AXI4LiteSlave.

Lemma get_in_range s : forall i,
  (i < String.length s)%nat -> exists c, String.get i s = Some c.
Proof.
  induction s as [|c s IH]; intros i Hi; simpl in *; [lia|].
  destruct i as [|i]; [eauto|]. apply IH. lia.
Qed.

Lemma write_bytes_all _wstrb awaddr : forall _data idx mem,
  0 <= awaddr ->
  (idx + length _data <= String.length _wstrb)%nat ->
  (Z.to_nat awaddr + idx + length _data <= length mem)%nat ->
  write_bytes _wstrb awaddr idx _data mem
  = (None, take (Z.to_nat awaddr + idx) mem ++ _data
           ++ drop (Z.to_nat awaddr + idx + length _data) mem).
Proof.
  induction _data as [|v rest IH]; intros idx mem Ha Hs Hm; simpl.
  - rewrite Nat.add_0_r, take_drop. reflexivity.
  - simpl in Hs, Hm.
    unfold str_getitem.
    destruct (get_in_range _wstrb idx) as [c ->]; [lia|].
    simpl. unfold setitem.
    replace ((0 <=? awaddr + Z.of_nat idx)
             && (awaddr + Z.of_nat idx <? Z.of_nat (length mem))) with true
      by (symmetry; apply andb_true_iff; split;
          [apply Z.leb_le | apply Z.ltb_lt]; lia).
    replace (Z.to_nat (awaddr + Z.of_nat idx))
      with (Z.to_nat awaddr + idx)%nat by lia.
    rewrite IH; [| lia | lia | rewrite length_insert; lia].
    f_equal.
    replace (Z.to_nat awaddr + S idx)%nat
      with (S (Z.to_nat awaddr + idx)) by lia.
    assert (Hi : (Z.to_nat awaddr + idx < length mem)%nat) by lia.
    revert Hi Hm. generalize (Z.to_nat awaddr + idx)%nat. intros i Hi Hm.
    rewrite (take_S_r _ i v) by (by apply list_lookup_insert_eq).
    rewrite (take_insert_ge mem i i v) by apply Nat.le_refl.
    rewrite (drop_insert_lt mem (S i + length rest) i v) by lia.
    rewrite <- app_assoc. simpl. by rewrite Nat.add_succ_r.
Qed.

Lemma struct_unbound : bound "struct" = false.
Proof. reflexivity. Qed.

(** Once [struct] is found, every byte of the beat is stored whatever
    the strobe string holds, as long as it has a character per byte. *)
Lemma pack_and_respond_memory awaddr _wdata _wstrb s _data :
  struct_pack (big_endian s) (pack_size s) _wdata = Some _data ->
  0 <= awaddr ->
  (length _data <= String.length _wstrb)%nat ->
  (Z.to_nat awaddr + length _data <= length (memory s))%nat ->
  memory (pack_and_respond awaddr _wdata _wstrb s)
  = take (Z.to_nat awaddr) (memory s) ++ _data
    ++ drop (Z.to_nat awaddr + length _data) (memory s).
Proof.
  intros Hpack Ha Hs Hm. unfold pack_and_respond. rewrite Hpack.
  rewrite (write_bytes_all _wstrb awaddr _data 0 (memory s)) by (simpl; lia).
  simpl. by rewrite !Nat.add_0_r.
Qed.

(** Once [struct] is found, the response carries the configured code. *)
Lemma pack_and_respond_bresp awaddr _wdata _wstrb s d t :
  write_data_task (pack_and_respond awaddr _wdata _wstrb s)
  = Waiting (D_response d t) ->
  bus (pack_and_respond awaddr _wdata _wstrb s) BRESP = bresp s /\
  bus (pack_and_respond awaddr _wdata _wstrb s) BVALID = 1.
Proof.
  unfold pack_and_respond.
  destruct (struct_pack _ _ _) as [_data|]; [|discriminate].
  destruct (write_bytes _ _ _ _ _) as [[e|] mem]; [discriminate|].
  intros _. split; reflexivity.
Qed.

(** C1. A 32-bit little-endian slave holds 0x88776655 at address 4 and
    takes the write of 0xAABBCCDD with strobe 0b0101 to that address.
    The data task ends with [NameError] at the lookup of [struct], so
    that bytes 0 and 2 are not updated; with [struct] found, the byte
    loop stores all four bytes, so that bytes 1 and 3 are not kept. *)
Theorem strobe_is_not_applied :
  match __init__ 32 image false true with
  | Returned s0 =>
      let s1 := run s0 [address_edge 4; data_edge 0xAABBCCDD "0101"] in
      let s2 := step s1 idle in
      memory s2 = image /\
      write_data_task s2 = Crashed NameError /\
      memory (pack_and_respond 4 0xAABBCCDD "0101" s1)
      = [x11; x22; x33; x44; xdd; xcc; xbb; xaa]
  | _ => False
  end.
Proof. vm_compute. auto. Qed.


(** Address 0 is false in [while self._awaddr:], so the address task
    goes on to assign 1 to AWREADY with the latch still set. *)
Lemma address_zero_released x s :
  write_address_task s = Waiting A_latched ->
  _awaddr s = Some 0 ->
  write_address_task (_write_address x s) = Waiting A_idle /\
  bus (_write_address x s) AWREADY = 1 /\
  _awaddr (_write_address x s) = Some 0.
Proof.
  intros Hpc Ha. unfold _write_address. rewrite Hpc, Ha. simpl. auto.
Qed.

(** C4. A write address 0 is latched at the first edge and no data
    comes.  At the second edge AWREADY is 1 again with the latch still
    holding 0, and at the third edge the address 4 is taken and
    replaces it, with no response driven in between. *)
Theorem second_address_taken_after_zero :
  match __init__ 32 image false true with
  | Returned s0 =>
      map view (states s0 [address_edge 0; idle; address_edge 4])
      = [(Some 0, 0, 0, Waiting D_idle);
         (Some 0, 1, 0, Waiting D_idle);
         (Some 4, 0, 0, Waiting D_idle)]
  | _ => False
  end.
Proof. vm_compute. reflexivity. Qed.

Lemma silent_step s x : silent s -> silent (step s x).
Proof.
  intros [Hv Ht]. unfold step.
  assert (Ha : silent (_write_address x s)).
  { unfold silent, _write_address.
    destruct (write_address_task s) as [[| |]|e]; simpl;
      repeat match goal with
             | |- context [if ?b then _ else _] => destruct b; simpl
             end; auto. }
  clear Hv Ht. destruct Ha as [Hv Ht].
  set (s1 := _write_address x s) in *.
  assert (Hd : silent (_write_data x s1)).
  { unfold silent, _write_data, complete_write. rewrite struct_unbound.
    destruct (write_data_task s1) as [[|d t|d t|d t]|e] eqn:Htask; simpl;
      try contradiction;
      repeat match goal with
             | |- context [if ?b then _ else _] => destruct b; simpl
             | |- context [match _awaddr ?s with _ => _ end] =>
                 destruct (_awaddr s); simpl
             end; rewrite ?Htask; auto. }
  clear Hv Ht. destruct Hd as [Hv Ht].
  set (s2 := _write_data x s1) in *.
  unfold silent, _read_data, unpack_and_respond. rewrite struct_unbound.
  destruct (read_data_task s2) as [[|]|e]; simpl;
    repeat match goal with
           | |- context [if ?b then _ else _] => destruct b; simpl
           end; auto.
Qed.

Lemma silent_states xs : forall s, silent s -> Forall silent (states s xs).
Proof.
  induction xs as [|x xs IH]; intros s Hs; simpl; constructor.
  - by apply silent_step.
  - apply IH. by apply silent_step.
Qed.

Lemma bresp_step s x : bresp (step s x) = bresp s.
Proof.
  unfold step, _read_data, _write_data, _write_address, complete_write,
    unpack_and_respond.
  rewrite struct_unbound.
  repeat match goal with
         | |- context [match ?t with _ => _ end] => destruct t; simpl
         end; reflexivity.
Qed.

(** C5. A 32-bit slave is configured with [setWrResponse(2)].  On the
    write of 0xAABBCCDD to address 4 its data task ends with
    [NameError] before it assigns BRESP and BVALID; whatever it
    samples afterwards, BVALID stays 0, and a [write] of a master
    that samples the slave's outputs is still waiting when the trace
    ends. *)
Theorem no_response_is_driven (xs : list sample) a v be al dl sync w :
  match __init__ 32 image false true with
  | Returned s0 =>
      let s := (setWrResponse 2 s0).2 in
      (setWrResponse 2 s0).1 = None /\ bresp s = 2 /\
      write_data_task
        (run s [address_edge 4; data_edge 0xAABBCCDD "1111"; idle])
      = Crashed NameError /\
      Forall (fun s' => bus s' BVALID = 0 /\ bresp s' = 2) (states s xs) /\
      (AXI4LiteMaster.write a v be al dl sync (map wire (states s xs)) w).1
      = Suspended
  | _ => False
  end.
Proof.
  simpl.
  set (s := set_bresp 2 _).
  assert (Hs : silent s) by (split; [reflexivity | exact I]).
  split; [reflexivity|]. split; [reflexivity|]. split; [reflexivity|].
  assert (Hall : Forall (fun s' => bus s' BVALID = 0 /\ bresp s' = 2)
                        (states s xs)).
  { assert (Hb : bresp s = 2) by reflexivity.
    clearbody s. revert s Hs Hb.
    induction xs as [|x xs IH]; intros s Hs Hb; simpl; constructor.
    - split; [apply (silent_step s x Hs) | by rewrite bresp_step].
    - apply IH; [by apply silent_step | by rewrite bresp_step]. }
  split; [exact Hall|].
  apply MasterFacts.write_waits_for_bvalid.
  intros smp Hin. apply list_elem_of_fmap in Hin as (s' & -> & Hin).
  rewrite Forall_forall in Hall. destruct (Hall s' Hin) as [Hv _].
  unfold wire. rewrite Hv. reflexivity.
Qed.

Lemma in_range_0_4_spec code : in_range_0_4 code = true <-> valid_code code.
Proof.
  unfold in_range_0_4, valid_code. rewrite andb_true_iff, Z.leb_le, Z.ltb_lt. lia.
Qed.

(** C6. [setWrResponse] and [setRdResponse] store a code from 0 to 3
    and raise [ValueError] on any other, and then the object is as it
    was; [__init__] raises [ValueError] for a data width other than 32
    and 64, and returns the slave for these two. *)
Theorem configuration_is_validated code s :
  (valid_code code ->
     setWrResponse code s = (None, set_bresp code s) /\
     bresp (setWrResponse code s).2 = code /\
     setRdResponse code s = (None, set_rresp code s) /\
     rresp (setRdResponse code s).2 = code) /\
  (~ valid_code code ->
     setWrResponse code s = (Some ValueError, s) /\
     setRdResponse code s = (Some ValueError, s)) /\
  (forall width mem be sync, width <> 32 -> width <> 64 ->
     __init__ width mem be sync = Raised ValueError) /\
  (forall width mem be, width = 32 \/ width = 64 ->
     exists s0, __init__ width mem be true = Returned s0 /\
                bresp s0 = 0 /\ rresp s0 = 0 /\ memory s0 = mem).
Proof.
  pose proof (in_range_0_4_spec code) as Hspec.
  unfold setWrResponse, setRdResponse.
  split; [|split; [|split]].
  - intros Hc. apply Hspec in Hc. rewrite Hc. simpl. auto.
  - intros Hc. destruct (in_range_0_4 code) eqn:Hr.
    + destruct Hc. by apply Hspec.
    + simpl. auto.
  - intros width mem be sync H32 H64. unfold __init__.
    destruct (Z.eqb_spec width 32); [contradiction|].
    destruct (Z.eqb_spec width 64); [contradiction|]. reflexivity.
  - intros width mem be [-> | ->]; eexists; simpl; eauto.
Qed.

Lemma configuration_is_validated_witness :
  match __init__ 32 image false true with
  | Returned s0 =>
      bresp (setWrResponse 2 s0).2 = 2 /\
      setRdResponse 5 s0 = (Some ValueError, s0) /\
      __init__ 16 image false true = Raised ValueError
  | _ => False
  end.
Proof.
  simpl. set (s0 := Slave _ _ _ _ _ _ _ _ _ _ _ _).
  destruct (configuration_is_validated 2 s0) as [Hok _].
  destruct (configuration_is_validated 5 s0) as (_ & Hbad & Hwidth & _).
  split; [|split].
  - apply Hok. unfold valid_code. lia.
  - apply Hbad. unfold valid_code. lia.
  - apply Hwidth; lia.
Defined.

Lemma lite_read_data_memory x s : memory (_read_data x s) = memory s.
Proof.
  unfold _read_data, unpack_and_respond.
  repeat match goal with
         | |- context [match ?t with _ => _ end] => destruct t; simpl
         end; reflexivity.
Qed.

Lemma unpack_and_respond_memory a s : memory (unpack_and_respond a s) = memory s.
Proof.
  unfold unpack_and_respond. destruct (struct_unpack _ _ _); reflexivity.
Qed.

Lemma lite_write_address_memory x s : memory (_write_address x s) = memory s.
Proof.
  unfold _write_address.
  repeat match goal with
         | |- context [match ?t with _ => _ end] => destruct t; simpl
         end; reflexivity.
Qed.

End LiteFacts.

(** ** The memory image under reads *)
Module MemoryFacts.

(** C10. No read changes the memory image.  In the slave with bursts,
    a cycle of the read task, and any number of them, leaves every
    byte as it was, and a cycle of the whole slave changes the memory
    only as its write task does, which is only on a beat with valid
    data.  In the AXI4-Lite slave the read task leaves the memory as it
    was, also where [struct] is found, so does the address task, and
    an edge of the whole slave changes it only as the write data task
    does. *)
Theorem reads_leave_memory :
  (forall x s,
     AXI4Slave._memory (AXI4Slave._read_data x s) = AXI4Slave._memory s) /\
  (forall xs s,
     AXI4Slave._memory (AXI4Slave.run_read s xs) = AXI4Slave._memory s) /\
  (forall gb s x,
     AXI4Slave._memory (AXI4Slave.step gb s x)
     = AXI4Slave._memory (AXI4Slave._write_data gb x s)) /\
  (forall gb x s,
     AXI4Slave._memory (AXI4Slave._write_data gb x s) = AXI4Slave._memory s \/
     exists b, AXI4Slave.write_task s = Waiting (AXI4Slave.W_beat b) /\
               truthy (AXI4Slave.WVALID x) = true) /\
  (forall x s,
     AXI4LiteSlave.memory (AXI4LiteSlave._read_data x s)
     = AXI4LiteSlave.memory s) /\
  (forall a s,
     AXI4LiteSlave.memory (AXI4LiteSlave.unpack_and_respond a s)
     = AXI4LiteSlave.memory s) /\
  (forall x s,
     AXI4LiteSlave.memory (AXI4LiteSlave._write_address x s)
     = AXI4LiteSlave.memory s) /\
  (forall s x,
     AXI4LiteSlave.memory (AXI4LiteSlave.step s x)
     = AXI4LiteSlave.memory
         (AXI4LiteSlave._write_data x (AXI4LiteSlave._write_address x s))).
Proof.
  repeat split.
  - apply BurstFacts.read_data_memory.
  - intros xs s. apply BurstFacts.run_read_memory.
  - intros gb s x. unfold AXI4Slave.step. simpl.
    apply BurstFacts.read_data_memory.
  - apply BurstFacts.write_data_memory.
  - apply LiteFacts.lite_read_data_memory.
  - apply LiteFacts.unpack_and_respond_memory.
  - apply LiteFacts.lite_write_address_memory.
  - intros s x. unfold AXI4LiteSlave.step.
    apply LiteFacts.lite_read_data_memory.
Qed.

End MemoryFacts.

(** ** The master: the timing of the handshakes *)
Module MasterExtra.
Import AXI4LiteMaster MasterFacts.
Open Scope co_scope.

Lemma edges_eq n : forall tr w, edges n tr w = (Returned tt, set_now (now w + n) w).
Proof.
  induction n as [|n IH]; intros tr w; simpl.
  - unfold ret. by rewrite Nat.add_0_r, set_now_now.
  - unfold bind, RisingEdge. rewrite IH. unfold set_now. simpl.
    by rewrite Nat.add_succ_r.
Qed.

Lemma polls_ready rdy :
  driven_by_master rdy = false ->
  polls (ReadOnly ;;
         r <- value rdy ;
         if truthy r then ret (Some tt)
         else RisingEdge ;; ret None) (ready_test rdy).
Proof.
  intros Hd. split; [reflexivity|]. intros tr w.
  unfold bind, ReadOnly, value, ready_test. rewrite Hd.
  destruct (tr !! now w) as [smp|] eqn:Hs; simpl; [|reflexivity].
  repeat (rewrite Hs; simpl).
  destruct (truthy (smp rdy)); reflexivity.
Qed.

Lemma drive_eq sig v tr w : drive sig v tr w = (Returned tt, assigned sig v w).
Proof. reflexivity. Qed.

(** The tail that the three channel phases share. *)
Lemma handshake_eq rdy valid (rest : co unit) tr w :
  driven_by_master rdy = false ->
  (while_True (ReadOnly ;;
               r <- value rdy ;
               if truthy r then ret (Some tt)
               else RisingEdge ;; ret None) ;;
   RisingEdge ;; drive valid 0 ;; rest) tr w
  = match find_first (ready_test rdy w) (drop (now w) tr) (now w) with
    | Some (_, k) => rest tr (assigned valid 0 (set_now (S k) w))
    | None => (Suspended, set_now (Nat.max (now w) (length tr)) w)
    end.
Proof.
  intros Hd. unfold bind at 1.
  rewrite (while_True_polls _ _ tr w (polls_ready rdy Hd)).
  destruct (find_first _ _ _) as [[[] k]|]; reflexivity.
Qed.

Lemma send_write_address_eq a d tr w :
  _send_write_address a d tr w
  = if locked w write_address_busy then (Suspended, w)
    else let t := (now w + Z.to_nat d)%nat in
         let w1 := assigned AWVALID 1 (assigned AWADDR a
                     (set_now t (set_locked write_address_busy true w))) in
         match find_first (ready_test AWREADY w1) (drop t tr) t with
         | Some (_, k) =>
             (Returned tt,
              phase_end write_address_busy [(AWADDR, a); (AWVALID, 1)]
                        AWVALID t k w)
         | None => (Suspended, set_now (Nat.max t (length tr)) w1)
         end.
Proof.
  unfold _send_write_address. unfold bind at 1. unfold acquire.
  destruct (locked w write_address_busy); [reflexivity|].
  unfold bind at 1. rewrite edges_eq.
  unfold bind at 1. rewrite drive_eq.
  unfold bind at 1. rewrite drive_eq.
  rewrite handshake_eq by reflexivity. simpl.
  destruct (find_first _ _ _) as [[[] k]|]; reflexivity.
Qed.

Lemma send_write_data_eq v d be tr w :
  _send_write_data v d be tr w
  = if locked w write_data_busy then (Suspended, w)
    else let t := (now w + Z.to_nat d)%nat in
         let w1 := assigned WSTRB be (assigned WVALID 1 (assigned WDATA v
                     (set_now t (set_locked write_data_busy true w)))) in
         match find_first (ready_test WREADY w1) (drop t tr) t with
         | Some (_, k) =>
             (Returned tt,
              phase_end write_data_busy [(WDATA, v); (WVALID, 1); (WSTRB, be)]
                        WVALID t k w)
         | None => (Suspended, set_now (Nat.max t (length tr)) w1)
         end.
Proof.
  unfold _send_write_data. unfold bind at 1. unfold acquire.
  destruct (locked w write_data_busy); [reflexivity|].
  unfold bind at 1. rewrite edges_eq.
  unfold bind at 1. rewrite drive_eq.
  unfold bind at 1. rewrite drive_eq.
  unfold bind at 1. rewrite drive_eq.
  rewrite handshake_eq by reflexivity. simpl.
  destruct (find_first _ _ _) as [[[] k]|]; reflexivity.
Qed.

Lemma ready_found rdy w tr t k :
  first_at (fun s => truthy (s rdy)) tr t k ->
  find_first (ready_test rdy w) (drop t tr) t = Some (tt, k).
Proof.
  intros Hf. pose proof Hf as (_ & (smp & Hk & Hp) & _).
  apply (first_at_find _ _ tr t k smp tt Hf Hk).
  - unfold ready_test. by rewrite Hp.
  - intros s Hs. unfold ready_test. by rewrite Hs.
Qed.

Lemma ready_missing rdy w tr t :
  (forall smp, smp ∈ tr -> truthy (smp rdy) = false) ->
  find_first (ready_test rdy w) (drop t tr) t = None.
Proof.
  intros Hno. apply find_first_None. intros smp Hin.
  unfold ready_test. rewrite Hno; [reflexivity|].
  apply list_elem_of_lookup in Hin as [i Hi]. rewrite lookup_drop in Hi.
  apply list_elem_of_lookup. eauto.
Qed.

(** X1. The write address phase, started with its lock free, ends
    one clock edge after the first cycle, [delay] edges or more from
    its start, in which the peer shows AWREADY.  AWADDR and AWVALID
    are assigned when the delay has passed and not before, AWVALID is
    taken back at the end, no other signal is assigned, and the lock
    is free again. *)
Theorem address_phase_handshake a d tr w k :
  locked w write_address_busy = false ->
  first_at (fun s => truthy (s AWREADY)) tr (now w + Z.to_nat d) k ->
  let t := (now w + Z.to_nat d)%nat in
  let w' := (_send_write_address a d tr w).2 in
  (_send_write_address a d tr w).1 = Returned tt /\
  now w' = S k /\
  out w' AWADDR = a /\ out w' AWVALID = 0 /\
  (forall sig, sig <> AWADDR -> sig <> AWVALID -> out w' sig = out w sig) /\
  (forall l, locked w' l = locked w l) /\
  drives w' = [(S k, AWVALID, 0); (t, AWVALID, 1); (t, AWADDR, a)] ++ drives w.
Proof.
  intros Hl Hf t w'. subst w'. rewrite send_write_address_eq, Hl.
  cbv zeta. rewrite (ready_found AWREADY _ tr _ k Hf). simpl.
  repeat split.
  - intros sig H1 H2. destruct (decide (sig = AWVALID)); [contradiction|].
    destruct (decide (sig = AWADDR)); [contradiction|]. reflexivity.
  - intros l. destruct (decide (l = write_address_busy)) as [->|]; [by rewrite Hl|].
    reflexivity.
Qed.

Lemma address_phase_handshake_witness :
  let w := __init__ (fun _ => 32%nat) in
  let w' := (_send_write_address 16 1 (trace_bresp 0) w).2 in
  (_send_write_address 16 1 (trace_bresp 0) w).1 = Returned tt /\
  now w' = 2%nat /\ out w' AWADDR = 16 /\ out w' AWVALID = 0.
Proof.
  intros w w'.
  destruct (address_phase_handshake 16 1 (trace_bresp 0) w 1) as (H1 & H2 & H3 & H4 & _).
  - reflexivity.
  - split; [vm_compute; lia|]. split.
    + eexists. split; reflexivity.
    + intros j smp Hj. vm_compute in Hj. lia.
  - auto.
Defined.

(** X2. The write data phase, started with its lock free, ends one
    clock edge after the first cycle, [delay] edges or more from its
    start, in which the peer shows WREADY.  WDATA, WVALID and WSTRB
    are assigned when the delay has passed, WVALID is taken back at
    the end, no other signal is assigned, and the lock is free
    again. *)
Theorem data_phase_handshake v d be tr w k :
  locked w write_data_busy = false ->
  first_at (fun s => truthy (s WREADY)) tr (now w + Z.to_nat d) k ->
  let t := (now w + Z.to_nat d)%nat in
  let w' := (_send_write_data v d be tr w).2 in
  (_send_write_data v d be tr w).1 = Returned tt /\
  now w' = S k /\
  out w' WDATA = v /\ out w' WSTRB = be /\ out w' WVALID = 0 /\
  (forall sig, sig <> WDATA -> sig <> WSTRB -> sig <> WVALID ->
     out w' sig = out w sig) /\
  (forall l, locked w' l = locked w l) /\
  drives w' = [(S k, WVALID, 0); (t, WSTRB, be); (t, WVALID, 1); (t, WDATA, v)]
              ++ drives w.
Proof.
  intros Hl Hf t w'. subst w'. rewrite send_write_data_eq, Hl.
  cbv zeta. rewrite (ready_found WREADY _ tr _ k Hf). simpl.
  repeat split.
  - intros sig H1 H2 H3. destruct (decide (sig = WVALID)); [contradiction|].
    destruct (decide (sig = WSTRB)); [contradiction|].
    destruct (decide (sig = WDATA)); [contradiction|]. reflexivity.
  - intros l. destruct (decide (l = write_data_busy)) as [->|]; [by rewrite Hl|].
    reflexivity.
Qed.

Lemma data_phase_handshake_witness :
  let w := __init__ (fun _ => 32%nat) in
  let w' := (_send_write_data 7 0 15 (trace_bresp 0) w).2 in
  (_send_write_data 7 0 15 (trace_bresp 0) w).1 = Returned tt /\
  now w' = 2%nat /\ out w' WDATA = 7 /\ out w' WSTRB = 15 /\ out w' WVALID = 0.
Proof.
  intros w w'.
  destruct (data_phase_handshake 7 0 15 (trace_bresp 0) w 1)
    as (H1 & H2 & H3 & H4 & H5 & _).
  - reflexivity.
  - split; [vm_compute; lia|]. split.
    + eexists. split; reflexivity.
    + intros j smp Hj. vm_compute in Hj.
      assert (j = 0%nat) as -> by lia. intros [= <-]. reflexivity.
  - auto.
Defined.

(** The request phase of [write] when both channel phases get their
    ready. *)
Lemma write_request_done a v be al dl (sync : bool) tr w ka kd :
  locked w write_address_busy = false ->
  locked w write_data_busy = false ->
  let t := (now w + (if sync then 1 else 0))%nat in
  first_at (fun s => truthy (s AWREADY)) tr (t + Z.to_nat al) ka ->
  first_at (fun s => truthy (s WREADY)) tr (t + Z.to_nat dl) kd ->
  exists w1,
    write_request a v be al dl sync tr w = (Returned tt, w1) /\
    now w1 = S (Nat.max ka kd) /\
    out w1 AWADDR = a /\ out w1 AWVALID = 0 /\
    out w1 WDATA = v /\ out w1 WSTRB = be /\ out w1 WVALID = 0 /\
    (forall sig, sig <> AWADDR -> sig <> AWVALID -> sig <> WDATA ->
       sig <> WSTRB -> sig <> WVALID -> out w1 sig = out w sig) /\
    (forall l, locked w1 l = locked w l).
Proof.
  intros Hla Hld t Hfa Hfd.
  set (w0 := if sync then set_now (S (now w)) w else w).
  assert (Hw0 : now w0 = t /\ out w0 = out w /\ locked w0 = locked w).
  { subst w0 t. destruct sync; simpl; repeat split; try reflexivity; lia. }
  destruct Hw0 as (Hn0 & Ho0 & Hl0).
  assert (Hstart : (if sync then RisingEdge else @ret unit tt) tr w
                   = (Returned tt, w0)).
  { subst w0. by destruct sync. }
  unfold write_request. unfold bind at 1. rewrite Hstart.
  unfold bind at 1. unfold fork at 1.
  rewrite send_write_address_eq, Hl0, Hla. cbv zeta. rewrite Hn0.
  rewrite (ready_found AWREADY _ tr _ ka Hfa).
  unfold bind at 1. unfold fork at 1.
  rewrite send_write_data_eq.
  assert (Hfree : forall t' wx, locked (set_now t'
             (phase_end write_address_busy [(AWADDR, a); (AWVALID, 1)] AWVALID
                        (t + Z.to_nat al) ka wx)) write_data_busy
           = locked wx write_data_busy) by reflexivity.
  rewrite Hfree, Hl0, Hld. cbv zeta.
  change (now (set_now t _)) with t.
  rewrite (ready_found WREADY _ tr _ kd Hfd).
  pose proof Hfa as (Hta & _). pose proof Hfd as (Htd & _).
  eexists. split; [reflexivity|]. simpl. rewrite ?Hn0, ?Ho0, ?Hl0.
  repeat split.
  - lia.
  - intros sig H1 H2 H3 H4 H5.
    repeat match goal with
           | |- context [decide (sig = ?x)] =>
               destruct (decide (sig = x)); [contradiction|]
           end.
    reflexivity.
  - intros l. destruct l; simpl; congruence.
Qed.

(** X3. A [write] on a master with free locks and BREADY high runs
    as follows: address and data phase each end an edge after their
    ready, the response wait starts at the later of the two ends, and
    the call ends an edge after the first cycle from there that shows
    BVALID, with what the BRESP of that cycle decides.  It leaves
    AWVALID and WVALID at 0, the payload signals at the values
    written, every other signal and the locks as they were. *)
Theorem write_timing a v be al dl (sync : bool) tr w ka kd kb smp :
  locked w write_address_busy = false ->
  locked w write_data_busy = false ->
  truthy (out w BREADY) = true ->
  let t := (now w + (if sync then 1 else 0))%nat in
  first_at (fun s => truthy (s AWREADY)) tr (t + Z.to_nat al) ka ->
  first_at (fun s => truthy (s WREADY)) tr (t + Z.to_nat dl) kd ->
  first_at (fun s => truthy (s BVALID)) tr (S (Nat.max ka kd)) kb ->
  tr !! kb = Some smp ->
  let w' := (write a v be al dl sync tr w).2 in
  (write a v be al dl sync tr w).1 = write_result a (smp BRESP) /\
  now w' = S kb /\
  out w' AWVALID = 0 /\ out w' WVALID = 0 /\
  out w' AWADDR = a /\ out w' WDATA = v /\ out w' WSTRB = be /\
  (forall sig, sig <> AWADDR -> sig <> AWVALID -> sig <> WDATA ->
     sig <> WSTRB -> sig <> WVALID -> out w' sig = out w sig) /\
  (forall l, locked w' l = locked w l).
Proof.
  intros Hla Hld Hb t Hfa Hfd Hfb Hk w'. subst w'.
  destruct (write_request_done a v be al dl sync tr w ka kd Hla Hld Hfa Hfd)
    as (w1 & Hreq & Hn1 & Ha & Hav & Hd & Hs & Hdv & Hother & Hlocks).
  rewrite write_eq, Hreq, Hn1.
  assert (Hsmp : truthy (smp BVALID) = true).
  { destruct Hfb as (_ & (smp' & Hk' & Hp) & _). congruence. }
  rewrite (first_at_find (bresp_sampled w1) _ tr _ kb smp (smp BRESP) Hfb Hk).
  - simpl. repeat split; auto.
  - unfold bresp_sampled. rewrite Hsmp, Hother by discriminate. by rewrite Hb.
  - intros s Hs'. unfold bresp_sampled. by rewrite Hs'.
Qed.

Lemma write_timing_witness :
  let w := __init__ (fun _ => 32%nat) in
  let w' := (write 16 7 15 0 0 true (trace_bresp 0) w).2 in
  (write 16 7 15 0 0 true (trace_bresp 0) w).1 = Returned 0 /\
  now w' = 4%nat /\ out w' AWVALID = 0 /\ out w' WVALID = 0.
Proof.
  intros w w'.
  destruct (write_timing 16 7 15 0 0 true (trace_bresp 0) w 1 1 3
              (samp [(BVALID, 1); (BRESP, 0)]))
    as (H1 & H2 & H3 & H4 & _); try reflexivity.
  - split; [vm_compute; lia|]. split.
    + eexists. split; reflexivity.
    + intros j smp Hj. vm_compute in Hj. lia.
  - split; [vm_compute; lia|]. split.
    + eexists. split; reflexivity.
    + intros j smp Hj. vm_compute in Hj. lia.
  - split; [vm_compute; lia|]. split.
    + eexists. split; reflexivity.
    + intros j smp Hj. vm_compute in Hj.
      assert (j = 2%nat) as -> by lia. intros [= <-]. reflexivity.
  - auto.
Defined.

Lemma read_request_eq a (sync : bool) tr w :
  read_request a sync tr w
  = let w0 := if sync then set_now (S (now w)) w else w in
    let w1 := assigned ARVALID 1 (assigned ARADDR a w0) in
    match find_first (ready_test ARREADY w1) (drop (now w0) tr) (now w0) with
    | Some (_, k) => (Returned tt, assigned ARVALID 0 (set_now (S k) w1))
    | None => (Suspended, set_now (Nat.max (now w0) (length tr)) w1)
    end.
Proof.
  unfold read_request. unfold bind at 1.
  assert (Hstart : (if sync then RisingEdge else @ret unit tt) tr w
                   = (Returned tt, if sync then set_now (S (now w)) w else w))
    by (by destruct sync).
  rewrite Hstart. cbv zeta.
  set (w0 := if sync then set_now (S (now w)) w else w).
  unfold bind at 1. rewrite drive_eq.
  unfold bind at 1. rewrite drive_eq.
  unfold bind at 1.
  rewrite (while_True_polls _ _ tr _ (polls_ready ARREADY eq_refl)).
  simpl now.
  destruct (find_first _ _ _) as [[[] k]|]; reflexivity.
Qed.

(** X4. A [read] on a master with RREADY high ends in the first
    cycle that shows RVALID after the cycle in which the peer showed
    ARREADY, and what the RRESP of that cycle decides is its outcome:
    the RDATA of that cycle or [AXIProtocolError].  It leaves ARADDR
    at the address read, ARVALID at 0, every other signal and the
    locks as they were. *)
Theorem read_timing a (sync : bool) tr w ka kr smp :
  truthy (out w RREADY) = true ->
  let t := (now w + (if sync then 1 else 0))%nat in
  first_at (fun s => truthy (s ARREADY)) tr t ka ->
  first_at (fun s => truthy (s RVALID)) tr (S ka) kr ->
  tr !! kr = Some smp ->
  let w' := (read a sync tr w).2 in
  (read a sync tr w).1 = read_result a (smp RDATA) (smp RRESP) /\
  now w' = kr /\
  out w' ARADDR = a /\ out w' ARVALID = 0 /\
  (forall sig, sig <> ARADDR -> sig <> ARVALID -> out w' sig = out w sig) /\
  (forall l, locked w' l = locked w l).
Proof.
  intros Hr t Hfa Hfr Hk w'. subst w'.
  rewrite read_eq, read_request_eq. cbv zeta.
  set (w0 := if sync then set_now (S (now w)) w else w).
  assert (Hw0 : now w0 = t /\ out w0 = out w /\ locked w0 = locked w).
  { subst w0 t. destruct sync; simpl; repeat split; try reflexivity; lia. }
  destruct Hw0 as (Hn0 & Ho0 & Hl0).
  rewrite Hn0, (ready_found ARREADY _ tr _ ka Hfa).
  assert (Hsmp : truthy (smp RVALID) = true).
  { destruct Hfr as (_ & (smp' & Hk' & Hp) & _). congruence. }
  simpl now.
  rewrite (first_at_find _ _ tr _ kr smp (smp RDATA, smp RRESP) Hfr Hk).
  - simpl. rewrite Ho0, Hl0. repeat split.
    intros sig H1 H2. destruct (decide (sig = ARVALID)); [contradiction|].
    destruct (decide (sig = ARADDR)); [contradiction|]. reflexivity.
  - unfold rdata_sampled. simpl. rewrite Hsmp, Ho0. by rewrite Hr.
  - intros s Hs'. unfold rdata_sampled. by rewrite Hs'.
Qed.

Lemma read_timing_witness :
  let w := __init__ (fun _ => 32%nat) in
  let w' := (read 16 true (trace_rresp 99 0) w).2 in
  (read 16 true (trace_rresp 99 0) w).1 = Returned 99 /\
  now w' = 3%nat /\ out w' ARADDR = 16 /\ out w' ARVALID = 0.
Proof.
  intros w w'.
  destruct (read_timing 16 true (trace_rresp 99 0) w 1 3
              (samp [(RVALID, 1); (RDATA, 99); (RRESP, 0)]))
    as (H1 & H2 & H3 & H4 & _); try reflexivity.
  - split; [vm_compute; lia|]. split.
    + eexists. split; reflexivity.
    + intros j smp Hj. vm_compute in Hj. lia.
  - split; [vm_compute; lia|]. split.
    + eexists. split; reflexivity.
    + intros j smp Hj.
      assert (j = 2%nat) as -> by lia. intros [= <-]. reflexivity.
  - auto.
Defined.

Lemma write_request_stalls a v be al dl (sync : bool) tr w :
  (forall smp, smp ∈ tr -> truthy (smp AWREADY) = false) \/
  (forall smp, smp ∈ tr -> truthy (smp WREADY) = false) ->
  (write_request a v be al dl sync tr w).1 = Suspended.
Proof.
  intros Hno. unfold write_request. unfold bind at 1.
  destruct ((if sync then RisingEdge else @ret unit tt) tr w) as [[[]|e|] w0] eqn:Hs;
    [| destruct sync; discriminate | destruct sync; discriminate].
  unfold bind at 1. unfold fork at 1.
  pose proof (calm_send_write_address a al tr w0) as Hca.
  pose proof (send_write_address_eq a al tr w0) as Hea.
  destruct (_send_write_address a al tr w0) as [oa wa].
  unfold bind at 1. unfold fork at 1.
  pose proof (send_write_data_eq v dl be tr (set_now (now w0) wa)) as Hed.
  destruct (_send_write_data v dl be tr (set_now (now w0) wa)) as [od wd].
  unfold bind, join.
  destruct Hno as [Hno | Hno].
  - destruct (locked w0 write_address_busy); cbv beta iota zeta in Hea.
    + apply (f_equal fst) in Hea; simpl in Hea; subst oa; reflexivity.
    + rewrite ready_missing in Hea by exact Hno.
      apply (f_equal fst) in Hea; simpl in Hea; subst oa; reflexivity.
  - destruct oa as [[]|e|]; [| destruct (Hca e); reflexivity | reflexivity].
    destruct (locked (set_now (now w0) wa) write_data_busy);
      cbv beta iota zeta in Hed.
    + apply (f_equal fst) in Hed; simpl in Hed; subst od; reflexivity.
    + rewrite ready_missing in Hed by exact Hno.
      apply (f_equal fst) in Hed; simpl in Hed; subst od; reflexivity.
Qed.

Lemma read_waits_for_rvalid a sync tr w :
  (forall smp, smp ∈ tr -> truthy (smp RVALID) = false) ->
  (read a sync tr w).1 = Suspended.
Proof.
  intros Hno. rewrite read_eq.
  pose proof (calm_read_request a sync tr w) as Hcalm.
  destruct (read_request a sync tr w) as [[[]|e|] w1]; simpl in *.
  - rewrite find_first_None; [reflexivity|].
    intros smp Hin. unfold rdata_sampled.
    rewrite Hno; [reflexivity|].
    apply list_elem_of_lookup in Hin as [i Hi]. rewrite lookup_drop in Hi.
    apply list_elem_of_lookup. eauto.
  - destruct (Hcalm e). reflexivity.
  - reflexivity.
Qed.

(** X5. A peer that never shows one of the signals a call waits for
    blocks the call: on every trace, however long, without AWREADY,
    without WREADY or without BVALID a [write] is still waiting at the
    end of the trace, and so is a [read] without ARREADY or without
    RVALID.  Neither ends early and neither raises. *)
Theorem stalled_peer_blocks (sync : bool) tr w :
  (forall a v be al dl sig,
     sig = AWREADY \/ sig = WREADY \/ sig = BVALID ->
     (forall smp, smp ∈ tr -> truthy (smp sig) = false) ->
     (write a v be al dl sync tr w).1 = Suspended) /\
  (forall a sig,
     sig = ARREADY \/ sig = RVALID ->
     (forall smp, smp ∈ tr -> truthy (smp sig) = false) ->
     (read a sync tr w).1 = Suspended).
Proof.
  split.
  - intros a v be al dl sig [-> | [-> | ->]] Hno.
    + rewrite write_eq.
      pose proof (write_request_stalls a v be al dl sync tr w (or_introl Hno)) as H.
      destruct (write_request a v be al dl sync tr w) as [[[]|e|] w1];
        simpl in *; congruence.
    + rewrite write_eq.
      pose proof (write_request_stalls a v be al dl sync tr w (or_intror Hno)) as H.
      destruct (write_request a v be al dl sync tr w) as [[[]|e|] w1];
        simpl in *; congruence.
    + by apply write_waits_for_bvalid.
  - intros a sig [-> | ->] Hno.
    + rewrite read_eq, read_request_eq. cbv zeta.
      by rewrite ready_missing.
    + by apply read_waits_for_rvalid.
Qed.

Lemma stalled_peer_blocks_witness :
  (write 16 7 15 0 0 true (repeat idle 50) (__init__ (fun _ => 32%nat))).1
  = Suspended /\
  (read 16 true (repeat idle 50) (__init__ (fun _ => 32%nat))).1 = Suspended.
Proof.
  destruct (stalled_peer_blocks true (repeat idle 50) (__init__ (fun _ => 32%nat)))
    as [Hw Hr].
  split.
  - apply (Hw 16 7 15 0 0 AWREADY); [by left|].
    intros smp Hin. apply list_elem_of_In, repeat_spec in Hin. by subst.
  - apply (Hr 16 ARREADY); [by left|].
    intros smp Hin. apply list_elem_of_In, repeat_spec in Hin. by subst.
Defined.

End MasterExtra.

(** ** The burst slave: whole runs with both tasks *)
Module BurstExtra.
Import AXI4Slave BurstFacts.

Lemma seen_emit {A} (f : nat * event -> option A) e s :
  seen f (emit e s)
  = seen f s ++ match f (cycle s, e) with Some a => [a] | None => [] end.
Proof.
  unfold seen, emit. simpl. rewrite omap_app. simpl.
  by destruct (f (cycle s, e)).
Qed.

Lemma seen_emit_blind {A} (f : nat * event -> option A) e s :
  f (cycle s, e) = None -> seen f (emit e s) = seen f s.
Proof. intros H. by rewrite seen_emit, H, app_nil_r. Qed.

(** *** What one task leaves alone *)

Lemma write_address_reads {A} (f : nat * event -> option A) x s :
  write_blind f ->
  let s' := write_address x s in
  read_task s' = read_task s /\ cycle s' = cycle s /\
  big_endian s' = big_endian s /\ _memory s' = _memory s /\
  seen f s' = seen f s.
Proof.
  intros Hf. unfold write_address.
  destruct (truthy (AWVALID x)); [destruct (latch _ _ _)|]; cbv zeta;
    repeat split; simpl;
    change (seen f (set_write_task ?t ?s)) with (seen f s);
    rewrite ?seen_emit_blind; try reflexivity; by apply Hf.
Qed.

Lemma write_data_reads {A} (f : nat * event -> option A) gb x s :
  write_blind f ->
  let s' := _write_data gb x s in
  read_task s' = read_task s /\ cycle s' = cycle s /\
  big_endian s' = big_endian s /\ seen f s' = seen f s.
Proof.
  intros Hf. unfold _write_data.
  destruct (write_task s) as [[|b]|e]; [| |by repeat split].
  - destruct (write_address_reads f x s Hf) as (H1 & H2 & H3 & _ & H4).
    by repeat split.
  - unfold write_beat. destruct (truthy (WVALID x)); [|by repeat split].
    cbv zeta. destruct (burst_count (count_down b) =? 0).
    + match goal with |- context [write_address x ?s0] =>
        destruct (write_address_reads f x s0 Hf) as (H1 & H2 & H3 & _ & H4)
      end.
      rewrite H1, H2, H3, H4. repeat split.
      rewrite seen_emit_blind by (by apply Hf). reflexivity.
    + repeat split. simpl.
      change (seen f (set_write_task ?t ?s)) with (seen f s).
      rewrite seen_emit_blind by (by apply Hf). reflexivity.
Qed.

Lemma read_address_writes {A} (f : nat * event -> option A) x s :
  let s' := read_address x s in
  write_task s' = write_task s /\ cycle s' = cycle s /\
  big_endian s' = big_endian s /\ _memory s' = _memory s /\
  seen f s' = seen f s.
Proof.
  unfold read_address.
  destruct (truthy (ARVALID x)); [destruct (latch _ _ _)|];
    by repeat split.
Qed.

Lemma read_beat_writes {A} (f : nat * event -> option A) b x s :
  read_blind f ->
  let s' := read_beat b x s in
  write_task s' = write_task s /\ cycle s' = cycle s /\
  big_endian s' = big_endian s /\ _memory s' = _memory s /\
  seen f s' = seen f s.
Proof.
  intros Hf. unfold read_beat.
  destruct (truthy (RREADY x)); [destruct (burst_count b =? 1)|]; cbv zeta;
    repeat split; simpl;
    change (seen f (set_read_task ?t ?s)) with (seen f s);
    rewrite ?seen_emit_blind; try reflexivity; by apply Hf.
Qed.

Lemma read_data_writes {A} (f : nat * event -> option A) x s :
  read_blind f ->
  let s' := _read_data x s in
  write_task s' = write_task s /\ cycle s' = cycle s /\
  big_endian s' = big_endian s /\ _memory s' = _memory s /\
  seen f s' = seen f s.
Proof.
  intros Hf. unfold _read_data.
  destruct (read_task s) as [[|b|b]|e]; [| | |by repeat split].
  - apply read_address_writes.
  - by apply read_beat_writes.
  - unfold read_next. cbv zeta.
    assert (He : seen f (emit (Drive RLAST 0) s) = seen f s)
      by (apply seen_emit_blind; by apply Hf).
    destruct (burst_count (count_down b) =? 0).
    + destruct (read_address_writes f x (emit (Drive RLAST 0) s))
        as (H1 & H2 & H3 & H4 & H5).
      rewrite H1, H2, H3, H4, H5, He. by repeat split.
    + destruct (read_beat_writes f (count_down b) x (emit (Drive RLAST 0) s) Hf)
        as (H1 & H2 & H3 & H4 & H5).
      rewrite H1, H2, H3, H4, H5, He. by repeat split.
Qed.

(** *** Each task sees only its own part of the slave *)

Lemma same_reads_emit {A} (f : nat * event -> option A) e e' s s' :
  same_reads f s s' -> f (cycle s, e) = f (cycle s, e') ->
  same_reads f (emit e s) (emit e' s').
Proof.
  intros (Ht & Hc & Hl) He. repeat split; simpl; [done | done |].
  rewrite !seen_emit, Hl, <- Hc, He. reflexivity.
Qed.

Lemma same_reads_set {A} (f : nat * event -> option A) t s s' :
  same_reads f s s' -> same_reads f (set_read_task t s) (set_read_task t s').
Proof. intros (Ht & Hc & Hl). by repeat split. Qed.

Lemma same_reads_address {A} (f : nat * event -> option A) x s s' :
  same_reads f s s' -> same_reads f (read_address x s) (read_address x s').
Proof.
  intros H. unfold read_address.
  destruct (truthy (ARVALID x)); [destruct (latch _ _ _)|];
    by apply same_reads_set.
Qed.

(** [f] cannot tell the words that the two memories hold. *)
Lemma same_reads_beat {A} (f : nat * event -> option A) b x s s' :
  (forall c st en, f (c, DriveWord RDATA (slice (_memory s) st en))
                   = f (c, DriveWord RDATA (slice (_memory s') st en))) ->
  same_reads f s s' -> same_reads f (read_beat b x s) (read_beat b x s').
Proof.
  intros Hm H. unfold read_beat. cbv zeta.
  apply same_reads_set.
  destruct (truthy (RREADY x)); [|by apply same_reads_emit].
  destruct (burst_count b =? 1);
    repeat (apply same_reads_emit; [|try reflexivity]); try exact H;
    simpl; apply Hm.
Qed.

Lemma same_reads_data {A} (f : nat * event -> option A) x s s' :
  (forall c st en, f (c, DriveWord RDATA (slice (_memory s) st en))
                   = f (c, DriveWord RDATA (slice (_memory s') st en))) ->
  same_reads f s s' -> same_reads f (_read_data x s) (_read_data x s').
Proof.
  intros Hm H. unfold _read_data. destruct H as (Ht & Hc & Hl).
  rewrite <- Ht. assert (H : same_reads f s s') by done.
  destruct (read_task s) as [[|b|b]|e]; [| | |exact H].
  - by apply same_reads_address.
  - by apply same_reads_beat.
  - unfold read_next. cbv zeta.
    destruct (burst_count (count_down b) =? 0).
    + apply same_reads_address. by apply same_reads_emit.
    + apply same_reads_beat; [exact Hm | by apply same_reads_emit].
Qed.

Lemma same_writes_emit {A} (f : nat * event -> option A) e s s' :
  same_writes f s s' -> same_writes f (emit e s) (emit e s').
Proof.
  intros (Ht & Hm & Hb & Hc & Hl). repeat split; simpl; try done.
  rewrite !seen_emit, Hl, <- Hc. reflexivity.
Qed.

Lemma same_writes_set {A} (f : nat * event -> option A) t s s' :
  same_writes f s s' -> same_writes f (set_write_task t s) (set_write_task t s').
Proof. intros (Ht & Hm & Hb & Hc & Hl). by repeat split. Qed.

Lemma same_writes_memory {A} (f : nat * event -> option A) m s s' :
  same_writes f s s' -> same_writes f (set_memory m s) (set_memory m s').
Proof. intros (Ht & Hm & Hb & Hc & Hl). by repeat split. Qed.

Lemma same_writes_address {A} (f : nat * event -> option A) x s s' :
  same_writes f s s' -> same_writes f (write_address x s) (write_address x s').
Proof.
  intros H. unfold write_address. cbv zeta.
  destruct (truthy (AWVALID x)); [destruct (latch _ _ _)|];
    apply same_writes_set; repeat apply same_writes_emit; exact H.
Qed.

Lemma same_writes_data {A} (f : nat * event -> option A) gb x s s' :
  same_writes f s s' ->
  same_writes f (_write_data gb x s) (_write_data gb x s').
Proof.
  intros H. unfold _write_data. destruct H as (Ht & Hm & Hb & Hc & Hl).
  rewrite <- Ht. assert (H : same_writes f s s') by done.
  destruct (write_task s) as [[|b]|e]; [| |exact H].
  - by apply same_writes_address.
  - unfold write_beat. rewrite <- Hm, <- Hb. cbv zeta.
    destruct (truthy (WVALID x)); [|by apply same_writes_set].
    destruct (burst_count (count_down b) =? 0).
    + apply same_writes_address, same_writes_emit. by apply same_writes_memory.
    + apply same_writes_set, same_writes_emit. by apply same_writes_memory.
Qed.

Lemma same_writes_step {A} (f : nat * event -> option A) gb x s s' :
  read_blind f -> same_writes f s s' ->
  same_writes f (step gb s x) (tick (_write_data gb x s')).
Proof.
  intros Hf H. apply (same_writes_data f gb x) in H.
  destruct H as (Ht & Hm & Hb & Hc & Hl).
  destruct (read_data_writes f x (_write_data gb x s) Hf)
    as (H1 & H2 & H3 & H4 & H5).
  unfold step. repeat split; simpl; try congruence.
  change (seen f (tick ?s)) with (seen f s). congruence.
Qed.

(** The write task of the slave runs as if it were alone. *)
Lemma run_write_side {A} (f : nat * event -> option A) gb xs :
  read_blind f -> forall s s',
  same_writes f s s' -> same_writes f (run gb s xs) (run_write gb s' xs).
Proof.
  intros Hf. induction xs as [|x xs IH]; intros s s' H; [exact H|].
  apply IH. by apply same_writes_step.
Qed.

Lemma same_reads_step {A} (f : nat * event -> option A) gb x s s' :
  write_blind f ->
  (forall c st en, f (c, DriveWord RDATA (slice (_memory (_write_data gb x s)) st en))
                   = f (c, DriveWord RDATA (slice (_memory s') st en))) ->
  same_reads f s s' ->
  same_reads f (step gb s x) (tick (_read_data x s')).
Proof.
  intros Hf Hm (Ht & Hc & Hl).
  destruct (write_data_reads f gb x s Hf) as (H1 & H2 & H3 & H4).
  assert (H : same_reads f (_write_data gb x s) s')
    by (repeat split; congruence).
  apply (same_reads_data f x) in H; [|exact Hm].
  destruct H as (Ht' & Hc' & Hl').
  unfold step. repeat split; simpl; try congruence.
  exact Hl'.
Qed.

(** What the read task does, the words it drives apart, does not
    depend on the write task. *)
Lemma run_read_side {A} (f : nat * event -> option A) gb xs :
  write_blind f ->
  (forall c b b', f (c, DriveWord RDATA b) = f (c, DriveWord RDATA b')) ->
  forall s s',
  same_reads f s s' -> same_reads f (run gb s xs) (run_read s' xs).
Proof.
  intros Hf Hm. induction xs as [|x xs IH]; intros s s' H; [exact H|].
  apply IH. apply same_reads_step; [exact Hf | intros; apply Hm | exact H].
Qed.

Lemma write_quiet_step gb x xs s :
  write_quiet s (x :: xs) ->
  write_task (_write_data gb x s) = write_task s /\
  _memory (_write_data gb x s) = _memory s /\
  write_quiet (step gb s x) xs.
Proof.
  assert (Hr : forall s0, write_task (step gb s0 x) = write_task (_write_data gb x s0)).
  { intros s0. unfold step. simpl.
    by destruct (read_data_writes (fun _ => @None unit) x (_write_data gb x s0))
      as (H1 & _). }
  intros [[e He] | [Hs Hall]].
  - unfold _write_data in *. rewrite ?Hr. unfold _write_data. rewrite He.
    repeat split; try done. left. exists e. rewrite Hr.
    unfold _write_data. by rewrite He.
  - inversion Hall as [|? ? Hx Hxs]; subst.
    assert (Hw : _write_data gb x s
                 = set_write_task (Waiting W_address) (emit (Drive WREADY 0) s)).
    { unfold _write_data. rewrite Hs. unfold write_address. by rewrite Hx. }
    rewrite Hw. repeat split; try done.
    right. split; [|exact Hxs]. rewrite Hr, Hw. reflexivity.
Qed.

(** The words the read task drives are those of the memory, as long
    as the write task stores nothing. *)
Lemma run_read_idle {A} (f : nat * event -> option A) gb xs :
  write_blind f -> forall s s',
  write_quiet s xs -> _memory s = _memory s' ->
  same_reads f s s' ->
  same_reads f (run gb s xs) (run_read s' xs) /\
  _memory (run gb s xs) = _memory s /\
  write_task (run gb s xs) = write_task s.
Proof.
  intros Hf. induction xs as [|x xs IH]; intros s s' Hq Hm H; [done|].
  destruct (write_quiet_step gb x xs s Hq) as (Ht1 & Hm1 & Hq1).
  assert (Hmem : _memory (step gb s x) = _memory s).
  { unfold step. simpl. by rewrite read_data_memory. }
  assert (Htask : write_task (step gb s x) = write_task s).
  { unfold step. simpl.
    destruct (read_data_writes (fun _ => @None unit) x (_write_data gb x s))
      as (H1 & _); [done|]. congruence. }
  destruct (IH (step gb s x) (tick (_read_data x s')) Hq1) as (Ha & Hb & Hc).
  - rewrite Hmem. simpl. by rewrite read_data_memory.
  - apply same_reads_step; [exact Hf | | exact H].
    intros. by rewrite Hm1, Hm.
  - split; [exact Ha|]. split; simpl; congruence.
Qed.

(** A read task that is over, or is shown no address, does nothing. *)
Lemma run_read_quiet {A} (f : nat * event -> option A) gb xs :
  write_blind f -> forall s,
  read_quiet s xs ->
  read_task (run gb s xs) = read_task s /\ seen f (run gb s xs) = seen f s.
Proof.
  intros Hf. induction xs as [|x xs IH]; intros s Hq; [done|].
  destruct (write_data_reads f gb x s Hf) as (H1 & H2 & H3 & H4).
  assert (Hstep : _read_data x (_write_data gb x s)
                  = set_read_task (read_task s) (_write_data gb x s)).
  { unfold _read_data. rewrite H1.
    destruct Hq as [[e He] | [Hs Hall]].
    - rewrite He. rewrite <- He, <- H1. by destruct (_write_data gb x s).
    - rewrite Hs. inversion Hall as [|? ? Hx Hxs]; subst.
      unfold read_address. by rewrite Hx. }
  assert (Hq1 : read_quiet (step gb s x) xs).
  { unfold step. rewrite Hstep.
    destruct Hq as [[e He] | [Hs Hall]]; [left; by exists e|].
    right. split; [exact Hs | by inversion Hall]. }
  destruct (IH _ Hq1) as (Ha & Hb).
  simpl. fold (step gb s x). fold (run gb (step gb s x) xs).
  rewrite Ha, Hb. unfold step. rewrite Hstep. by split.
Qed.

(** *** The memory after a write burst *)

Lemma length_valid_words gb be xs :
  length (valid_words gb be xs) = valid_cycles xs.
Proof.
  induction xs as [|x xs IH]; [reflexivity|]. simpl.
  rewrite length_app, IH. by destruct (truthy (WVALID x)).
Qed.

Lemma write_idle_memory gb xs : forall s,
  valid_cycles xs = O -> _memory (run_write gb s xs) = _memory s.
Proof.
  induction xs as [|x xs IH]; intros s Hv; [reflexivity|].
  simpl in Hv. destruct (truthy (WVALID x)) eqn:Hx; [discriminate|].
  rewrite run_write_cons, IH by exact Hv. simpl.
  destruct (write_data_memory gb x s) as [H | (b & _ & H)]; congruence.
Qed.

Lemma beat_end_start b : beat_end b = beat_start b + bytes_in_beat b.
Proof. unfold beat_start, beat_end. ring. Qed.

Lemma write_beats_memory gb xs : forall s b,
  write_task s = Waiting (W_beat b) ->
  Z.of_nat (valid_cycles xs) <= burst_count b ->
  0 <= beat_start b -> 0 <= bytes_in_beat b ->
  Forall (fun x => truthy (WVALID x) = true ->
                   length (gb (big_endian s) (WDATA x))
                   = Z.to_nat (bytes_in_beat b)) xs ->
  (Z.to_nat (beat_start b) + valid_cycles xs * Z.to_nat (bytes_in_beat b)
   <= length (_memory s))%nat ->
  _memory (run_write gb s xs)
  = take (Z.to_nat (beat_start b)) (_memory s)
    ++ concat (valid_words gb (big_endian s) xs)
    ++ drop (Z.to_nat (beat_start b)
             + valid_cycles xs * Z.to_nat (bytes_in_beat b)) (_memory s).
Proof.
  induction xs as [|x xs IH]; intros s b Hs Hn Hst Hbb Hw Hlen.
  - simpl. rewrite Nat.add_0_r. symmetry. apply take_drop.
  - inversion Hw as [|? ? Hx Hxs]; subst.
    rewrite run_write_cons. simpl valid_cycles in *. simpl valid_words.
    unfold _write_data. rewrite Hs. unfold write_beat.
    destruct (truthy (WVALID x)) eqn:Hv; cbv zeta.
    + specialize (Hx eq_refl).
      set (w := gb (big_endian s) (WDATA x)) in *.
      set (m := _memory s) in *.
      set (stn := Z.to_nat (beat_start b)) in *.
      set (bn := Z.to_nat (bytes_in_beat b)) in *.
      assert (Hen : Z.to_nat (beat_end b) = (stn + bn)%nat)
        by (rewrite beat_end_start; subst stn bn; lia).
      assert (Hm1 : slice_assign m (beat_start b) (beat_end b) w
                    = take stn m ++ w ++ drop (stn + bn) m).
      { unfold slice_assign. fold stn. rewrite Hen.
        by replace (stn `max` (stn + bn))%nat with (stn + bn)%nat by lia. }
      assert (Htk : length (take stn m) = stn)
        by (apply length_take_le; lia).
      destruct (Z.eqb_spec (burst_count (count_down b)) 0) as [Hz|Hz].
      * assert (Hv0 : valid_cycles xs = O) by (simpl in Hz; lia).
        rewrite (write_idle_memory gb xs _ Hv0).
        assert (Hnil : valid_words gb (big_endian s) xs = []).
        { apply length_zero_iff_nil. by rewrite length_valid_words. }
        rewrite Hnil, Hv0. simpl. rewrite write_address_memory. simpl.
        rewrite Hm1, app_nil_r. do 3 f_equal. lia.
      * assert (Hbs : beat_start (count_down b) = beat_end b)
          by (unfold beat_end, beat_start, count_down; simpl; ring).
        rewrite (IH _ (count_down b));
          [ | reflexivity | simpl; lia | rewrite Hbs, beat_end_start; lia
            | exact Hbb | exact Hxs | ].
        -- rewrite Hbs. simpl. rewrite Hen, Hm1. fold bn.
           rewrite (app_assoc (take stn m) w).
           rewrite take_app_length' by (rewrite length_app; lia).
           rewrite <- Nat.add_assoc.
           replace (stn + (bn + valid_cycles xs * bn))%nat
             with (length (take stn m ++ w) + valid_cycles xs * bn)%nat
             by (rewrite length_app; lia).
           rewrite drop_app_add, drop_drop.
           rewrite <- !app_assoc. do 3 f_equal.
           by rewrite length_app, Htk, Hx.
        -- rewrite Hbs. simpl. rewrite Hen, Hm1. fold bn.
           rewrite !length_app, Htk, length_drop. lia.
    + rewrite (IH _ b); simpl; try done; lia.
Qed.

Lemma write_quiet_run gb xs : forall s,
  write_quiet s xs ->
  write_task (run_write gb s xs) = write_task s.
Proof.
  induction xs as [|x xs IH]; intros s Hq; [reflexivity|].
  rewrite run_write_cons.
  destruct (write_quiet_step gb x xs s Hq) as (Ht & _ & Hq').
  rewrite IH; [exact Ht|].
  destruct Hq' as [[e He] | [Hs Hall]].
  - left. exists e. simpl. rewrite Ht.
    destruct Hq as [[e' He'] | [Hs' _]]; [|].
    + unfold step in He. simpl in He.
      destruct (read_data_writes (fun _ => @None unit) x (_write_data gb x s))
        as (H1 & _); [done|]. congruence.
    + unfold step in He. simpl in He.
      destruct (read_data_writes (fun _ => @None unit) x (_write_data gb x s))
        as (H1 & _); [done|]. congruence.
  - right. split; [|exact Hall]. simpl.
    unfold step in Hs. simpl in Hs.
    destruct (read_data_writes (fun _ => @None unit) x (_write_data gb x s))
      as (H1 & _); [done|]. congruence.
Qed.

(** After its last beat the write task waits for an address again. *)
Lemma write_burst_ends gb xs : forall s b,
  write_task s = Waiting (W_beat b) ->
  Z.of_nat (valid_cycles xs) = burst_count b -> 0 < burst_count b ->
  Forall (fun x => truthy (AWVALID x) = false) xs ->
  write_task (run_write gb s xs) = Waiting W_address.
Proof.
  induction xs as [|x xs IH]; intros s b Hs Hn Hpos Hall; [simpl in Hn; lia|].
  inversion Hall as [|? ? Hx Hxs]; subst.
  rewrite run_write_cons. simpl valid_cycles in Hn.
  unfold _write_data. rewrite Hs. unfold write_beat.
  destruct (truthy (WVALID x)) eqn:Hv; cbv zeta.
  - destruct (Z.eqb_spec (burst_count (count_down b)) 0) as [Hz|Hz].
    + unfold write_address. rewrite Hx. cbv zeta.
      rewrite write_quiet_run; [reflexivity|].
      right. split; [reflexivity | exact Hxs].
    + apply (IH _ (count_down b)); simpl; try done; simpl in Hz; lia.
  - apply (IH _ b); simpl; try done; lia.
Qed.

(** *** The words of a read burst *)

Lemma rdata_words_emit e s :
  rdata_words (emit e s)
  = rdata_words s ++ match e with
                     | DriveWord RDATA buff => [buff]
                     | _ => []
                     end.
Proof.
  unfold rdata_words. rewrite seen_emit. simpl.
  destruct e as [| [] | |]; reflexivity.
Qed.

Lemma read_beat_words b x s :
  rdata_words (read_beat b x s)
  = rdata_words s
    ++ (if truthy (RREADY x)
        then [slice (_memory s) (beat_start b) (beat_end b)] else []).
Proof.
  unfold read_beat. cbv zeta.
  change (rdata_words (set_read_task ?t ?s)) with (rdata_words s).
  destruct (truthy (RREADY x)); [destruct (burst_count b =? 1)|];
    rewrite !rdata_words_emit; simpl; by rewrite ?app_nil_r.
Qed.

Lemma at_beat_words b x s :
  at_beat s b ->
  rdata_words (tick (_read_data x s))
  = rdata_words s
    ++ (if truthy (RREADY x)
        then [slice (_memory s) (beat_start b) (beat_end b)] else []).
Proof.
  change (rdata_words (tick ?s)) with (rdata_words s).
  intros [Hs | (b0 & Hs & <- & Hne)]; unfold _read_data; rewrite Hs.
  - apply read_beat_words.
  - unfold read_next. destruct (Z.eqb_spec (burst_count (count_down b0)) 0);
      [contradiction|].
    cbv zeta. rewrite read_beat_words, rdata_words_emit. simpl.
    by rewrite app_nil_r.
Qed.

(** The words a read burst drives are the slices of the memory at the
    ranges of the beats it serves. *)
Lemma read_burst_words xs : forall s b,
  at_beat s b -> burst_count b = Z.of_nat (length xs) ->
  rdata_words (run_read s xs)
  = rdata_words s
    ++ map (fun r => slice (_memory s) r.1 r.2) (served b xs).
Proof.
  induction xs as [|x xs IH]; intros s b Hat Hn.
  - simpl. by rewrite app_nil_r.
  - rewrite run_read_cons.
    destruct (at_beat_step b x s Hat) as (Ht & _).
    pose proof (at_beat_words b x s Hat) as Hw.
    set (s1 := tick (_read_data x s)) in *.
    assert (Hm : _memory s1 = _memory s)
      by (subst s1; simpl; apply read_data_memory).
    destruct xs as [|x' xs].
    + simpl. rewrite Hw, app_nil_r. by destruct (truthy (RREADY x)).
    + rewrite (IH s1 (count_down b)).
      * rewrite Hw, Hm. simpl served. rewrite !map_app, <- !app_assoc.
        by destruct (truthy (RREADY x)).
      * right. exists b. repeat split; [exact Ht|]. simpl in *. lia.
      * simpl in *. lia.
Qed.

(** Reading back, beat by beat, a part of the memory that was written
    beat by beat gives the words that were written. *)
Lemma slices_back (ws : list (list byte)) : forall b pre post,
  Forall (fun w => length w = Z.to_nat (bytes_in_beat b)) ws ->
  length pre = Z.to_nat (beat_start b) ->
  0 <= beat_start b -> 0 <= bytes_in_beat b ->
  map (fun r => slice (pre ++ concat ws ++ post) r.1 r.2)
      (beat_ranges b (length ws)) = ws.
Proof.
  induction ws as [|w ws IH]; intros b pre post Hw Hpre Hst Hbb;
    [reflexivity|].
  inversion Hw as [|? ? Hx Hxs]; subst. simpl.
  assert (Hen : Z.to_nat (beat_end b) = (length pre + length w)%nat)
    by (rewrite beat_end_start; lia).
  f_equal.
  - unfold slice. rewrite Hen, <- Hpre.
    rewrite drop_app_length.
    replace (length pre + length w - length pre)%nat with (length w) by lia.
    rewrite <- app_assoc. apply take_app_length.
  - rewrite <- (app_assoc w), (app_assoc pre w).
    apply (IH (count_down b)); simpl; try done.
    + change (length (pre ++ w) = Z.to_nat (beat_start (count_down b))).
      replace (beat_start (count_down b)) with (beat_end b)
        by (unfold beat_end, beat_start, count_down; simpl; ring).
      rewrite length_app. lia.
    + change (0 <= beat_start (count_down b)).
      replace (beat_start (count_down b)) with (beat_end b)
        by (unfold beat_end, beat_start, count_down; simpl; ring).
      rewrite beat_end_start. lia.
Qed.

(** *** Whole bursts on the slave with both tasks running *)

Lemma loads_write_blind : write_blind (fun ce : nat * event => is_load ce.2).
Proof. intros c [[]| | |] H; try discriminate; reflexivity. Qed.

Lemma rlast_write_blind :
  write_blind (fun ce : nat * event =>
                 match ce.2 with Drive RLAST 1 => Some ce.1 | _ => None end).
Proof. intros c [[]| | |] H; try discriminate; reflexivity. Qed.

Lemma words_write_blind :
  write_blind (fun ce : nat * event =>
                 match ce.2 with DriveWord RDATA buff => Some buff | _ => None end).
Proof. intros c [[]| | |] H; try discriminate; reflexivity. Qed.

Lemma stores_read_blind : read_blind (fun ce : nat * event => is_store ce.2).
Proof. intros c [[]|[]| |] H; try discriminate; reflexivity. Qed.

Lemma same_reads_refl {A} (f : nat * event -> option A) s : same_reads f s s.
Proof. by repeat split. Qed.

Lemma same_writes_refl {A} (f : nat * event -> option A) s : same_writes f s s.
Proof. by repeat split. Qed.

Lemma run_app gb s xs ys : run gb s (xs ++ ys) = run gb (run gb s xs) ys.
Proof. apply foldl_app. Qed.

Lemma run_cons gb s x xs : run gb s (x :: xs) = run gb (step gb s x) xs.
Proof. reflexivity. Qed.

(** The cycle in which a read address is latched. *)
Lemma read_latched x s :
  read_task s = Waiting R_address -> truthy (ARVALID x) = true ->
  0 <= ARSIZE x < 7 ->
  let s1 := tick (_read_data x s) in
  read_task s1
  = Waiting (R_first (Burst (ARADDR x) (ARLEN x + 1) (2 ^ ARSIZE x)
                            (ARLEN x + 1))) /\
  log s1 = log s /\ cycle s1 = S (cycle s) /\ _memory s1 = _memory s.
Proof.
  intros Hs Hv Hsize. unfold _read_data. rewrite Hs.
  unfold read_address. rewrite Hv. unfold latch, _size_to_bytes_in_beat.
  destruct (Z.ltb_spec (ARSIZE x) 7); [|lia]. by repeat split.
Qed.

(** The cycle in which a write address is latched. *)
Lemma write_latched gb x s :
  write_task s = Waiting W_address -> truthy (AWVALID x) = true ->
  0 <= AWSIZE x < 7 ->
  let s1 := tick (_write_data gb x s) in
  write_task s1
  = Waiting (W_beat (Burst (AWADDR x) (AWLEN x + 1) (2 ^ AWSIZE x)
                           (AWLEN x + 1))) /\
  _memory s1 = _memory s /\ big_endian s1 = big_endian s.
Proof.
  intros Hs Hv Hsize. unfold _write_data. rewrite Hs.
  unfold write_address. rewrite Hv. unfold latch, _size_to_bytes_in_beat.
  destruct (Z.ltb_spec (AWSIZE x) 7); [|lia]. by repeat split.
Qed.

Lemma first_beat_start a l w : beat_start (Burst a l w l) = a.
Proof. unfold beat_start. simpl. ring. Qed.

Lemma valid_words_lengths gb be (n : nat) xs :
  Forall (fun y => truthy (WVALID y) = true ->
                   length (gb be (WDATA y)) = n) xs ->
  Forall (fun w => length w = n) (valid_words gb be xs).
Proof.
  induction 1 as [|y ys Hy _ IH]; [constructor|]. simpl.
  destruct (truthy (WVALID y)); [|exact IH].
  constructor; [by apply Hy | exact IH].
Qed.


(** The memory after a write burst of words of the width of a beat,
    into a range that lies inside the memory. *)
Lemma write_burst_image gb x xs s :
  write_task s = Waiting W_address -> truthy (AWVALID x) = true ->
  0 <= AWSIZE x < 7 -> 0 <= AWADDR x ->
  Z.of_nat (valid_cycles xs) = AWLEN x + 1 ->
  Forall (fun y => truthy (WVALID y) = true ->
                   length (gb (big_endian s) (WDATA y))
                   = Z.to_nat (2 ^ AWSIZE x)) xs ->
  AWADDR x + (AWLEN x + 1) * 2 ^ AWSIZE x <= Z.of_nat (length (_memory s)) ->
  _memory (run gb s (x :: xs))
  = take (Z.to_nat (AWADDR x)) (_memory s)
    ++ concat (valid_words gb (big_endian s) xs)
    ++ drop (Z.to_nat (AWADDR x) + valid_cycles xs * Z.to_nat (2 ^ AWSIZE x))
            (_memory s).
Proof.
  intros Hs Hv Hsize Ha Hn Hw Hlen.
  destruct (run_write_side (fun _ => @None unit) gb (x :: xs)) with (s := s) (s' := s)
    as (_ & Hm & _); [done | apply same_writes_refl |].
  rewrite Hm, run_write_cons.
  destruct (write_latched gb x s Hs Hv Hsize) as (Ht & Hm1 & Hb1).
  set (s1 := tick (_write_data gb x s)) in *.
  assert (Hpow : 0 < 2 ^ AWSIZE x) by (apply Z.pow_pos_nonneg; lia).
  rewrite (write_beats_memory gb xs s1 _ Ht); rewrite ?first_beat_start;
    simpl bytes_in_beat; simpl burst_count; rewrite ?Hb1, ?Hm1;
    try done; try lia; nia.
Qed.

Lemma read_side_task gb xs s :
  read_task (run gb s xs) = read_task (run_read s xs) /\
  cycle (run gb s xs) = cycle (run_read s xs).
Proof.
  destruct (run_read_side (fun _ => @None unit) gb xs) with (s := s) (s' := s)
    as (H1 & H2 & _); [done | done | apply same_reads_refl |].
  by split.
Qed.

(** A read burst that starts while the write task is quiet: the words
    it assigns to RDATA are the slices of the memory at the ranges it
    loads, and the memory stays as it is. *)
Lemma read_burst_data gb x xs s :
  read_task s = Waiting R_address -> truthy (ARVALID x) = true ->
  0 <= ARSIZE x < 7 ->
  Z.of_nat (length xs) = ARLEN x + 1 ->
  write_quiet s (x :: xs) ->
  let b := Burst (ARADDR x) (ARLEN x + 1) (2 ^ ARSIZE x) (ARLEN x + 1) in
  rdata_words (run gb s (x :: xs))
  = rdata_words s ++ map (fun r => slice (_memory s) r.1 r.2) (served b xs) /\
  _memory (run gb s (x :: xs)) = _memory s /\
  write_task (run gb s (x :: xs)) = write_task s.
Proof.
  intros Hs Hv Hsize Hn Hq b.
  destruct (run_read_idle _ gb (x :: xs) words_write_blind s s Hq eq_refl
              (same_reads_refl _ s)) as ((_ & _ & Hw) & Hm & Ht).
  split; [|by split].
  change (rdata_words (run gb s (x :: xs)) = rdata_words (run_read s (x :: xs)))
    in Hw.
  rewrite Hw, run_read_cons.
  destruct (read_latched x s Hs Hv Hsize) as (Ht1 & Hl1 & Hc1 & Hm1).
  rewrite (read_burst_words xs _ b); [| by left | simpl; lia].
  rewrite Hm1. f_equal. unfold rdata_words, seen. by rewrite Hl1.
Qed.

(** *** Runs in which no task raises *)

Lemma read_data_running x s :
  running (read_task s) -> read_size_ok x ->
  running (read_task (_read_data x s)).
Proof.
  intros Hr Hx. unfold _read_data.
  assert (Ha : forall s0, running (read_task (read_address x s0))).
  { intros s0. unfold read_address.
    destruct (truthy (ARVALID x)) eqn:Hv; [|exact I].
    unfold latch, _size_to_bytes_in_beat.
    destruct (Z.ltb_spec (ARSIZE x) 7) as [_|Hge]; [exact I|].
    specialize (Hx Hv). lia. }
  destruct (read_task s) as [[|b|b]|e]; [apply Ha | exact I | | contradiction].
  unfold read_next. cbv zeta.
  destruct (burst_count (count_down b) =? 0); [apply Ha | exact I].
Qed.

Lemma write_data_running gb x s :
  running (write_task s) -> write_size_ok x ->
  running (write_task (_write_data gb x s)).
Proof.
  intros Hr Hx. unfold _write_data.
  assert (Ha : forall s0, running (write_task (write_address x s0))).
  { intros s0. unfold write_address.
    destruct (truthy (AWVALID x)) eqn:Hv; [|exact I].
    unfold latch, _size_to_bytes_in_beat.
    destruct (Z.ltb_spec (AWSIZE x) 7) as [_|Hge]; [exact I|].
    specialize (Hx Hv). lia. }
  destruct (write_task s) as [[|b]|e]; [apply Ha | | contradiction].
  unfold write_beat. destruct (truthy (WVALID x)); [|exact I].
  cbv zeta. destruct (burst_count (count_down b) =? 0); [apply Ha | exact I].
Qed.

(** A read task that has not raised and is shown sizes below 7 only
    does not raise. *)
Lemma run_read_running gb xs : forall s,
  running (read_task s) -> Forall read_size_ok xs ->
  running (read_task (run gb s xs)).
Proof.
  intros s Hr Hall. destruct (read_side_task gb xs s) as (-> & _).
  revert s Hr. induction Hall as [|x xs Hx _ IH]; intros s Hr; [exact Hr|].
  rewrite run_read_cons. apply IH. simpl. by apply read_data_running.
Qed.

(** The same for the write task. *)
Lemma run_write_running gb xs : forall s,
  running (write_task s) -> Forall write_size_ok xs ->
  running (write_task (run gb s xs)).
Proof.
  intros s Hr Hall.
  destruct (run_write_side (fun _ => @None unit) gb xs) with (s := s) (s' := s)
    as (-> & _); [done | apply same_writes_refl |].
  revert s Hr. induction Hall as [|x xs Hx _ IH]; intros s Hr; [exact Hr|].
  rewrite run_write_cons. apply IH. simpl. by apply write_data_running.
Qed.

(** The stores of a write burst on the slave with both tasks. *)
Lemma write_burst_ranges gb x xs s :
  write_task s = Waiting W_address -> truthy (AWVALID x) = true ->
  0 <= AWSIZE x < 7 ->
  Z.of_nat (valid_cycles xs) = AWLEN x + 1 ->
  ranges is_store (run gb s (x :: xs))
  = ranges is_store s
    ++ beat_ranges (Burst (AWADDR x) (AWLEN x + 1) (2 ^ AWSIZE x) (AWLEN x + 1))
                   (valid_cycles xs).
Proof.
  intros Hs Hv Hsize Hn.
  destruct (run_write_side _ gb (x :: xs) stores_read_blind s s
              (same_writes_refl _ s)) as (_ & _ & _ & _ & Hst).
  change (ranges is_store (run gb s (x :: xs))
          = ranges is_store (run_write gb s (x :: xs))) in Hst.
  rewrite Hst. by apply write_burst_complete.
Qed.

(** X6. A write burst on the slave with both tasks running.  Once the
    address is latched with a size below 7, the AWLEN+1 cycles with
    valid data store the ranges of the beats in order, beat [k] at
    [[AWADDR + k*2^AWSIZE, AWADDR + (k+1)*2^AWSIZE)], whatever cycles
    without valid data lie in between.  This is for runs in which the
    read task does not raise: it has not raised before and is shown
    sizes below 7 only; what it serves meanwhile changes nothing. *)
Theorem write_burst_in_order gb x xs s :
  write_task s = Waiting W_address -> truthy (AWVALID x) = true ->
  0 <= AWSIZE x < 7 ->
  Z.of_nat (valid_cycles xs) = AWLEN x + 1 ->
  running (read_task s) -> Forall read_size_ok (x :: xs) ->
  running (read_task (run gb s (x :: xs))) /\
  exists stores,
    ranges is_store (run gb s (x :: xs)) = ranges is_store s ++ stores /\
    length stores = valid_cycles xs /\
    forall k, (k < valid_cycles xs)%nat ->
      stores !! k = Some (AWADDR x + Z.of_nat k * 2 ^ AWSIZE x,
                          AWADDR x + (Z.of_nat k + 1) * 2 ^ AWSIZE x).
Proof.
  intros Hs Hv Hsize Hn Hr Hok.
  split; [by apply run_read_running|].
  eexists. split; [|split].
  - by apply write_burst_ranges.
  - apply length_beat_ranges.
  - intros k Hk. rewrite beat_ranges_lookup by exact Hk.
    by rewrite first_beat_start.
Qed.

Lemma write_burst_in_order_witness :
  let gb := fun (_ : bool) (v : Z) => le_bytes 4 v in
  let xs := [write_address_cycle 8 1 2; data_cycle 5;
             read_address_cycle 0 0 2; data_cycle 6] in
  running (read_task (run gb (__init__ (repeat x00 16) false) xs)) /\
  exists stores,
    ranges is_store (run gb (__init__ (repeat x00 16) false) xs) = [] ++ stores /\
    length stores = 2%nat /\
    forall k, (k < 2)%nat ->
      stores !! k = Some (8 + Z.of_nat k * 2 ^ 2, 8 + (Z.of_nat k + 1) * 2 ^ 2).
Proof.
  intros gb xs.
  apply (write_burst_in_order gb (write_address_cycle 8 1 2)
           [data_cycle 5; read_address_cycle 0 0 2; data_cycle 6]
           (__init__ (repeat x00 16) false));
    [reflexivity | reflexivity | simpl; lia | reflexivity | exact I |].
  repeat constructor; intros H; try discriminate H; simpl; lia.
Defined.



(** X8. A read burst takes ARLEN+1 cycles whatever RREADY does.  The
    ranges it loads are those of the cycles in which the master is
    ready, never more than the burst has cycles; RLAST is assigned 1
    in the last cycle, and only when the master is ready then; in the
    cycle after, the task waits for an address again.  This is for
    runs in which the write task does not raise: it has not raised
    before and is shown sizes below 7 only; what it stores meanwhile
    changes none of this. *)
Theorem read_burst_follows_ready gb x xs s :
  read_task s = Waiting R_address -> truthy (ARVALID x) = true ->
  0 <= ARSIZE x < 7 -> 0 <= ARLEN x ->
  Z.of_nat (length xs) = ARLEN x + 1 ->
  running (write_task s) -> Forall write_size_ok (x :: xs) ->
  let b := Burst (ARADDR x) (ARLEN x + 1) (2 ^ ARSIZE x) (ARLEN x + 1) in
  let s' := run gb s (x :: xs) in
  running (write_task s') /\
  ranges is_load s' = ranges is_load s ++ served b xs /\
  (length (served b xs) <= length xs)%nat /\
  rlast_cycles s'
  = rlast_cycles s
    ++ match last xs with
       | Some y => if truthy (RREADY y) then [(cycle s + length xs)%nat] else []
       | None => []
       end /\
  forall y, truthy (ARVALID y) = false -> write_size_ok y ->
    running (write_task (run gb s (x :: xs ++ [y]))) /\
    read_task (run gb s (x :: xs ++ [y])) = Waiting R_address.
Proof.
  intros Hs Hv Hsize Hlen Hn Hw Hok b s'.
  destruct (run_read_side _ gb (x :: xs) loads_write_blind) with (s := s) (s' := s)
    as (_ & _ & Hld); [done | apply same_reads_refl |].
  destruct (run_read_side _ gb (x :: xs) rlast_write_blind) with (s := s) (s' := s)
    as (_ & _ & Hrl); [done | apply same_reads_refl |].
  change (ranges is_load s' = ranges is_load (run_read s (x :: xs))) in Hld.
  change (rlast_cycles s' = rlast_cycles (run_read s (x :: xs))) in Hrl.
  destruct (read_side_task gb (x :: xs) s) as (Htk & _). fold s' in Htk.
  rewrite run_read_cons in Hld, Hrl, Htk.
  destruct (read_latched x s Hs Hv Hsize) as (Ht1 & Hl1 & Hc1 & Hm1).
  fold b in Ht1.
  assert (Hne : xs <> []) by (destruct xs; [simpl in Hn; lia | discriminate]).
  destruct (read_burst_serves xs (tick (_read_data x s)) b)
    as (Hl & Hr & (b' & Hb' & Hcnt)); [by left | simpl; lia | exact Hne |].
  rewrite Hl in Hld. rewrite Hr in Hrl. rewrite Hb' in Htk.
  split; [by apply run_write_running|].
  split; [|split; [|split]].
  - rewrite Hld. unfold ranges. by rewrite Hl1.
  - apply served_length.
  - rewrite Hrl, Hc1. unfold rlast_cycles at 1. rewrite Hl1.
    fold (rlast_cycles s). f_equal.
    destruct (last xs) as [y|]; [|reflexivity].
    destruct (truthy (RREADY y)); [|reflexivity].
    f_equal. destruct xs; [contradiction|]. simpl. lia.
  - intros y Hy Hwy.
    split.
    { apply run_write_running; [exact Hw|].
      change (x :: xs ++ [y]) with ((x :: xs) ++ [y]).
      apply Forall_app. split; [exact Hok | by constructor]. }
    change (x :: xs ++ [y]) with ((x :: xs) ++ [y]).
    rewrite run_app. fold s'. simpl. unfold step. simpl.
    destruct (write_data_reads (fun _ => @None unit) gb y s')
      as (H1 & H2 & _ & H4); [done|].
    destruct (same_reads_data (fun _ => @None unit) y (_write_data gb y s') s')
      as (H5 & _); [done | by repeat split |].
    rewrite H5. unfold _read_data. rewrite Htk. unfold read_next. cbv zeta.
    assert (Hz : (burst_count (count_down b') =? 0) = true)
      by (apply Z.eqb_eq; simpl; lia).
    rewrite Hz. unfold read_address. by rewrite Hy.
Qed.

Lemma read_burst_follows_ready_witness :
  let gb := fun (_ : bool) (v : Z) => le_bytes 4 v in
  let x := read_address_cycle 8 2 2 in
  let xs := [ready_cycle; write_address_cycle 0 0 2; ready_cycle] in
  let s := __init__ (repeat x00 32) false in
  running (write_task (run gb s (x :: xs))) /\
  ranges is_load (run gb s (x :: xs)) = [(8, 12); (16, 20)] /\
  rlast_cycles (run gb s (x :: xs)) = [3%nat] /\
  read_task (run gb s (x :: xs ++ [idle])) = Waiting R_address.
Proof.
  intros gb x xs s.
  destruct (read_burst_follows_ready gb x xs s) as (H0 & H1 & _ & H3 & H4);
    [reflexivity | reflexivity | simpl; lia | simpl; lia | reflexivity
     | exact I
     | repeat constructor; intros H; try discriminate H; simpl; lia |].
  split; [exact H0|]. split; [exact H1|]. split; [exact H3|].
  apply (H4 idle); [reflexivity | intros H; discriminate H].
Defined.



(** X10. Round trip through the memory.  A write burst of words as
    wide as a beat, then a read burst of the same address, length and
    size whose master is always ready, with no other address shown
    meanwhile: the read burst assigns to RDATA the words that were
    written, in the order in which they were written. *)
Theorem burst_round_trip gb s xw xs xr ys :
  write_task s = Waiting W_address -> read_task s = Waiting R_address ->
  truthy (AWVALID xw) = true -> 0 <= AWSIZE xw < 7 -> 0 <= AWADDR xw ->
  0 <= AWLEN xw ->
  Z.of_nat (valid_cycles xs) = AWLEN xw + 1 ->
  Forall (fun y => truthy (WVALID y) = true ->
                   length (gb (big_endian s) (WDATA y))
                   = Z.to_nat (2 ^ AWSIZE xw)) xs ->
  AWADDR xw + (AWLEN xw + 1) * 2 ^ AWSIZE xw <= Z.of_nat (length (_memory s)) ->
  Forall (fun y => truthy (AWVALID y) = false) (xs ++ xr :: ys) ->
  Forall (fun y => truthy (ARVALID y) = false) (xw :: xs) ->
  truthy (ARVALID xr) = true ->
  ARADDR xr = AWADDR xw -> ARLEN xr = AWLEN xw -> ARSIZE xr = AWSIZE xw ->
  Z.of_nat (length ys) = AWLEN xw + 1 ->
  Forall (fun y => truthy (RREADY y) = true) ys ->
  rdata_words (run gb s (xw :: xs ++ xr :: ys))
  = rdata_words s ++ valid_words gb (big_endian s) xs.
Proof.
  intros Hsw Hsr Hv Hsize Ha Hl Hn Hw Hlen Hnoaw Hnoar Hrv Hra Hrl Hrs Hyn Hyr.
  apply Forall_app in Hnoaw as [Hnoaw1 Hnoaw2].
  change (xw :: xs ++ xr :: ys) with ((xw :: xs) ++ xr :: ys).
  rewrite run_app.
  pose proof (write_burst_image gb xw xs s Hsw Hv Hsize Ha Hn Hw Hlen) as Him.
  assert (Hwt : write_task (run gb s (xw :: xs)) = Waiting W_address).
  { destruct (run_write_side (fun _ => @None unit) gb (xw :: xs))
      with (s := s) (s' := s) as (Ht & _); [done | apply same_writes_refl |].
    rewrite Ht, run_write_cons.
    destruct (write_latched gb xw s Hsw Hv Hsize) as (Ht1 & _).
    apply (write_burst_ends gb xs _ _ Ht1); simpl; try done; lia. }
  destruct (run_read_quiet _ gb (xw :: xs) words_write_blind s) as (Hrt & Hrw).
  { right. by split. }
  change (rdata_words (run gb s (xw :: xs)) = rdata_words s) in Hrw.
  set (s1 := run gb s (xw :: xs)) in *.
  rewrite Hsr in Hrt.
  destruct (read_burst_data gb xr ys s1) as (Hwords & _); try done.
  { rewrite Hrs. exact Hsize. }
  { rewrite Hrl. exact Hyn. }
  { right. by split. }
  rewrite Hwords, Hrw. f_equal.
  rewrite served_ready by exact Hyr.
  rewrite Hra, Hrl, Hrs, Him.
  assert (Hpow : 0 < 2 ^ AWSIZE xw) by (apply Z.pow_pos_nonneg; lia).
  assert (Hny : length ys = length (valid_words gb (big_endian s) xs)).
  { rewrite length_valid_words. lia. }
  rewrite Hny. apply slices_back.
  - by apply valid_words_lengths.
  - rewrite first_beat_start. apply length_take_le. nia.
  - by rewrite first_beat_start.
  - simpl. lia.
Qed.

Lemma burst_round_trip_witness :
  let gb := fun (_ : bool) (v : Z) => le_bytes 4 v in
  let s := __init__ (repeat x00 16) false in
  rdata_words (run gb s (write_address_cycle 8 1 2
                         :: [data_cycle 5; idle; data_cycle 6]
                         ++ read_address_cycle 8 1 2
                         :: [ready_cycle; ready_cycle]))
  = rdata_words s ++ [le_bytes 4 5; le_bytes 4 6].
Proof.
  intros gb s.
  apply (burst_round_trip gb s (write_address_cycle 8 1 2)
           [data_cycle 5; idle; data_cycle 6] (read_address_cycle 8 1 2)
           [ready_cycle; ready_cycle]);
    try reflexivity; try (simpl; lia); repeat constructor.
Defined.

Lemma step_write_side gb x s :
  write_task (step gb s x) = write_task (_write_data gb x s) /\
  _memory (step gb s x) = _memory (_write_data gb x s) /\
  ranges is_store (step gb s x) = ranges is_store (_write_data gb x s).
Proof.
  destruct (read_data_writes _ x (_write_data gb x s) stores_read_blind)
    as (H1 & _ & _ & H4 & H5).
  by repeat split.
Qed.

Lemma write_quiet_stores gb xs : forall s,
  write_quiet s xs -> ranges is_store (run gb s xs) = ranges is_store s.
Proof.
  induction xs as [|x xs IH]; intros s Hq; [reflexivity|].
  destruct (write_quiet_step gb x xs s Hq) as (_ & _ & Hq').
  rewrite run_cons, (IH _ Hq').
  destruct (step_write_side gb x s) as (_ & _ & ->).
  unfold _write_data.
  destruct Hq as [[e He] | [Hs _]]; [by rewrite He|].
  rewrite Hs. apply write_address_stores.
Qed.

(** X11. A request with a size of 7 or more is the last one its task
    sees.  The task ends with the [TypeError] of [None*8]; on every
    later sample, a valid address included, the write task stores
    nothing and the memory stays as it was, and the read task loads
    nothing and assigns nothing to RDATA or RVALID. *)
Theorem bad_size_ends_task gb x xs s :
  (write_task s = Waiting W_address -> truthy (AWVALID x) = true ->
   7 <= AWSIZE x ->
   let s' := run gb s (x :: xs) in
   write_task s' = Crashed TypeError /\ _memory s' = _memory s /\
   ranges is_store s' = ranges is_store s) /\
  (read_task s = Waiting R_address -> truthy (ARVALID x) = true ->
   7 <= ARSIZE x ->
   let s' := run gb s (x :: xs) in
   read_task s' = Crashed TypeError /\
   ranges is_load s' = ranges is_load s /\ rdata_words s' = rdata_words s /\
   assigned_to RVALID s' = assigned_to RVALID s).
Proof.
  split.
  - intros Hs Hv Hsize s'. subst s'. rewrite run_cons.
    destruct (step_write_side gb x s) as (Ht & Hm & Hst).
    assert (Hw : _write_data gb x s
                 = set_write_task (Crashed TypeError)
                     (emit (Drive WREADY 1) (emit (Drive WREADY 0) s))).
    { unfold _write_data. rewrite Hs. unfold write_address. rewrite Hv.
      unfold latch, _size_to_bytes_in_beat.
      destruct (Z.ltb_spec (AWSIZE x) 7); [lia | reflexivity]. }
    rewrite Hw in Ht, Hm, Hst. simpl in Ht, Hm.
    assert (Hq : write_quiet (step gb s x) xs) by (left; by eexists).
    destruct (run_read_idle (fun _ => @None unit) gb xs) with
      (s := step gb s x) (s' := step gb s x) as (_ & Hm' & Ht');
      [done | exact Hq | done | apply same_reads_refl |].
    rewrite Hm', Ht', (write_quiet_stores gb xs _ Hq), Hst.
    split; [exact Ht|]. split; [exact Hm|].
    rewrite ranges_set_write_task, !ranges_emit. simpl. by rewrite !app_nil_r.
  - intros Hs Hv Hsize s'. subst s'. rewrite run_cons.
    assert (Hr : forall A (f : nat * event -> option A), write_blind f ->
              read_task (step gb s x) = Crashed TypeError /\
              seen f (step gb s x) = seen f s).
    { intros A f Hf.
      destruct (write_data_reads f gb x s Hf) as (H1 & _ & _ & H4).
      unfold step, _read_data. rewrite H1, Hs. unfold read_address.
      rewrite Hv. unfold latch, _size_to_bytes_in_beat.
      destruct (Z.ltb_spec (ARSIZE x) 7); [lia|]. by split. }
    assert (Hq : read_quiet (step gb s x) xs).
    { left. exists TypeError. by apply (Hr unit (fun _ => None)). }
    assert (Hall : forall A (f : nat * event -> option A), write_blind f ->
              seen f (run gb (step gb s x) xs) = seen f s).
    { intros A f Hf. destruct (run_read_quiet f gb xs Hf _ Hq) as (_ & ->).
      by apply Hr. }
    destruct (run_read_quiet (fun _ => @None unit) gb xs) with (s := step gb s x)
      as (Ht & _); [done | exact Hq |].
    split; [rewrite Ht; by apply (Hr unit (fun _ => None))|].
    split; [apply (Hall _ _ loads_write_blind)|].
    split; [apply (Hall _ _ words_write_blind)|].
    apply Hall. intros c [[]| | |] H; try discriminate; reflexivity.
Qed.

Lemma bad_size_ends_task_witness :
  let gb := fun (_ : bool) (v : Z) => le_bytes 4 v in
  let s := __init__ (repeat x00 16) false in
  let s' := run gb s [write_address_cycle 8 1 7; data_cycle 5; data_cycle 6;
                      write_address_cycle 8 1 2; data_cycle 5] in
  let s'' := run gb s [read_address_cycle 8 1 7; ready_cycle;
                       read_address_cycle 8 1 2; ready_cycle] in
  (write_task s' = Crashed TypeError /\ _memory s' = repeat x00 16 /\
   ranges is_store s' = []) /\
  (read_task s'' = Crashed TypeError /\ ranges is_load s'' = [] /\
   rdata_words s'' = [] /\ assigned_to RVALID s'' = [0]).
Proof.
  intros gb s s' s''. split.
  - apply (proj1 (bad_size_ends_task gb (write_address_cycle 8 1 7)
                    [data_cycle 5; data_cycle 6; write_address_cycle 8 1 2;
                     data_cycle 5] s));
      [reflexivity | reflexivity | simpl; lia].
  - apply (proj2 (bad_size_ends_task gb (read_address_cycle 8 1 7)
                    [ready_cycle; read_address_cycle 8 1 2; ready_cycle] s));
      [reflexivity | reflexivity | simpl; lia].
Defined.

(** With [step] as it is defined, each side of the slave runs as its
    task runs alone; [alive] says when such a run is one of the
    program. *)
Lemma run_sides gb s xs :
  write_task (run gb s xs) = write_task (run_write gb s xs) /\
  _memory (run gb s xs) = _memory (run_write gb s xs) /\
  ranges is_store (run gb s xs) = ranges is_store (run_write gb s xs) /\
  read_task (run gb s xs) = read_task (run_read s xs) /\
  ranges is_load (run gb s xs) = ranges is_load (run_read s xs) /\
  rlast_cycles (run gb s xs) = rlast_cycles (run_read s xs).
Proof.
  destruct (run_write_side _ gb xs stores_read_blind s s (same_writes_refl _ s))
    as (H1 & H2 & _ & _ & H3).
  destruct (run_read_side _ gb xs loads_write_blind) with (s := s) (s' := s)
    as (H4 & _ & H5); [done | apply same_reads_refl |].
  destruct (run_read_side _ gb xs rlast_write_blind) with (s := s) (s' := s)
    as (_ & _ & H6); [done | apply same_reads_refl |].
  by repeat split.
Qed.

(** X12. As long as no task raises, the two tasks meet only in the
    memory.  A slave on which no task has raised and which is shown
    sizes below 7 only stays so, and in its run the write task, the
    memory and the stores are those of the write task running alone;
    the read task, its loads and its RLAST cycles are those of the
    read task running alone. *)
Theorem tasks_meet_only_in_memory gb s xs :
  alive s ->
  Forall (fun x => write_size_ok x /\ read_size_ok x) xs ->
  alive (run gb s xs) /\
  write_task (run gb s xs) = write_task (run_write gb s xs) /\
  _memory (run gb s xs) = _memory (run_write gb s xs) /\
  ranges is_store (run gb s xs) = ranges is_store (run_write gb s xs) /\
  read_task (run gb s xs) = read_task (run_read s xs) /\
  ranges is_load (run gb s xs) = ranges is_load (run_read s xs) /\
  rlast_cycles (run gb s xs) = rlast_cycles (run_read s xs).
Proof.
  intros [Hw Hr] Hok. split; [|apply run_sides].
  split.
  - apply run_write_running; [exact Hw|].
    eapply Forall_impl; [exact Hok|]. by intros x [H _].
  - apply run_read_running; [exact Hr|].
    eapply Forall_impl; [exact Hok|]. by intros x [_ H].
Qed.

Lemma tasks_meet_only_in_memory_witness :
  let gb := fun (_ : bool) (v : Z) => le_bytes 4 v in
  let s := __init__ (repeat x00 16) false in
  let xs := [write_address_cycle 8 0 2; read_address_cycle 8 0 2;
             Sample 0 0 0 0 0 0 1 0 0 0 0 0 0 1 5] in
  alive (run gb s xs) /\
  _memory (run gb s xs) = _memory (run_write gb s xs) /\
  ranges is_store (run gb s xs) = [(8, 12)] /\
  ranges is_load (run gb s xs) = [(8, 12)].
Proof.
  intros gb s xs.
  destruct (tasks_meet_only_in_memory gb s xs)
    as (H0 & _ & H2 & H3 & _ & H5 & _).
  - split; exact I.
  - repeat constructor; intros H; try discriminate H; simpl; lia.
  - split; [exact H0|]. split; [exact H2|].
    split; [rewrite H3 | rewrite H5]; reflexivity.
Defined.

(** X13. A beat is stored by slice assignment, with no check of
    bounds or of width.  A beat that starts at or past the end of the
    memory appends its word; a beat inside the memory replaces
    [bytes_in_beat] bytes by its word, so that a word of another
    width changes the length of the memory and moves what follows. *)
Theorem store_is_slice_assignment gb b x s :
  write_task s = Waiting (W_beat b) -> truthy (WVALID x) = true ->
  0 <= beat_start b -> 0 <= bytes_in_beat b ->
  let m := _memory s in
  let w := gb (big_endian s) (WDATA x) in
  let m' := _memory (step gb s x) in
  (Z.of_nat (length m) <= beat_start b -> m' = m ++ w) /\
  (beat_end b <= Z.of_nat (length m) ->
   length m' = (length m + length w - Z.to_nat (bytes_in_beat b))%nat /\
   take (Z.to_nat (beat_start b)) m' = take (Z.to_nat (beat_start b)) m /\
   drop (Z.to_nat (beat_start b) + length w) m' = drop (Z.to_nat (beat_end b)) m).
Proof.
  intros Hs Hv Hst Hbb m w m'.
  assert (Hm : m' = slice_assign m (beat_start b) (beat_end b) w).
  { subst m'. destruct (step_write_side gb x s) as (_ & -> & _).
    unfold _write_data. rewrite Hs. unfold write_beat. rewrite Hv. cbv zeta.
    destruct (burst_count (count_down b) =? 0); [|reflexivity].
    by rewrite write_address_memory. }
  assert (Hen : Z.to_nat (beat_end b)
                = (Z.to_nat (beat_start b) + Z.to_nat (bytes_in_beat b))%nat)
    by (rewrite beat_end_start; lia).
  rewrite Hm. unfold slice_assign. rewrite Hen.
  replace (Z.to_nat (beat_start b)
           `max` (Z.to_nat (beat_start b) + Z.to_nat (bytes_in_beat b)))%nat
    with (Z.to_nat (beat_start b) + Z.to_nat (bytes_in_beat b))%nat by lia.
  split.
  - intros Hpast. rewrite take_ge by lia. rewrite drop_ge by lia.
    by rewrite app_nil_r.
  - intros Hin. rewrite beat_end_start in Hin.
    assert (Htk : length (take (Z.to_nat (beat_start b)) m)
                  = Z.to_nat (beat_start b)) by (apply length_take_le; lia).
    split; [|split].
    + rewrite !length_app, Htk, length_drop. lia.
    + by rewrite take_app_length'.
    + rewrite app_assoc. rewrite drop_app_length'; [reflexivity|].
      rewrite length_app. lia.
Qed.

Lemma store_is_slice_assignment_witness :
  let gb := fun (_ : bool) (v : Z) => le_bytes 2 v in
  let s := run gb (__init__ [x01; x02; x03; x04] false)
             [write_address_cycle 4 0 1] in
  let s' := run gb (__init__ [x01; x02; x03; x04] false)
              [write_address_cycle 0 0 2] in
  _memory (step gb s (data_cycle 5)) = [x01; x02; x03; x04; x05; x00] /\
  length (_memory (step gb s' (data_cycle 5))) = 2%nat.
Proof.
  intros gb s s'. split.
  - apply (proj1 (store_is_slice_assignment gb (Burst 4 1 2 1) (data_cycle 5) s
                    eq_refl eq_refl ltac:(vm_compute; discriminate)
                    ltac:(vm_compute; discriminate))).
    vm_compute. discriminate.
  - apply (proj2 (store_is_slice_assignment gb (Burst 0 1 4 1) (data_cycle 5) s'
                    eq_refl eq_refl ltac:(vm_compute; discriminate)
                    ltac:(vm_compute; discriminate))).
    vm_compute. discriminate.
Defined.

Lemma rvalid_read_data x s :
  exists k, assigned_to RVALID (_read_data x s)
            = assigned_to RVALID s ++ repeat 1 k.
Proof.
  assert (Ha : forall s0, exists k, assigned_to RVALID (read_address x s0)
                                    = assigned_to RVALID s0 ++ repeat 1 k).
  { intros s0. exists O. unfold read_address. rewrite app_nil_r.
    destruct (truthy (ARVALID x)); [destruct (latch _ _ _)|]; reflexivity. }
  assert (Hb : forall b s0, exists k, assigned_to RVALID (read_beat b x s0)
                                      = assigned_to RVALID s0 ++ repeat 1 k).
  { intros b s0. exists 1%nat. unfold read_beat. cbv zeta.
    change (assigned_to RVALID (set_read_task ?t ?s)) with (assigned_to RVALID s).
    unfold assigned_to.
    destruct (truthy (RREADY x)); [destruct (burst_count b =? 1)|];
      rewrite !seen_emit; simpl; by rewrite ?app_nil_r. }
  unfold _read_data.
  destruct (read_task s) as [[|b|b]|e]; [apply Ha | apply Hb | |].
  - unfold read_next. cbv zeta.
    assert (He : assigned_to RVALID (emit (Drive RLAST 0) s) = assigned_to RVALID s).
    { unfold assigned_to. rewrite seen_emit. simpl. by rewrite app_nil_r. }
    destruct (burst_count (count_down b) =? 0).
    + destruct (Ha (emit (Drive RLAST 0) s)) as [k Hk]. exists k. by rewrite Hk, He.
    + destruct (Hb (count_down b) (emit (Drive RLAST 0) s)) as [k Hk].
      exists k. by rewrite Hk, He.
  - exists O. by rewrite app_nil_r.
Qed.

(** X14. ARREADY and AWREADY are assigned by [__init__] only, with
    value 1: no task ever takes them back, whatever it is busy with.
    RVALID, once a read beat has assigned it 1, is never taken back
    either: the values assigned to it in a run from [__init__] are
    the initial 0 followed by 1s. *)
Theorem ready_and_valid_outputs gb memory be xs :
  let s' := run gb (__init__ memory be) xs in
  assigned_to ARREADY s' = [1] /\ assigned_to AWREADY s' = [1] /\
  exists k, assigned_to RVALID s' = 0 :: repeat 1 k.
Proof.
  intros s'. subst s'.
  assert (Hkeep : forall sig, sig = ARREADY \/ sig = AWREADY ->
            forall xs s, assigned_to sig (run gb s xs) = assigned_to sig s).
  { intros sig Hsig. induction xs0 as [|x xs0 IH]; intros s; [reflexivity|].
    rewrite run_cons, IH. unfold step, assigned_to.
    change (seen ?f (tick ?s)) with (seen f s).
    destruct (read_data_writes
                (fun ce : nat * event =>
                   match ce.2 with
                   | Drive g v => if decide (g = sig) then Some v else None
                   | _ => None
                   end) x (_write_data gb x s)) as (_ & _ & _ & _ & ->).
    { intros c [[]| | |] H; try discriminate;
        destruct Hsig as [-> | ->]; reflexivity. }
    destruct (write_data_reads
                (fun ce : nat * event =>
                   match ce.2 with
                   | Drive g v => if decide (g = sig) then Some v else None
                   | _ => None
                   end) gb x s) as (_ & _ & _ & ->); [|reflexivity].
    intros c [[]| | |] H; try discriminate;
      destruct Hsig as [-> | ->]; reflexivity. }
  split; [by rewrite Hkeep by (by left)|].
  split; [by rewrite Hkeep by (by right)|].
  assert (Hv : forall xs s, exists k,
            assigned_to RVALID (run gb s xs) = assigned_to RVALID s ++ repeat 1 k).
  { induction xs0 as [|x xs0 IH]; intros s; [exists O; by rewrite app_nil_r|].
    rewrite run_cons. destruct (IH (step gb s x)) as [k Hk]. rewrite Hk.
    unfold step.
    change (assigned_to RVALID (tick ?s)) with (assigned_to RVALID s).
    destruct (rvalid_read_data x (_write_data gb x s)) as [j Hj]. rewrite Hj.
    destruct (write_data_reads
                (fun ce : nat * event =>
                   match ce.2 with
                   | Drive g v => if decide (g = RVALID) then Some v else None
                   | _ => None
                   end) gb x s) as (_ & _ & _ & H4).
    { intros c [[]| | |] H; try discriminate; reflexivity. }
    unfold assigned_to at 1. rewrite H4. fold (assigned_to RVALID s).
    exists (j + k)%nat. by rewrite repeat_app, app_assoc. }
  destruct (Hv xs (__init__ memory be)) as [k Hk]. exists k. exact Hk.
Qed.

End BurstExtra.

(** ** The AXI4-Lite slave: whole runs *)
Module LiteExtra.
Import AXI4LiteSlave LiteFacts.

Ltac split_ifs :=
  repeat match goal with
         | |- context [if ?b then _ else _] => destruct b eqn:?; simpl
         | |- context [match _awaddr ?s with _ => _ end] =>
             destruct (_awaddr s) eqn:?; simpl
         end.

(** *** What a clock edge leaves alone *)

Lemma lite_write_data_memory x s : memory (_write_data x s) = memory s.
Proof.
  unfold _write_data, complete_write. rewrite struct_unbound.
  destruct (write_data_task s) as [[|d t|d t|d t]|e]; simpl; split_ifs;
    reflexivity.
Qed.

Lemma lite_step_memory s x : memory (step s x) = memory s.
Proof.
  unfold step.
  by rewrite lite_read_data_memory, lite_write_data_memory,
    lite_write_address_memory.
Qed.

Lemma rresp_step s x : rresp (step s x) = rresp s.
Proof.
  unfold step, _read_data, _write_data, _write_address, complete_write,
    unpack_and_respond.
  rewrite struct_unbound.
  repeat match goal with
         | |- context [match ?t with _ => _ end] => destruct t; simpl
         end; reflexivity.
Qed.

(** X15. No run of the AXI4-Lite slave changes its memory or its
    configured response codes: the write data task ends at the lookup
    of [struct], before the byte loop. *)
Theorem lite_run_keeps_memory s xs :
  memory (run s xs) = memory s /\ bresp (run s xs) = bresp s /\
  rresp (run s xs) = rresp s /\
  Forall (fun s' => memory s' = memory s) (states s xs).
Proof.
  revert s. induction xs as [|x xs IH]; intros s; [by repeat split|].
  destruct (IH (step s x)) as (Hm & Hb & Hr & Hall).
  change (run s (x :: xs)) with (run (step s x) xs).
  rewrite Hm, Hb, Hr, lite_step_memory, bresp_step, rresp_step.
  repeat split. simpl. constructor; [apply lite_step_memory|].
  eapply Forall_impl; [exact Hall|]. simpl. intros s' ->.
  apply lite_step_memory.
Qed.

(** *** The read channel *)

Lemma write_tasks_read_side x s :
  let s' := _write_data x (_write_address x s) in
  read_data_task s' = read_data_task s /\
  bus s' RVALID = bus s RVALID /\ bus s' ARREADY = bus s ARREADY /\
  bus s' RDATA = bus s RDATA /\ bus s' RRESP = bus s RRESP.
Proof.
  unfold _write_data, _write_address, complete_write.
  rewrite struct_unbound.
  destruct (write_address_task s) as [[| |]|e]; simpl; split_ifs;
    destruct (write_data_task s) as [[|d t|d t|d t]|e']; simpl; split_ifs;
    by repeat split.
Qed.

Lemma read_silent_step s x : read_silent s -> read_silent (step s x).
Proof.
  intros [Hv Ht]. unfold step.
  destruct (write_tasks_read_side x s) as (H1 & H2 & _).
  set (s2 := _write_data x (_write_address x s)) in *.
  rewrite <- H1 in Ht. rewrite <- H2 in Hv.
  unfold read_silent, _read_data. rewrite struct_unbound.
  destruct (read_data_task s2) as [[|]|e] eqn:Htask; simpl;
    try contradiction; split_ifs; rewrite ?Htask; auto.
Qed.

Lemma read_silent_states xs : forall s,
  read_silent s -> Forall read_silent (states s xs).
Proof.
  induction xs as [|x xs IH]; intros s Hs; simpl; constructor.
  - by apply read_silent_step.
  - apply IH. by apply read_silent_step.
Qed.

Lemma read_crashed_step e s x :
  read_data_task s = Crashed e ->
  read_data_task (step s x) = Crashed e /\
  bus (step s x) ARREADY = bus s ARREADY.
Proof.
  intros Hs. unfold step.
  destruct (write_tasks_read_side x s) as (H1 & _ & H3 & _).
  set (s2 := _write_data x (_write_address x s)) in *.
  unfold _read_data. rewrite H1, Hs. rewrite <- Hs, <- H1 at 1. by split.
Qed.

Lemma read_crashed_run e xs : forall s,
  read_data_task s = Crashed e ->
  read_data_task (run s xs) = Crashed e /\
  bus (run s xs) ARREADY = bus s ARREADY.
Proof.
  induction xs as [|x xs IH]; intros s Hs; [by split|].
  destruct (read_crashed_step e s x Hs) as (H1 & H2).
  destruct (IH _ H1) as (H3 & H4).
  change (run s (x :: xs)) with (run (step s x) xs).
  rewrite H3, H4, H2. by split.
Qed.

(** X16. The AXI4-Lite slave never answers a read.  From a state
    with RVALID low and no read response pending, RVALID stays low on
    every input, and a [read] of a master that samples the slave's
    outputs is still waiting when the trace ends; the first valid
    read address ends the read task with [NameError], and ARREADY
    stays as it was: the assignment of line 527 never reaches it. *)
Theorem lite_read_never_answers s xs :
  read_silent s ->
  Forall (fun s' => bus s' RVALID = 0) (states s xs) /\
  (forall a sync w,
     (AXI4LiteMaster.read a sync (map wire (states s xs)) w).1 = Suspended) /\
  (forall x, read_data_task s = Waiting R_idle ->
             truthy (ARVALID x) = true ->
     read_data_task (run s (x :: xs)) = Crashed NameError /\
     bus (run s (x :: xs)) ARREADY = bus s ARREADY).
Proof.
  intros Hs.
  assert (Hall : Forall (fun s' => bus s' RVALID = 0) (states s xs)).
  { eapply Forall_impl; [by apply read_silent_states|]. by intros s' [H _]. }
  split; [exact Hall|]. split.
  - intros a sync w. apply MasterExtra.read_waits_for_rvalid.
    intros smp Hin. apply list_elem_of_fmap in Hin as (s' & -> & Hin).
    rewrite Forall_forall in Hall. unfold wire. by rewrite (Hall s' Hin).
  - intros x Hidle Hv.
    change (run s (x :: xs)) with (run (step s x) xs).
    assert (H1 : read_data_task (step s x) = Crashed NameError /\
                 bus (step s x) ARREADY = bus s ARREADY).
    { unfold step.
      destruct (write_tasks_read_side x s) as (H1 & _ & H3 & _).
      unfold _read_data. rewrite H1, Hidle, Hv, struct_unbound. by split. }
    destruct H1 as (H1 & H2).
    destruct (read_crashed_run NameError xs _ H1) as (H3 & H4).
    by rewrite H3, H4.
Qed.

Lemma lite_read_never_answers_witness :
  match __init__ 32 image false true with
  | Returned s0 =>
      let xs := [idle; read_edge 4; idle] in
      Forall (fun s' => bus s' RVALID = 0) (states s0 xs) /\
      (AXI4LiteMaster.read 4 true (map wire (states s0 xs))
         (AXI4LiteMaster.__init__ (fun _ => 32%nat))).1 = Suspended /\
      read_data_task (run s0 (read_edge 4 :: xs)) = Crashed NameError /\
      bus (run s0 (read_edge 4 :: xs)) ARREADY = 1
  | _ => False
  end.
Proof.
  remember (__init__ 32 image false true) as r eqn:Hr.
  vm_compute in Hr. subst r. cbv beta iota zeta.
  match goal with |- context [states ?s0 _] => set (s := s0) end.
  destruct (lite_read_never_answers s [idle; read_edge 4; idle])
    as (H1 & H2 & H3); [split; [reflexivity | exact I]|].
  split; [exact H1|]. split; [apply H2|].
  apply (H3 (read_edge 4)); reflexivity.
Defined.

(** *** The write channels *)


Lemma read_data_write_side x s :
  let s' := _read_data x s in
  _awaddr s' = _awaddr s /\ bus s' AWREADY = bus s AWREADY /\
  bus s' WREADY = bus s WREADY /\ bus s' BVALID = bus s BVALID /\
  write_address_task s' = write_address_task s /\
  write_data_task s' = write_data_task s.
Proof.
  unfold _read_data. rewrite struct_unbound.
  destruct (read_data_task s) as [[|]|e]; simpl; split_ifs; by repeat split.
Qed.


Lemma silent_read_data x s : silent s -> silent (_read_data x s).
Proof.
  intros [Hv Ht].
  destruct (read_data_write_side x s) as (_ & _ & _ & H4 & _ & H6).
  unfold silent. by rewrite H4, H6.
Qed.










(** *** The byte loop and the two calls of [struct] *)

Lemma length_setitem {A} (l l' : list A) i v :
  setitem l i v = Some l' -> length l' = length l.
Proof.
  unfold setitem. destruct (_ && _); [|discriminate].
  intros [= <-]. apply length_insert.
Qed.

Lemma setitem_lookup_ne {A} (l l' : list A) i v (j : nat) :
  setitem l i v = Some l' -> j <> Z.to_nat i -> l' !! j = l !! j.
Proof.
  unfold setitem. destruct (_ && _); [|discriminate].
  intros [= <-] Hj. by apply list_lookup_insert_ne.
Qed.

Lemma write_bytes_frame _wstrb awaddr : forall _data idx mem,
  0 <= awaddr ->
  let r := write_bytes _wstrb awaddr idx _data mem in
  length r.2 = length mem /\
  forall i, (i < Z.to_nat awaddr + idx \/
             Z.to_nat awaddr + idx + length _data <= i)%nat ->
            r.2 !! i = mem !! i.
Proof.
  induction _data as [|v rest IH]; intros idx mem Ha; simpl; [by split|].
  destruct (str_getitem _wstrb idx) as [c|]; [|by split].
  destruct (bool_str c).
  - destruct (setitem mem (awaddr + Z.of_nat idx) v) as [mem'|] eqn:Hset;
      [|by split].
    destruct (IH (S idx) mem' Ha) as (Hlen & Hrest).
    split; [rewrite Hlen; by eapply length_setitem|].
    intros i Hi. rewrite Hrest by lia.
    eapply setitem_lookup_ne; [exact Hset | lia].
  - destruct (IH (S idx) mem Ha) as (Hlen & Hrest).
    split; [exact Hlen|]. intros i Hi. apply Hrest. lia.
Qed.

Lemma str_getitem_None s i :
  str_getitem s i = None <-> (String.length s <= i)%nat.
Proof.
  unfold str_getitem. revert i.
  induction s as [|c s IH]; intros i; simpl.
  - split; [lia | done].
  - destruct i as [|i]; [split; [discriminate | lia]|].
    rewrite IH. lia.
Qed.

Lemma bool_str_getitem s i c : str_getitem s i = Some c -> bool_str c = true.
Proof.
  unfold str_getitem. destruct (get i s); [|discriminate].
  by intros [= <-].
Qed.

Lemma write_bytes_fails _wstrb awaddr : forall _data idx mem,
  0 <= awaddr -> _data <> [] ->
  (String.length _wstrb < idx + length _data \/
   length mem < Z.to_nat awaddr + idx + length _data)%nat ->
  (write_bytes _wstrb awaddr idx _data mem).1 = Some IndexError.
Proof.
  induction _data as [|v rest IH]; intros idx mem Ha Hne Hshort;
    [contradiction|].
  simpl. destruct (str_getitem _wstrb idx) as [c|] eqn:Hc; [|reflexivity].
  rewrite (bool_str_getitem _ _ _ Hc).
  assert (Hidx : (idx < String.length _wstrb)%nat).
  { destruct (Nat.lt_ge_cases idx (String.length _wstrb)) as [H|H]; [exact H|].
    apply str_getitem_None in H. congruence. }
  destruct (setitem mem (awaddr + Z.of_nat idx) v) as [mem'|] eqn:Hset;
    [|reflexivity].
  pose proof (length_setitem _ _ _ _ Hset) as Hlen.
  assert (Hin : (Z.to_nat awaddr + idx < length mem)%nat).
  { unfold setitem in Hset.
    destruct (Z.ltb_spec (awaddr + Z.of_nat idx) (Z.of_nat (length mem)));
      [lia|]. by rewrite andb_false_r in Hset. }
  destruct rest as [|v' rest]; [simpl in Hshort; lia|].
  apply IH; [exact Ha | discriminate | simpl in *; lia].
Qed.

(** X19. The byte loop of lines 491-493, for a non-negative address
    and a beat of at least one byte.  It keeps the length of the
    memory and every byte outside the window of the beat.  It stores
    all the bytes of the beat when the strobe string has a character
    per byte and the window lies inside the memory, whatever the
    characters are, and it ends with [IndexError] otherwise. *)
Theorem byte_loop_checks_only_bounds _wstrb awaddr _data mem :
  0 <= awaddr -> _data <> [] ->
  let r := write_bytes _wstrb awaddr 0 _data mem in
  length r.2 = length mem /\
  (forall i, (i < Z.to_nat awaddr \/ Z.to_nat awaddr + length _data <= i)%nat ->
             r.2 !! i = mem !! i) /\
  ((length _data <= String.length _wstrb /\
    Z.to_nat awaddr + length _data <= length mem)%nat ->
   r = (None, take (Z.to_nat awaddr) mem ++ _data
              ++ drop (Z.to_nat awaddr + length _data) mem)) /\
  ((String.length _wstrb < length _data \/
    length mem < Z.to_nat awaddr + length _data)%nat ->
   r.1 = Some IndexError).
Proof.
  intros Ha Hne r. subst r.
  destruct (write_bytes_frame _wstrb awaddr _data 0 mem Ha) as (Hlen & Hrest).
  split; [exact Hlen|]. split; [|split].
  - intros i Hi. apply Hrest. lia.
  - intros [Hs Hm]. rewrite write_bytes_all by (simpl; lia).
    by rewrite !Nat.add_0_r.
  - intros Hshort. apply write_bytes_fails; [exact Ha | exact Hne | simpl; lia].
Qed.

Lemma byte_loop_checks_only_bounds_witness :
  let r := write_bytes "0000" 4 0 [xdd; xcc; xbb; xaa] image in
  let r' := write_bytes "01" 4 0 [xdd; xcc; xbb; xaa] image in
  r = (None, [x11; x22; x33; x44; xdd; xcc; xbb; xaa]) /\
  r'.1 = Some IndexError /\ length r'.2 = 8%nat.
Proof.
  intros r r'.
  destruct (byte_loop_checks_only_bounds "0000" 4 [xdd; xcc; xbb; xaa] image)
    as (_ & _ & H3 & _); [lia | discriminate |].
  destruct (byte_loop_checks_only_bounds "01" 4 [xdd; xcc; xbb; xaa] image)
    as (H1 & _ & _ & H4); [lia | discriminate |].
  split; [apply H3; simpl; lia|]. split; [apply H4; simpl; lia | exact H1].
Defined.

Lemma Z_of_byte_of_Z v : Z_of_byte (byte_of_Z v) = v mod 256.
Proof.
  unfold Z_of_byte, byte_of_Z.
  assert (Hlt : 0 <= v mod 256 < 256) by (apply Z.mod_pos_bound; lia).
  destruct (Byte.of_N (Z.to_N (v mod 256))) as [b|] eqn:Hb.
  - apply Byte.to_of_N in Hb. rewrite Hb. lia.
  - apply Byte.of_N_None_iff in Hb. lia.
Qed.

Lemma le_int_le_bytes n : forall v,
  le_int (le_bytes n v) = v mod 2 ^ (8 * Z.of_nat n).
Proof.
  induction n as [|n IH]; intros v.
  - simpl. by rewrite Z.mod_1_r.
  - simpl le_bytes. simpl le_int. rewrite IH, Z_of_byte_of_Z.
    replace (8 * Z.of_nat (S n)) with (8 + 8 * Z.of_nat n) by lia.
    rewrite Z.pow_add_r by lia.
    change (2 ^ 8) with 256.
    rewrite Z.rem_mul_r by lia. reflexivity.
Qed.

Lemma length_le_bytes n : forall v, length (le_bytes n v) = n.
Proof. induction n as [|n IH]; intros v; simpl; [done | by rewrite IH]. Qed.

Lemma struct_round_trip big size v _data :
  struct_pack big size v = Some _data ->
  length _data = size /\ struct_unpack big size _data = Some v.
Proof.
  unfold struct_pack, struct_unpack.
  destruct (_ && _) eqn:Hrange; [|discriminate].
  apply andb_true_iff in Hrange as [H0 H1].
  apply Z.leb_le in H0. apply Z.ltb_lt in H1.
  intros [= <-].
  assert (Hlen : length (if big then rev (le_bytes size v) else le_bytes size v)
                 = size).
  { destruct big; rewrite ?length_rev; apply length_le_bytes. }
  split; [exact Hlen|]. rewrite Hlen, Nat.eqb_refl. f_equal.
  destruct big; rewrite ?rev_involutive, le_int_le_bytes;
    apply Z.mod_small; lia.
Qed.

(** X20. Lines 485-497 and 532-539 as they run once [struct] is
    found.  A word that fits the bus, written at an address inside
    the memory and read back from that address, is read back
    unchanged, in either byte order; the write asserts BVALID with
    the configured BRESP and the read asserts RVALID with the
    configured RRESP. *)
Theorem lite_word_round_trip a v _wstrb s :
  (bytes_per_beat s = 4 \/ bytes_per_beat s = 8) ->
  0 <= v < 2 ^ (8 * bytes_per_beat s) ->
  0 <= a -> a + bytes_per_beat s <= Z.of_nat (length (memory s)) ->
  bytes_per_beat s <= Z.of_nat (String.length _wstrb) ->
  let s1 := pack_and_respond a v _wstrb s in
  let s2 := unpack_and_respond a s1 in
  write_data_task s1 = Waiting (D_response v _wstrb) /\
  bus s1 BVALID = 1 /\ bus s1 BRESP = bresp s /\
  length (memory s1) = length (memory s) /\
  read_data_task s2 = Waiting R_response /\
  bus s2 RVALID = 1 /\ bus s2 RRESP = rresp s /\ bus s2 RDATA = v.
Proof.
  intros Hbpb Hv Ha Hm Hs s1 s2.
  assert (Hsize : Z.of_nat (pack_size s) = bytes_per_beat s).
  { unfold pack_size. by destruct Hbpb as [-> | ->]. }
  destruct (struct_pack (big_endian s) (pack_size s) v) as [_data|] eqn:Hpack.
  2:{ unfold struct_pack in Hpack. rewrite Hsize in Hpack.
      destruct (Z.leb_spec 0 v); [|lia].
      destruct (Z.ltb_spec v (2 ^ (8 * bytes_per_beat s))); [|lia].
      simpl in Hpack. discriminate. }
  destruct (struct_round_trip _ _ _ _ Hpack) as (Hlen & Hunpack).
  assert (Hs1 : s1 = set_write_data_task (Waiting (D_response v _wstrb))
                       (drive BVALID 1 (drive BRESP (bresp s)
                          (set_memory
                             (take (Z.to_nat a) (memory s) ++ _data
                              ++ drop (Z.to_nat a + length _data) (memory s))
                             s)))).
  { subst s1. unfold pack_and_respond. rewrite Hpack.
    rewrite (write_bytes_all _wstrb a _data 0 (memory s)) by (simpl; lia).
    by rewrite !Nat.add_0_r. }
  assert (Htk : length (take (Z.to_nat a) (memory s)) = Z.to_nat a)
    by (apply length_take_le; lia).
  assert (Hsl : slice (memory s1) a (a + bytes_per_beat s1) = _data).
  { rewrite Hs1. simpl. unfold slice.
    rewrite drop_app_length' by done.
    apply take_app_length'. lia. }
  assert (Hs2 : s2 = set_read_data_task (Waiting R_response)
                       (drive RVALID 1 (drive RRESP (rresp s1)
                          (drive RDATA v s1)))).
  { subst s2. unfold unpack_and_respond. rewrite Hsl.
    replace (big_endian s1) with (big_endian s) by (by rewrite Hs1).
    replace (pack_size s1) with (pack_size s) by (by rewrite Hs1).
    by rewrite Hunpack. }
  rewrite Hs2. rewrite Hs1 at 1 2 3 4. simpl.
  repeat split; try reflexivity.
  - rewrite !length_app, Htk, length_drop. lia.
  - by rewrite Hs1.
Qed.

Lemma lite_word_round_trip_witness :
  match __init__ 32 image true true with
  | Returned s0 =>
      let s1 := pack_and_respond 4 0xAABBCCDD "1111" s0 in
      memory s1 = [x11; x22; x33; x44; xaa; xbb; xcc; xdd] /\
      bus (unpack_and_respond 4 s1) RDATA = 0xAABBCCDD
  | _ => False
  end.
Proof.
  remember (__init__ 32 image true true) as r eqn:Hr.
  vm_compute in Hr. subst r. cbv beta iota zeta.
  match goal with |- context [pack_and_respond _ _ _ ?s0] => set (s := s0) end.
  split; [reflexivity|].
  apply (lite_word_round_trip 4 0xAABBCCDD "1111" s);
    [by left | split; [lia | reflexivity] | lia
     | vm_compute; discriminate | vm_compute; discriminate].
Defined.

End LiteExtra.
